(** * The job discovery pipeline of [src/agents/discovery.py]

    A shallow embedding of [run_discovery] and of the functions it calls:
    the search fan-out, the URL-keyed deduplication fused with the
    keyword/location prefilter, the semaphore-bounded scoring fan-out and
    the threshold filter with its final descending sort.

    Conventions.
    - A Python [str] is a [string] holding the bytes of its UTF-8 encoding,
      so [url.encode()] is the identity.
    - A call that may raise returns an [outcome]; that is also what
      [asyncio.gather(..., return_exceptions=True)] hands back per task.
    - A number decoded from JSON is the rational it denotes ([Qc]); Python
      compares [int], [float] and [bool] by exact value.  The non-finite
      floats [json.loads] also accepts ([NaN], [Infinity]) are left out.
    - The two remote services (SerpAPI and the Anthropic client) and
      [str.lower] are variables of the development: everything proved holds
      whatever they answer. *)

From Stdlib Require Import QArith Qcanon.
From stdpp Require Import gmap strings list numbers sorting.

#[local] Set Warnings "-clear-no-such-hyp".


(** ** Python values and exceptions *)

Module Py.

Inductive exn : Type :=
| KeyError (key : string)
| TypeError (what : string)
| RuntimeError (what : string).

(** The result of evaluating something that may raise. *)
Inductive outcome (A : Type) : Type :=
| Returned (a : A)
| Raised (e : exn).
Global Arguments Returned {A} a.
Global Arguments Raised {A} e.

Global Instance outcome_ret : MRet outcome := @Returned.
Global Instance outcome_bind : MBind outcome := λ A B f m,
  match m with
  | Returned a => f a
  | Raised e => Raised e
  end.

(** [d[key]] on a dict whose entry may be absent. *)
Definition item {A} (key : string) (entry : option A) : outcome A :=
  match entry with
  | Some a => Returned a
  | None => Raised (KeyError key)
  end.

(** [s.startswith(p)] *)
Fixpoint startswith (p s : string) : bool :=
  match p, s with
  | EmptyString, _ => true
  | String _ _, EmptyString => false
  | String a p', String b s' =>
      if decide (a = b) then startswith p' s' else false
  end.

(** [needle in hay] for two strings: substring search. *)
Fixpoint contains (needle hay : string) : bool :=
  startswith needle hay ||
  match hay with
  | EmptyString => false
  | String _ hay' => contains needle hay'
  end.

(** Truth value of a string: only the empty string is falsy. *)
Definition truthy (s : string) : bool :=
  match s with EmptyString => false | String _ _ => true end.

(** What [json.loads] builds.  A dict keeps its entries in an association
    list; a lookup takes the first entry with the key. *)
#[local] Set Warnings "-register-all".
Inductive json : Type :=
| JNull
| JBool (b : bool)
| JNum (q : Qc)
| JStr (s : string)
| JArr (xs : list json)
| JObj (entries : list (string * json)).

Fixpoint assoc (key : string) (entries : list (string * json)) : option json :=
  match entries with
  | [] => None
  | (k, v) :: rest => if decide (k = key) then Some v else assoc key rest
  end.

(** [v[key]] with a string key: a [KeyError] on a dict without the key, a
    [TypeError] on anything that is not a dict. *)
Definition getitem (v : json) (key : string) : outcome json :=
  match v with
  | JObj entries => item key (assoc key entries)
  | JArr _ => Raised (TypeError "list indices must be integers")
  | JStr _ => Raised (TypeError "string indices must be integers")
  | JNull | JBool _ | JNum _ => Raised (TypeError "object is not subscriptable")
  end.

(** The number a value stands for in an ordering comparison with a
    number; [bool] is a subtype of [int].  Anything else makes [>=]
    raise. *)
Definition as_number (v : json) : outcome Qc :=
  match v with
  | JNum q => Returned q
  | JBool b => Returned (if b then 1%Qc else 0%Qc)
  | JNull | JStr _ | JArr _ | JObj _ =>
      Raised (TypeError "'>=' not supported between these instances")
  end.

(** [lst.sort(key=key, reverse=True)]: the sort is stable and compares
    keys with [<] only; with [reverse=True] elements with equal keys keep
    their original order.  The elements are inserted from the right, each
    one in front of the first element whose key is not larger. *)
Section Sort.
Context {A : Type} (key : A → Qc).

Fixpoint insert_desc (x : A) (l : list A) : list A :=
  match l with
  | [] => [x]
  | y :: l' =>
      if bool_decide (key x < key y)%Qc then y :: insert_desc x l'
      else x :: y :: l'
  end.

Definition sort_reverse (l : list A) : list A := foldr insert_desc [] l.

(** [a] may stand in front of [b] in a list sorted by descending key. *)
Definition descending (a b : A) : Prop := (key b ≤ key a)%Qc.
End Sort.

End Py.
Import Py.

(** ** MD5 (RFC 1321), as computed by [hashlib.md5(data).hexdigest()]

    Words are 32-bit integers held in [Z], every addition reduced modulo
    [2^32]. *)

Module MD5.
#[local] Open Scope Z_scope.

Definition word (x : Z) : Z := x mod 2 ^ 32.

Definition rotl (x c : Z) : Z :=
  word (Z.lor (Z.shiftl x c) (Z.shiftr x (32 - c))).

Definition not32 (x : Z) : Z := Z.lxor x 0xffffffff.

Definition K : list Z :=
  [ 0xd76aa478; 0xe8c7b756; 0x242070db; 0xc1bdceee;
    0xf57c0faf; 0x4787c62a; 0xa8304613; 0xfd469501;
    0x698098d8; 0x8b44f7af; 0xffff5bb1; 0x895cd7be;
    0x6b901122; 0xfd987193; 0xa679438e; 0x49b40821;
    0xf61e2562; 0xc040b340; 0x265e5a51; 0xe9b6c7aa;
    0xd62f105d; 0x02441453; 0xd8a1e681; 0xe7d3fbc8;
    0x21e1cde6; 0xc33707d6; 0xf4d50d87; 0x455a14ed;
    0xa9e3e905; 0xfcefa3f8; 0x676f02d9; 0x8d2a4c8a;
    0xfffa3942; 0x8771f681; 0x6d9d6122; 0xfde5380c;
    0xa4beea44; 0x4bdecfa9; 0xf6bb4b60; 0xbebfbc70;
    0x289b7ec6; 0xeaa127fa; 0xd4ef3085; 0x04881d05;
    0xd9d4d039; 0xe6db99e5; 0x1fa27cf8; 0xc4ac5665;
    0xf4292244; 0x432aff97; 0xab9423a7; 0xfc93a039;
    0x655b59c3; 0x8f0ccc92; 0xffeff47d; 0x85845dd1;
    0x6fa87e4f; 0xfe2ce6e0; 0xa3014314; 0x4e0811a1;
    0xf7537e82; 0xbd3af235; 0x2ad7d2bb; 0xeb86d391 ].

Definition shifts : list Z :=
  [ 7; 12; 17; 22; 7; 12; 17; 22; 7; 12; 17; 22; 7; 12; 17; 22;
    5; 9; 14; 20; 5; 9; 14; 20; 5; 9; 14; 20; 5; 9; 14; 20;
    4; 11; 16; 23; 4; 11; 16; 23; 4; 11; 16; 23; 4; 11; 16; 23;
    6; 10; 15; 21; 6; 10; 15; 21; 6; 10; 15; 21; 6; 10; 15; 21 ].

Definition bytes_of_string (s : string) : list Z :=
  (λ a, Z.of_N (Ascii.N_of_ascii a)) <$> String.list_ascii_of_string s.

(** [n] as [count] little-endian bytes. *)
Fixpoint le_bytes (count : nat) (n : Z) : list Z :=
  match count with
  | O => []
  | S count' => n mod 256 :: le_bytes count' (n / 256)
  end.

(** The message, one [0x80] byte, zeros up to 56 modulo 64, then the length
    in bits on 64 bits. *)
Definition pad (msg : list Z) : list Z :=
  let len := Z.of_nat (length msg) in
  msg ++ [0x80] ++ replicate (Z.to_nat ((55 - len) mod 64)) 0
      ++ le_bytes 8 ((8 * len) mod 2 ^ 64).

Fixpoint words (bytes : list Z) : list Z :=
  match bytes with
  | b0 :: b1 :: b2 :: b3 :: rest =>
      (b0 + 2 ^ 8 * b1 + 2 ^ 16 * b2 + 2 ^ 24 * b3) :: words rest
  | _ => []
  end.

Fixpoint blocks (fuel : nat) (ws : list Z) : list (list Z) :=
  match fuel, ws with
  | O, _ | _, [] => []
  | S fuel', _ => take 16 ws :: blocks fuel' (drop 16 ws)
  end.

Definition state : Type := Z * Z * Z * Z.

Definition round (M : list Z) (st : state) (i : nat) : state :=
  let '(a, b, c, d) := st in
  let iz := Z.of_nat i in
  let '(f, g) :=
    if iz <? 16 then (Z.lor (Z.land b c) (Z.land (not32 b) d), iz)
    else if iz <? 32 then
      (Z.lor (Z.land d b) (Z.land (not32 d) c), (5 * iz + 1) mod 16)
    else if iz <? 48 then (Z.lxor b (Z.lxor c d), (3 * iz + 5) mod 16)
    else (Z.lxor c (Z.lor b (not32 d)), (7 * iz) mod 16) in
  let f' := word (f + a + K !!! i + M !!! Z.to_nat g) in
  (d, word (b + rotl f' (shifts !!! i)), b, c).

Definition compress (st : state) (M : list Z) : state :=
  let '(a0, b0, c0, d0) := st in
  let '(a, b, c, d) := foldl (round M) st (seq 0 64) in
  (word (a0 + a), word (b0 + b), word (c0 + c), word (d0 + d)).

Definition init : state := (0x67452301, 0xefcdab89, 0x98badcfe, 0x10325476).

Definition digest (msg : list Z) : list Z :=
  let ws := words (pad msg) in
  let '(a, b, c, d) := foldl compress init (blocks (length ws) ws) in
  le_bytes 4 a ++ le_bytes 4 b ++ le_bytes 4 c ++ le_bytes 4 d.

Definition hex_digit (n : Z) : Ascii.ascii :=
  Ascii.ascii_of_N (Z.to_N (if n <? 10 then 48 + n else 87 + n)).

Fixpoint hex (bytes : list Z) : string :=
  match bytes with
  | [] => EmptyString
  | b :: rest => String (hex_digit (b / 16)) (String (hex_digit (b mod 16)) (hex rest))
  end.

Definition hexdigest (data : string) : string := hex (digest (bytes_of_string data)).

End MD5.

(** ** Data model *)

(** One entry of a listing's ["apply_options"] list. *)
Record apply_option : Type := { ao_link : option string }.

(** The ["detected_extensions"] dict of a listing. *)
Record extensions : Type := { posted_at : option string }.

(** A listing as the Google Jobs engine returns it, with the keys
    [run_discovery] reads.  [None] is an absent key. *)
Record job : Type := {
  job_title : option string;
  job_company_name : option string;
  job_location : option string;
  job_description : option string;
  job_link : option string;
  job_apply_options : option (list apply_option);
  job_detected_extensions : option extensions
}.

(** [data/preferences.json], as [load_preferences] returns it.  [None] is an
    absent key, so that subscripting it raises [KeyError]. *)
Record location_prefs : Type := {
  requirement : option string;
  dealbreakers : option (list string)
}.
Record compensation_prefs : Type := { minimum_base_salary : option Z }.
Record company_prefs : Type := {
  preferred_sizes : option (list string);
  industries_preferred : option (list string)
}.
Record scoring_prefs : Type := {
  weights : option (list (string * Qc));
  minimum_score_to_surface : option Qc
}.
Record discovery_prefs : Type := { exclude_keywords : option (list string) }.
Record preferences : Type := {
  target_titles : option (list string);
  location : option location_prefs;
  compensation : option compensation_prefs;
  company : option company_prefs;
  scoring : option scoring_prefs;
  discovery : option discovery_prefs;
  search_queries : option (list string)
}.

(** The dict [_scoring_context] builds for the prompt. *)
Record scoring_context : Type := {
  ctx_target_titles : list string;
  ctx_location_requirement : string;
  ctx_min_salary : Z;
  ctx_preferred_company_sizes : list string;
  ctx_preferred_industries : list string;
  ctx_scoring_weights : list (string * Qc)
}.

(** The tuples [(external_id, url, job)] appended to [candidates]. *)
Definition candidate : Type := string * string * job.

Definition cand_id (c : candidate) : string := c.1.1.
Definition cand_url (c : candidate) : string := c.1.2.
Definition cand_job (c : candidate) : job := c.2.

(** The dicts appended to [all_jobs]. *)
Record scored_job : Type := {
  sj_external_id : string;
  sj_title : string;
  sj_company : string;
  sj_location : string;
  sj_description : string;
  sj_url : string;
  sj_source : string;
  sj_posted_date : option string;
  sj_score : Qc;
  sj_score_breakdown : json;
  sj_raw_data : job
}.

(** A request sent to one of the two remote services. *)
Inductive call : Type :=
| SearchCall (query : string)
| OracleCall (ctx : scoring_context) (j : job).

(** ** Sample data

    A small job board, used below to run the pipeline on concrete inputs. *)

(** [str.lower] on ASCII text. *)
Definition ascii_lower_char (a : Ascii.ascii) : Ascii.ascii :=
  let n := Ascii.N_of_ascii a in
  if ((65 <=? n) && (n <=? 90))%N then Ascii.ascii_of_N (n + 32) else a.

Fixpoint ascii_lower (s : string) : string :=
  match s with
  | EmptyString => EmptyString
  | String a rest => String (ascii_lower_char a) (ascii_lower rest)
  end.

Definition percent (n : Z) : Qc := Q2Qc (n # 100).

Definition listing (title place description url : string) : job :=
  {| job_title := Some title;
     job_company_name := Some "Acme";
     job_location := Some place;
     job_description := Some description;
     job_link := Some url;
     job_apply_options := None;
     job_detected_extensions := None |}.

Definition office_manager : job :=
  listing "Office Manager" "Austin, TX" "Runs the front desk" "https://jobs.example.com/1".
Definition senior_pm : job :=
  listing "Senior PM" "Anywhere" "Fully remote" "https://jobs.example.com/2".
Definition product_lead : job :=
  listing "Product Lead" "Onsite - Boston" "We are REMOTE friendly" "https://jobs.example.com/3".
Definition senior_pm_again : job :=
  listing "Senior PM (repost)" "Anywhere" "Fully remote" "https://jobs.example.com/2".
Definition group_pm : job :=
  listing "Group PM" "Anywhere" "Fully remote" "https://jobs.example.com/1".
Definition principal_pm : job :=
  listing "Principal PM" "Onsite - NYC" "Five days in the office" "https://jobs.example.com/4".
Definition director : job :=
  listing "Director of Product" "Anywhere" "Fully remote" "https://jobs.example.com/5".

Definition board_queries : list string := ["PM remote"; "Senior PM"; "Head of Product"].

Definition board_prefs : preferences :=
  {| target_titles := Some ["Senior PM"; "Director of Product"];
     location := Some {| requirement := Some "remote"; dealbreakers := Some ["Onsite"] |};
     compensation := Some {| minimum_base_salary := Some 150000%Z |};
     company := Some {| preferred_sizes := Some ["startup"];
                        industries_preferred := Some ["fintech"] |};
     scoring := Some {| weights := Some [("title_match", percent 30)];
                        minimum_score_to_surface := Some (percent 80) |};
     discovery := Some {| exclude_keywords := Some ["Office Manager"] |};
     search_queries := Some board_queries |}.

(** The second search times out. *)
Definition board_search (i : nat) (query : string) : outcome (list job) :=
  if decide (query = "PM remote") then
    Returned [office_manager; senior_pm; product_lead]
  else if decide (query = "Senior PM") then
    Raised (RuntimeError "search timed out")
  else
    Returned [senior_pm_again; group_pm; principal_pm; director].


Definition board_listings : list job :=
  [office_manager; senior_pm; product_lead;
   senior_pm_again; group_pm; principal_pm; director].

Definition reply (score : Qc) : json :=
  JObj [("overall_score", JNum score);
        ("breakdown", JObj [("title_match", JNum score)]);
        ("reasoning", JStr "ok")].

(** A model that scores by title. *)
Definition board_claude (ctx : scoring_context) (j : job) : outcome json :=
  if decide (job_title j = Some "Product Lead") then Returned (reply (percent 95))
  else if decide (job_title j = Some "Senior PM") then Returned (reply (percent 90))
  else if decide (job_title j = Some "Director of Product") then Returned (reply (percent 90))
  else Returned (reply (percent 50)).

(** The same model when the request for "Product Lead" fails. *)
Definition claude_failing (ctx : scoring_context) (j : job) : outcome json :=
  if decide (job_title j = Some "Product Lead")
  then Raised (RuntimeError "overloaded")
  else board_claude ctx j.

(** The same model when the reply for "Product Lead" is valid JSON that
    names its score ["score"]. *)
Definition claude_misnamed (ctx : scoring_context) (j : job) : outcome json :=
  if decide (job_title j = Some "Product Lead")
  then Returned (JObj [("score", JNum (percent 95)); ("breakdown", JObj [])])
  else board_claude ctx j.

(** The same model when the reply for "Product Lead" gives its score in
    words. *)
Definition claude_wordy (ctx : scoring_context) (j : job) : outcome json :=
  if decide (job_title j = Some "Product Lead")
  then Returned (JObj [("overall_score", JStr "high"); ("breakdown", JObj [])])
  else board_claude ctx j.

Definition entry (j : job) (id title place description url : string) (score : Qc)
    : scored_job :=
  {| sj_external_id := id;
     sj_title := title;
     sj_company := "Acme";
     sj_location := place;
     sj_description := description;
     sj_url := url;
     sj_source := "google_jobs";
     sj_posted_date := None;
     sj_score := score;
     sj_score_breakdown := JObj [("title_match", JNum score)];
     sj_raw_data := j |}.

Definition senior_pm_entry : scored_job :=
  entry senior_pm "fcbf49b8460461a12f9dc64b5032ef66" "Senior PM" "Anywhere" "Fully remote"
    "https://jobs.example.com/2" (percent 90).
Definition product_lead_entry : scored_job :=
  entry product_lead "5305a56de3be87a090c384f26cc39897" "Product Lead" "Onsite - Boston"
    "We are REMOTE friendly" "https://jobs.example.com/3" (percent 95).
Definition director_entry : scored_job :=
  entry director "9c0cf825c31041040a790525a3a27087" "Director of Product" "Anywhere" "Fully remote"
    "https://jobs.example.com/5" (percent 90).



(** A listing whose first apply option has no link. *)
Definition linkless_apply_option : job :=
  {| job_title := Some "Staff PM";
     job_company_name := Some "Acme";
     job_location := Some "Anywhere";
     job_description := Some "Fully remote";
     job_link := Some "https://jobs.example.com/9";
     job_apply_options := Some [{| ao_link := None |}];
     job_detected_extensions := None |}.

(** A listing with two apply options. *)
Definition two_apply_options : job :=
  {| job_title := Some "Staff PM";
     job_company_name := Some "Acme";
     job_location := Some "Anywhere";
     job_description := Some "Fully remote";
     job_link := Some "https://jobs.example.com/9";
     job_apply_options :=
       Some [{| ao_link := Some "https://apply.example.com/a" |};
             {| ao_link := Some "https://apply.example.com/b" |}];
     job_detected_extensions := Some {| posted_at := Some "3 days ago" |} |}.

(** The scenario of section 8 of the specification. *)
Definition scenario_listing (title url : string) : job :=
  {| job_title := Some title;
     job_company_name := None;
     job_location := None;
     job_description := None;
     job_link := Some url;
     job_apply_options := None;
     job_detected_extensions := None |}.

Definition scenario_prefs : preferences :=
  {| target_titles := Some ["Senior PM"];
     location := Some {| requirement := Some "remote"; dealbreakers := Some [] |};
     compensation := Some {| minimum_base_salary := Some 0%Z |};
     company := Some {| preferred_sizes := Some []; industries_preferred := Some [] |};
     scoring := Some {| weights := Some [];
                        minimum_score_to_surface := Some (percent 80) |};
     discovery := Some {| exclude_keywords := Some ["office manager"] |};
     search_queries := Some ["PM remote"; "Senior PM"] |}.

Definition scenario_search (i : nat) (query : string) : outcome (list job) :=
  if decide (query = "PM remote")
  then Returned [scenario_listing "Office Manager" "u1";
                 scenario_listing "Senior PM" "u2"]
  else Returned [scenario_listing "Senior PM" "u2"].

Definition scenario_claude (ctx : scoring_context) (j : job) : outcome json :=
  Returned (JObj [("overall_score", JNum (percent 91)); ("breakdown", JObj [])]).

(** ** The text of a reply

    [score_job] (lines 114-119) and [tailor_resume] of
    [src/agents/tailoring.py] (lines 111-116) clean the model's reply with
    [str.strip] and the search [re.search(r'```(?:json)?\s*([\s\S]*?)\s*```', text)]
    before handing it to [json.loads].

    White space is what [str.isspace] and the pattern [\s] accept: the ASCII
    characters 9-13 and 28-32 and the characters U+0085, U+00A0, U+1680,
    U+2000-U+200A, U+2028, U+2029, U+202F, U+205F and U+3000, here in their
    UTF-8 encoding. *)

From Stdlib Require Import Ascii.

Definition byte (a : Ascii.ascii) : N := Ascii.N_of_ascii a.

Definition ascii_space (a : Ascii.ascii) : bool :=
  ((9 <=? byte a) && (byte a <=? 13) || (28 <=? byte a) && (byte a <=? 32))%N.

Definition two_byte_space (a b : Ascii.ascii) : bool :=
  ((byte a =? 0xC2) && ((byte b =? 0x85) || (byte b =? 0xA0)))%N.

Definition three_byte_space (a b c : Ascii.ascii) : bool :=
  ((byte a =? 0xE1) && (byte b =? 0x9A) && (byte c =? 0x80)
   || (byte a =? 0xE2) && (byte b =? 0x80)
      && ((0x80 <=? byte c) && (byte c <=? 0x8A)
          || (byte c =? 0xA8) || (byte c =? 0xA9) || (byte c =? 0xAF))
   || (byte a =? 0xE2) && (byte b =? 0x81) && (byte c =? 0x9F)
   || (byte a =? 0xE3) && (byte b =? 0x80) && (byte c =? 0x80))%N.

(** [s.lstrip()] *)
Fixpoint lstrip (s : string) : string :=
  match s with
  | EmptyString => s
  | String a r =>
      if ascii_space a then lstrip r
      else
        match r with
        | EmptyString => s
        | String b r' =>
            if two_byte_space a b then lstrip r'
            else
              match r' with
              | EmptyString => s
              | String c r'' =>
                  if three_byte_space a b c then lstrip r'' else s
              end
        end
  end.

(** [s.isspace()] or [s] is empty. *)
Definition all_space (s : string) : bool :=
  match lstrip s with EmptyString => true | String _ _ => false end.

(** [s.rstrip()] *)
Fixpoint rstrip (s : string) : string :=
  match s with
  | EmptyString => EmptyString
  | String a r => if all_space s then EmptyString else String a (rstrip r)
  end.

(** [s.strip()] *)
Definition strip (s : string) : string := rstrip (lstrip s).

(** The text after the first ["```"] of [s], if there is one. *)
Fixpoint after_fence (s : string) : option string :=
  if startswith "```" s then
    match s with
    | String _ (String _ (String _ r)) => Some r
    | _ => None
    end
  else
    match s with
    | EmptyString => None
    | String _ r => after_fence r
    end.

(** [(?:json)?]: the tag is taken whenever it is there. *)
Definition skip_json_tag (s : string) : string :=
  if startswith "json" s then
    match s with
    | String _ (String _ (String _ (String _ r))) => r
    | _ => s
    end
  else s.

(** [([\s\S]*?)\s*```]: the shortest prefix of [s] after which only white
    space stands before a ["```"]. *)
Fixpoint fence_body (s : string) : option string :=
  if startswith "```" (lstrip s) then Some EmptyString
  else
    match s with
    | EmptyString => None
    | String a r => String a <$> fence_body r
    end.

(** [match.group(1)] of the search, [None] when nothing matches.  A match
    starts at the first ["```"]: when none starts there, none starts
    later. *)
Definition fence_search (text : string) : option string :=
  r ← after_fence text; fence_body (lstrip (skip_json_tag r)).

(** Lines 114-119 of [score_job]: the string passed to [json.loads]. *)
Definition reply_json_text (text : string) : string :=
  strip (default text (fence_search text)).

(** Lines 111-116 of [tailor_resume]: the string passed to [json.loads]. *)
Definition tailoring_json_text (text : string) : string :=
  let raw_text := strip text in
  default raw_text (fence_search raw_text).



(** One white-space character, as the bytes of its encoding. *)
Inductive space_char : string → Prop :=
| space_one a :
    ascii_space a = true → space_char (String a EmptyString)
| space_two a b :
    two_byte_space a b = true → space_char (String a (String b EmptyString))
| space_three a b c :
    three_byte_space a b c = true →
    space_char (String a (String b (String c EmptyString))).

(** A run of white-space characters. *)
Inductive spaces : string → Prop :=
| spaces_nil : spaces EmptyString
| spaces_cons w s : space_char w → spaces s → spaces (w +:+ s).

(** The byte can start the encoding of a white-space character. *)
Definition space_lead (a : Ascii.ascii) : Prop :=
  ascii_space a = true
  ∨ byte a = 0xC2%N ∨ byte a = 0xE1%N ∨ byte a = 0xE2%N ∨ byte a = 0xE3%N.



(** Turns the byte tests among the hypotheses into (in)equalities. *)
Ltac byte_facts :=
  unfold space_lead, ascii_space, two_byte_space, three_byte_space in *;
  repeat first
    [ rewrite andb_true_iff in * | rewrite orb_true_iff in *
    | rewrite andb_false_iff in * | rewrite orb_false_iff in *
    | rewrite N.eqb_eq in * | rewrite N.eqb_neq in *
    | rewrite N.leb_le in * | rewrite N.leb_gt in * ].


(** ** The jobs table and the routes that use it

    [insert_job], [get_jobs] and [update_job_status] of
    [src/models/database.py], and the routes [trigger_discovery],
    [get_job], [list_jobs] and [change_job_status] of [src/api.py].

    Conventions.
    - SQLite is taken to run every statement it is given: a locked or full
      database is left out, and so are scores a REAL column cannot hold
      exactly.
    - Each function opens its own connection, so [cursor.lastrowid] is 0
      after an [INSERT OR IGNORE] that was ignored.
    - What Python and SQLite compute outside the code is collected in a
      [runtime]: everything proved holds whatever its fields are, under the
      hypotheses stated. *)

From stdpp Require Import pretty.

(** A row of the table [jobs]; a column that may hold NULL is an
    [option]. *)
Record job_row : Type := {
  row_id : Z;
  row_external_id : option string;
  row_title : string;
  row_company : string;
  row_location : option string;
  row_salary_min : option Z;
  row_salary_max : option Z;
  row_description : option string;
  row_url : string;
  row_source : option string;
  row_posted_date : option string;
  row_score : option Qc;
  row_score_breakdown : option string;
  row_status : option string;
  row_raw_data : option string;
  row_discovered_at : option string;
  row_updated_at : option string
}.

(** The database file: the rows of [jobs] in the order they were inserted,
    the largest ROWID the table has used (its entry in [sqlite_sequence])
    and the number of [INSERT] and [UPDATE] statements run so far, which
    indexes the clock. *)
Record jobs_db : Type := {
  db_jobs : list job_row;
  db_sequence : Z;
  db_statements : nat
}.

Record runtime : Type := {
  (** [json.dumps] on a decoded value and on a listing *)
  dumps : json → string;
  dumps_job : job → string;
  (** [round(x, 2)] *)
  round2 : Qc → Qc;
  (** [datetime('now')] in the [n]-th statement *)
  datetime_now : nat → string;
  (** the ROWIDs an ignored insert uses up: SQLite documents that it may
      leave such gaps *)
  burnt_rowids : jobs_db → nat;
  (** the order in which SQLite returns the rows the [WHERE] clause lets
      through, under [ORDER BY score DESC, discovered_at DESC] *)
  order_by_score : list job_row → list job_row
}.

(** The database [init_db] creates. *)
Definition new_database : jobs_db :=
  {| db_jobs := []; db_sequence := 0; db_statements := 0 |}.

(** The [external_id]s stored, NULL apart. *)
Definition external_ids (db : jobs_db) : list string :=
  omap row_external_id (db_jobs db).

(** The row the [INSERT] of [insert_job] describes for a dict built at
    lines 199-211 of [run_discovery], under the ROWID SQLite gives it;
    [status] and the two timestamps take the defaults of the schema. *)
Definition new_row (R : runtime) (rowid : Z) (now : string)
    (job_data : scored_job) : job_row :=
  {| row_id := rowid;
     row_external_id := Some (sj_external_id job_data);
     row_title := sj_title job_data;
     row_company := sj_company job_data;
     row_location := Some (sj_location job_data);
     row_salary_min := None;
     row_salary_max := None;
     row_description := Some (sj_description job_data);
     row_url := sj_url job_data;
     row_source := Some (sj_source job_data);
     row_posted_date := sj_posted_date job_data;
     row_score := Some (sj_score job_data);
     row_score_breakdown := Some (dumps R (sj_score_breakdown job_data));
     row_status := Some "new";
     row_raw_data := Some (dumps_job R (sj_raw_data job_data));
     row_discovered_at := Some now;
     row_updated_at := Some now |}.

(** [insert_job]: [INSERT OR IGNORE] skips the row when its [external_id]
    is stored already ([external_id TEXT UNIQUE]); the value returned is
    [cursor.lastrowid]. *)
Definition insert_job (R : runtime) (job_data : scored_job) (db : jobs_db)
    : jobs_db * Z :=
  if bool_decide (sj_external_id job_data ∈ external_ids db) then
    ({| db_jobs := db_jobs db;
        db_sequence := db_sequence db + Z.of_nat (burnt_rowids R db);
        db_statements := S (db_statements db) |}, 0%Z)
  else
    let rowid := (db_sequence db + 1)%Z in
    ({| db_jobs := db_jobs db
                   ++ [new_row R rowid (datetime_now R (db_statements db)) job_data];
        db_sequence := rowid;
        db_statements := S (db_statements db) |}, rowid).

(** [SET status = ?, updated_at = datetime('now')] on one row. *)
Definition set_status (status now : string) (r : job_row) : job_row :=
  {| row_id := row_id r;
     row_external_id := row_external_id r;
     row_title := row_title r;
     row_company := row_company r;
     row_location := row_location r;
     row_salary_min := row_salary_min r;
     row_salary_max := row_salary_max r;
     row_description := row_description r;
     row_url := row_url r;
     row_source := row_source r;
     row_posted_date := row_posted_date r;
     row_score := row_score r;
     row_score_breakdown := row_score_breakdown r;
     row_status := Some status;
     row_raw_data := row_raw_data r;
     row_discovered_at := row_discovered_at r;
     row_updated_at := Some now |}.

(** [update_job_status]: the [UPDATE ... WHERE id = ?]. *)
Definition update_job_status (R : runtime) (job_id : Z) (status : string)
    (db : jobs_db) : jobs_db :=
  {| db_jobs :=
       (λ r, if decide (row_id r = job_id)
             then set_status status (datetime_now R (db_statements db)) r
             else r) <$> db_jobs db;
     db_sequence := db_sequence db;
     db_statements := S (db_statements db) |}.

(** The [WHERE] clause [get_jobs] builds: [if status:] adds the first
    test, [if min_score is not None:] the second, which no row with a NULL
    score passes. *)
Definition selected (status : option string) (min_score : option Qc)
    (r : job_row) : bool :=
  match status with
  | Some s => if truthy s then bool_decide (row_status r = Some s) else true
  | None => true
  end
  && match min_score with
     | Some m =>
         match row_score r with
         | Some s => bool_decide (m ≤ s)%Qc
         | None => false
         end
     | None => true
     end.

(** [LIMIT ?]: a negative limit is no limit. *)
Definition sql_limit {A} (limit : Z) (rows : list A) : list A :=
  if decide (limit < 0)%Z then rows else take (Z.to_nat limit) rows.

Definition get_jobs (R : runtime) (status : option string)
    (min_score : option Qc) (limit : Z) (db : jobs_db) : list job_row :=
  sql_limit limit
    (order_by_score R (filter (λ r, selected status min_score r = true) (db_jobs db))).

(** How a route ends: the body it returns, the [HTTPException] it raises,
    or another exception, which leaves the route unhandled. *)
Inductive response (A : Type) : Type :=
| Ok (body : A)
| HTTPException (status_code : Z) (detail : string)
| Unhandled (e : exn).
Arguments Ok {A} body.
Arguments HTTPException {A} status_code detail.
Arguments Unhandled {A} e.

(** [list_jobs]: the rows and their count. *)
Definition list_jobs (R : runtime) (status : option string)
    (min_score : option Qc) (limit : Z) (db : jobs_db) : list job_row * nat :=
  let jobs := get_jobs R status min_score limit db in
  (jobs, length jobs).

(** [get_job]: the search goes through what [get_jobs()] returns with its
    default arguments. *)
Definition get_job (R : runtime) (job_id : Z) (db : jobs_db) : response job_row :=
  let jobs := get_jobs R None None 50 db in
  match find (λ j, bool_decide (row_id j = job_id)) jobs with
  | Some job => Ok job
  | None => HTTPException 404 ("Job " +:+ pretty job_id +:+ " not found")
  end.

Definition valid_statuses : list string :=
  ["new"; "reviewed"; "favorited"; "applied"; "rejected"; "archived"].

(** [change_job_status]; the body returned is [{"ok": True}]. *)
Definition change_job_status (R : runtime) (job_id : Z) (status : string)
    (db : jobs_db) : response bool * jobs_db :=
  if bool_decide (status ∈ valid_statuses) then
    (Ok true, update_job_status R job_id status db)
  else
    (HTTPException 400
       "Invalid status. Must be one of: ['new', 'reviewed', 'favorited', 'applied', 'rejected', 'archived']",
     db).

(** The two keys [os.getenv] reads. *)
Record environ : Type := {
  SERPAPI_API_KEY : option string;
  ANTHROPIC_API_KEY : option string
}.

(** What a request finds and leaves: the module's global
    [_anthropic_client], here the key the client was created with, and the
    database. *)
Record app_state : Type := {
  _anthropic_client : option string;
  database : jobs_db
}.

(** [not key or key == placeholder] *)
Definition unconfigured (placeholder : string) (key : option string) : bool :=
  match key with
  | None => true
  | Some k => negb (truthy k) || bool_decide (k = placeholder)
  end.

(** [get_anthropic_client]: the client, or the [HTTPException], and the
    global afterwards. *)
Definition get_anthropic_client (env : environ) (client : option string)
    : response string * option string :=
  match client with
  | Some c => (Ok c, Some c)
  | None =>
      match ANTHROPIC_API_KEY env with
      | Some api_key =>
          if negb (truthy api_key)
             || bool_decide (api_key = "your_anthropic_api_key_here")
          then (HTTPException 500 "ANTHROPIC_API_KEY not configured in .env", None)
          else (Ok api_key, Some api_key)
      | None =>
          (HTTPException 500 "ANTHROPIC_API_KEY not configured in .env", None)
      end
  end.

Record top_job : Type := {
  top_title : string;
  top_company : string;
  top_score : Qc
}.

(** The body [trigger_discovery] returns. *)
Record discovery_report : Type := {
  report_status : string;
  found : nat;
  saved : nat;
  top_jobs : list top_job
}.

(** The body of the loop of [trigger_discovery] over [jobs], on the pair
    of the database and [saved]. *)
Definition save_job (R : runtime) (st : jobs_db * nat) (job : scored_job)
    : jobs_db * nat :=
  let '(db, saved) := st in
  let '(db', job_id) := insert_job R job db in
  (db', if decide (job_id = 0%Z) then saved else S saved).

(** The lines of [trigger_discovery] after [run_discovery] has returned
    [jobs]. *)
Definition store_results (R : runtime) (jobs : list scored_job) (db : jobs_db)
    : discovery_report * jobs_db :=
  let '(db', saved) := foldl (save_job R) (db, 0) jobs in
  ({| report_status := "ok";
      found := length jobs;
      saved := saved;
      top_jobs :=
        (λ j, {| top_title := sj_title j;
                 top_company := sj_company j;
                 top_score := round2 R (sj_score j) |}) <$> take 5 jobs |},
   db').

(** What the schema and [AUTOINCREMENT] keep true of the table: no two
    rows share an [id] or a non-NULL [external_id], and every [id] is
    positive and at most the sequence. *)
Definition db_ok (db : jobs_db) : Prop :=
  NoDup (row_id <$> db_jobs db)
  ∧ NoDup (external_ids db)
  ∧ (0 ≤ db_sequence db)%Z
  ∧ ∀ r, r ∈ db_jobs db → (0 < row_id r ≤ db_sequence db)%Z.

(** [None] is NULL, which SQLite orders below every number. *)
Definition score_le (a b : option Qc) : Prop :=
  match a, b with
  | None, _ => True
  | Some _, None => False
  | Some x, Some y => (x ≤ y)%Qc
  end.

(** [r1] may come before [r2] under [ORDER BY score DESC]. *)
Definition score_desc (r1 r2 : job_row) : Prop :=
  score_le (row_score r2) (row_score r1).

(** What [ORDER BY score DESC, ...] guarantees of the order SQLite
    returns: the same rows, larger scores first.  How ties are broken
    beyond [discovered_at] is left open. *)
Definition orders_by_score (R : runtime) : Prop :=
  (∀ rows, order_by_score R rows ≡ₚ rows)
  ∧ (∀ rows, StronglySorted score_desc (order_by_score R rows)).

(** The entries of [jobs] whose [external_id] is not stored in [db]. *)
Definition not_stored (db : jobs_db) (jobs : list scored_job) : list scored_job :=
  filter (λ job, sj_external_id job ∉ external_ids db) jobs.

(** [r] is the row [insert_job] stores for [job], under some ROWID and at
    some time. *)
Definition row_of (R : runtime) (job : scored_job) (r : job_row) : Prop :=
  ∃ rowid now, r = new_row R rowid now job.

#[global] Instance score_le_dec (a b : option Qc) : Decision (score_le a b).
Proof. destruct a, b; simpl; apply _. Defined.

#[global] Instance score_desc_dec : RelDecision score_desc.
Proof. intros r1 r2. unfold score_desc. apply _. Defined.

(** The rows of [db] that [ORDER BY score DESC] puts before [r] whatever
    the tie-break: those with a larger score. *)
Definition higher_scored (r : job_row) (db : jobs_db) : list job_row :=
  filter (λ r', ¬ score_desc r r') (db_jobs db).

(** A decoded reply the loop of lines 194-211 gets through without
    raising under the threshold [min_score]: it holds a number under
    ["overall_score"] and, when that number reaches the threshold, a
    ["breakdown"]. *)
Definition usable (min_score : Qc) (score_data : json) : Prop :=
  ∃ s, getitem score_data "overall_score" ≫= as_number = Returned s
       ∧ ((min_score ≤ s)%Qc → ∃ b, getitem score_data "breakdown" = Returned b).

(** A digit of a lower-case hexadecimal number. *)
Definition is_lower_hex (a : Ascii.ascii) : bool :=
  ((48 <=? byte a) && (byte a <=? 57) || (97 <=? byte a) && (byte a <=? 102))%N.

(** ** Sample replies and a sample database *)

Definition double_quote : string := String (Ascii.ascii_of_nat 34) EmptyString.
Definition line_feed : string := String (Ascii.ascii_of_nat 10) EmptyString.

(** The JSON text of a reply that gives [score] everywhere. *)
Definition reply_text (score : string) : string :=
  "{" +:+ double_quote +:+ "overall_score" +:+ double_quote +:+ ": " +:+ score
  +:+ ", " +:+ double_quote +:+ "breakdown" +:+ double_quote +:+ ": {"
  +:+ double_quote +:+ "title_match" +:+ double_quote +:+ ": " +:+ score
  +:+ "}, " +:+ double_quote +:+ "reasoning" +:+ double_quote +:+ ": "
  +:+ double_quote +:+ "ok" +:+ double_quote +:+ "}".



Definition preamble : string := "Here is the assessment." +:+ line_feed.

(** A reply with a sentence in front and the JSON in a fence. *)
Definition fence (text : string) : string :=
  preamble +:+ "```json" +:+ (line_feed +:+ text +:+ line_feed) +:+ "```" +:+ "".


(** A reply cut off inside its fence. *)
Definition truncated_reply : string :=
  "```json" +:+ line_feed +:+ "{" +:+ double_quote +:+ "overall_score".

(** A runtime for the examples: serialisations are abbreviated, the clock
    stands still, an ignored insert uses up one ROWID and ties keep the
    order of the table. *)
Definition sample_runtime : runtime :=
  {| dumps := λ _, "{}";
     dumps_job := λ _, "{}";
     round2 := λ score, score;
     datetime_now := λ _, "2025-01-01 00:00:00";
     burnt_rowids := λ _, 1;
     order_by_score := merge_sort score_desc |}.

Definition sample_env : environ :=
  {| SERPAPI_API_KEY := Some "serp-key"; ANTHROPIC_API_KEY := Some "sk-ant-key" |}.

(** The environment once the Anthropic key has been unset. *)
Definition env_without_anthropic : environ :=
  {| SERPAPI_API_KEY := Some "serp-key"; ANTHROPIC_API_KEY := None |}.


(** The application right after start-up. *)
Definition fresh_state : app_state :=
  {| _anthropic_client := None; database := new_database |}.

Definition board_top_jobs : list top_job :=
  [{| top_title := "Product Lead"; top_company := "Acme"; top_score := percent 95 |};
   {| top_title := "Senior PM"; top_company := "Acme"; top_score := percent 90 |};
   {| top_title := "Director of Product"; top_company := "Acme";
      top_score := percent 90 |}].

(** What the first discovery on the sample board reports, and the
    second. *)
Definition first_report : discovery_report :=
  {| report_status := "ok"; found := 3; saved := 3; top_jobs := board_top_jobs |}.

Definition second_report : discovery_report :=
  {| report_status := "ok"; found := 3; saved := 0; top_jobs := board_top_jobs |}.

(** "Senior PM" scored again, higher. *)
Definition senior_pm_rescored : scored_job :=
  entry senior_pm "fcbf49b8460461a12f9dc64b5032ef66" "Senior PM" "Anywhere" "Fully remote"
    "https://jobs.example.com/2" (percent 99).

(** The table after the sample board's three jobs have been stored. *)
Definition board_db : jobs_db :=
  (store_results sample_runtime
     [product_lead_entry; senior_pm_entry; director_entry] new_database).2.

(** Fifty-one jobs with the scores 0.00, 0.01, ..., 0.50, and the table
    that holds them. *)
Definition numbered_job (n : nat) : scored_job :=
  entry senior_pm (pretty n) "Senior PM" "Anywhere" "Fully remote"
    ("https://jobs.example.com/" +:+ pretty n) (percent (Z.of_nat n)).

Definition crowded_db : jobs_db :=
  (store_results sample_runtime (numbered_job <$> seq 0 51) new_database).2.

(** The row of the job that scores 0.00. *)
Definition last_row : job_row :=
  new_row sample_runtime 1 "2025-01-01 00:00:00" (numbered_job 0).
(** ** The pipeline *)

Section Discovery.

(** [str.lower]. *)
Variable lower : string → string.

(** What the Google Jobs engine answers to the search issued for the
    [i]-th configured query: the ["jobs_results"] list, or the exception the
    request raised. *)
Variable google_jobs : nat → string → outcome (list job).

(** What lines 95-119 of [score_job] evaluate to for one listing: the value
    [json.loads] decodes from the model's reply, or the exception raised by
    the request, by [response.content[0]] or by [json.loads]. *)
Variable claude : scoring_context → job → outcome json.

Definition generate_external_id (url : string) : string := MD5.hexdigest url.

Definition search_jobs (i : nat) (query : string) : outcome (list job) :=
  google_jobs i query.

Definition _scoring_context (p : preferences) : outcome scoring_context :=
  titles ← item "target_titles" (target_titles p);
  loc ← item "location" (location p);
  req ← item "requirement" (requirement loc);
  comp ← item "compensation" (compensation p);
  salary ← item "minimum_base_salary" (minimum_base_salary comp);
  co ← item "company" (company p);
  sizes ← item "preferred_sizes" (preferred_sizes co);
  co' ← item "company" (company p);
  industries ← item "industries_preferred" (industries_preferred co');
  sc ← item "scoring" (scoring p);
  ws ← item "weights" (weights sc);
  mret {| ctx_target_titles := titles;
          ctx_location_requirement := req;
          ctx_min_salary := salary;
          ctx_preferred_company_sizes := sizes;
          ctx_preferred_industries := industries;
          ctx_scoring_weights := ws |}.

(** [score_job]: the prompt is built first, so a [KeyError] of
    [_scoring_context] is raised before any request is sent.  The first
    component lists the requests sent. *)
Definition score_job (j : job) (p : preferences) : list call * outcome json :=
  match _scoring_context p with
  | Raised e => ([], Raised e)
  | Returned ctx => ([OracleCall ctx j], claude ctx j)
  end.

Definition _prefilter (j : job) (exclude_keywords dealbreakers : gset string) : bool :=
  let title := lower (default "" (job_title j)) in
  if existsb (λ kw, contains kw title) (elements exclude_keywords) then false
  else
    let location := lower (default "" (job_location j)) in
    let description := lower (default "" (job_description j)) in
    if existsb (λ db, contains db location) (elements dealbreakers)
       && negb (contains "remote" description)
    then false
    else true.

(** Lines 168-173: the URL a listing is identified by. *)
Definition canonical_url (j : job) : string :=
  let apply_options := default [] (job_apply_options j) in
  let chosen :=
    match apply_options with
    | first :: _ => default "" (ao_link first)
    | [] => default "" (job_link j)
    end in
  if truthy chosen then chosen else default "" (job_link j).

(** Lines 167-179, the body of the inner loop, on the pair
    [(seen, candidates)].  [keep] is the test of line 178. *)
Definition visit (keep : job → bool)
    (st : gset string * list candidate) (j : job) : gset string * list candidate :=
  let '(seen, candidates) := st in
  let url := canonical_url j in
  let external_id := generate_external_id url in
  if bool_decide (external_id ∈ seen) then st
  else
    let seen := {[external_id]} ∪ seen in
    if keep j then (seen, candidates ++ [(external_id, url, j)])
    else (seen, candidates).

(** Lines 164-179, the body of the outer loop. *)
Definition visit_result (keep : job → bool)
    (st : gset string * list candidate) (result : outcome (list job))
    : gset string * list candidate :=
  match result with
  | Raised _ => st
  | Returned jobs => foldl (visit keep) st jobs
  end.

(** Lines 162-179. *)
Definition dedup_loop (keep : job → bool)
    (search_results : list (outcome (list job))) : gset string * list candidate :=
  foldl (visit_result keep) (∅, []) search_results.

(** The candidates of a run: what lines 162-179 leave in [candidates]. *)
Definition surviving (exclude_keywords dealbreakers : gset string)
    (search_results : list (outcome (list job))) : list candidate :=
  (dedup_loop (λ j, _prefilter j exclude_keywords dealbreakers) search_results).2.

(** The listings in the order the two loops visit them. *)
Definition flatten (search_results : list (outcome (list job))) : list job :=
  concat ((λ r, match r with Returned jobs => jobs | Raised _ => [] end)
            <$> search_results).

(** The listings that register their [external_id] in [seen] (line 177),
    whatever line 178 then decides. *)
Definition deduplicate (jobs : list job) : list candidate :=
  (foldl (visit (λ _, true)) (∅, []) jobs).2.

(** [_score] of line 184, between acquiring and releasing the semaphore. *)
Definition _score (p : preferences) (c : candidate)
    : list call * outcome (candidate * json) :=
  let '(calls, r) := score_job (cand_job c) p in
  (calls, score_data ← r; mret (c, score_data)).

(** Lines 195-211, the body of the loop over [scored]: the dict one
    gathered result adds to [all_jobs], if any. *)
Definition surface (min_score : Qc) (result : outcome (candidate * json))
    : outcome (option scored_job) :=
  match result with
  | Raised _ => Returned None
  | Returned ((external_id, url, j), score_data) =>
      overall ← getitem score_data "overall_score";
      s ← as_number overall;
      if bool_decide (min_score ≤ s)%Qc then
        breakdown ← getitem score_data "breakdown";
        mret (Some
          {| sj_external_id := external_id;
             sj_title := default "Unknown" (job_title j);
             sj_company := default "Unknown" (job_company_name j);
             sj_location := default "Unknown" (job_location j);
             sj_description := default "" (job_description j);
             sj_url := url;
             sj_source := "google_jobs";
             sj_posted_date := d ← job_detected_extensions j; posted_at d;
             sj_score := s;
             sj_score_breakdown := breakdown;
             sj_raw_data := j |})
      else mret None
  end.

(** Lines 193-211, the loop over [scored], on the list [all_jobs]. *)
Fixpoint collect (min_score : Qc) (scored : list (outcome (candidate * json)))
    (all_jobs : list scored_job) : outcome (list scored_job) :=
  match scored with
  | [] => Returned all_jobs
  | result :: rest =>
      added ← surface min_score result;
      collect min_score rest (all_jobs ++ option_list added)
  end.

(** Lines 151-157: what is read from the preferences before the searches
    are started. *)
Definition read_settings (p : preferences)
    : outcome (gset string * gset string * Qc * list string) :=
  disc ← item "discovery" (discovery p);
  kws ← item "exclude_keywords" (exclude_keywords disc);
  loc ← item "location" (location p);
  dbs ← item "dealbreakers" (dealbreakers loc);
  sc ← item "scoring" (scoring p);
  min_score ← item "minimum_score_to_surface" (minimum_score_to_surface sc);
  queries ← item "search_queries" (search_queries p);
  mret (list_to_set (lower <$> kws), list_to_set (lower <$> dbs), min_score, queries).

(** Lines 161-214, from the gathered search results on. *)
Definition rank_results (p : preferences) (exclude_keywords dealbreakers : gset string)
    (min_score : Qc) (search_results : list (outcome (list job)))
    : list call * outcome (list scored_job) :=
  let candidates := surviving exclude_keywords dealbreakers search_results in
  let tasks := _score p <$> candidates in
  let scored := snd <$> tasks in
  (concat (fst <$> tasks),
   all_jobs ← collect min_score scored [];
   mret (sort_reverse sj_score all_jobs)).

(** [run_discovery] on the loaded preferences: the requests sent, then the
    list returned or the exception raised. *)
Definition run_discovery (p : preferences) : list call * outcome (list scored_job) :=
  match read_settings p with
  | Raised e => ([], Raised e)
  | Returned (exclude_keywords, dealbreakers, min_score, queries) =>
      let search_results := imap search_jobs queries in
      let '(calls, result) :=
        rank_results p exclude_keywords dealbreakers min_score search_results in
      ((SearchCall <$> queries) ++ calls, result)
  end.

(** *** The scoring fan-out under [asyncio.Semaphore(5)]

    Lines 182-191 start one [_score] task per candidate.  A task waits at
    [async with semaphore] until a permit is free, holds the permit while
    [score_job] runs, and gives it back when [score_job] returns or raises.
    The event loop may interleave the tasks in any order: a schedule is the
    list of the moves it makes. *)

Inductive task : Type :=
| Waiting
| Scoring
| Done (r : outcome (candidate * json)).

Record pool : Type := {
  permits : nat;        (* the semaphore's counter *)
  tasks : list task     (* one per candidate, in the order of [candidates] *)
}.

Inductive move : Type :=
| Acquire (i : nat)
| Release (i : nat).

Definition start (candidates : list candidate) : pool :=
  {| permits := 5; tasks := replicate (length candidates) Waiting |}.

(** One move of the event loop; [None] when the move is not enabled. *)
Definition fire (p : preferences) (candidates : list candidate)
    (s : pool) (m : move) : option pool :=
  match m with
  | Acquire i =>
      match tasks s !! i with
      | Some Waiting =>
          if decide (0 < permits s)
          then Some {| permits := permits s - 1; tasks := <[i:=Scoring]> (tasks s) |}
          else None
      | _ => None
      end
  | Release i =>
      match tasks s !! i, candidates !! i with
      | Some Scoring, Some c =>
          Some {| permits := permits s + 1;
                  tasks := <[i:=Done (_score p c).2]> (tasks s) |}
      | _, _ => None
      end
  end.

Fixpoint play (p : preferences) (candidates : list candidate)
    (s : pool) (schedule : list move) : option pool :=
  match schedule with
  | [] => Some s
  | m :: rest => s' ← fire p candidates s m; play p candidates s' rest
  end.

Definition is_scoring (t : task) : bool :=
  match t with Scoring => true | _ => false end.

(** The number of tasks inside [async with semaphore], hence a bound on the
    number of requests to the model that are in flight. *)
Definition in_flight (s : pool) : nat := length (filter is_scoring (tasks s)).

Definition scoring_weight (t : task) : nat := if is_scoring t then 1 else 0.

(** What every move preserves: permits held plus permits free is 5, there
    is one task per candidate, and a finished task holds the outcome of its
    own candidate. *)
Definition pool_ok (p : preferences) (cands : list candidate) (s : pool) : Prop :=
  in_flight s + permits s = 5
  ∧ length (tasks s) = length cands
  ∧ ∀ i r, tasks s !! i = Some (Done r) →
           ∃ c, cands !! i = Some c ∧ r = (_score p c).2.

(** What [asyncio.gather] returns once every task is done: the outcomes in
    the order the tasks were passed. *)
Definition gathered (s : pool) : option (list (outcome (candidate * json))) :=
  mapM (λ t, match t with Done r => Some r | _ => None end) (tasks s).

(** The schedule that runs the tasks one after the other. *)
Definition one_by_one (n : nat) : list move :=
  seq 0 n ≫= λ i, [Acquire i; Release i].

(** *** Notions used to state the properties *)

(** [needle] occurs in [hay]. *)
Definition substring_of (needle hay : string) : Prop :=
  ∃ before after, hay = before +:+ needle +:+ after.

(** The [external_id] a listing gets at line 174. *)
Definition job_id (j : job) : string := generate_external_id (canonical_url j).

(** The tuple line 179 builds for a listing. *)
Definition candidate_of (j : job) : candidate := (job_id j, canonical_url j, j).

(** The listings that reach line 177 when the loop starts with [seen]: those
    whose [external_id] no earlier listing, and no member of [seen], has. *)
Fixpoint fresh (seen : gset string) (jobs : list job) : list job :=
  match jobs with
  | [] => []
  | j :: rest =>
      if bool_decide (job_id j ∈ seen) then fresh seen rest
      else j :: fresh ({[job_id j]} ∪ seen) rest
  end.

(** The [external_id]s of a list of listings, as a set. *)
Definition ids_of (jobs : list job) : gset string := list_to_set (job_id <$> jobs).

(** The tuple an entry of the output was built from. *)
Definition origin (o : scored_job) : candidate :=
  (sj_external_id o, sj_url o, sj_raw_data o).

(** The canonical URLs of the listings sent to the model, in the order of
    the requests. *)
Definition scored_urls (calls : list call) : list string :=
  omap (λ c, match c with
             | OracleCall _ j => Some (canonical_url j)
             | SearchCall _ => None
             end) calls.


(** The canonical URL as section 4.2 of the specification words it: the
    link of the first apply option when there is one, the generic link
    otherwise, an absent link being the empty string. *)
Definition spec_canonical_url (j : job) : string :=
  match default [] (job_apply_options j) with
  | first :: _ => default "" (ao_link first)
  | [] => default "" (job_link j)
  end.




(** [trigger_discovery] of [src/api.py] on the loaded preferences: the
    requests sent to the two services, how the route ends, and the state
    it leaves. *)
Definition trigger_discovery (R : runtime) (env : environ) (p : preferences)
    (st : app_state) : list call * response discovery_report * app_state :=
  if unconfigured "your_serpapi_key_here" (SERPAPI_API_KEY env) then
    ([], HTTPException 500 "SERPAPI_API_KEY not configured in .env", st)
  else
    match get_anthropic_client env (_anthropic_client st) with
    | (Ok client, cached) =>
        let '(calls, result) := run_discovery p in
        match result with
        | Returned jobs =>
            let '(report, db) := store_results R jobs (database st) in
            (calls, Ok report, {| _anthropic_client := cached; database := db |})
        | Raised e =>
            (calls, Unhandled e,
             {| _anthropic_client := cached; database := database st |})
        end
    | (HTTPException status_code detail, cached) =>
        ([], HTTPException status_code detail,
         {| _anthropic_client := cached; database := database st |})
    | (Unhandled e, cached) =>
        ([], Unhandled e,
         {| _anthropic_client := cached; database := database st |})
    end.
(** ** Properties *)

(** *** Strings *)

Lemma append_cons (a : Ascii.ascii) (s t : string) :
  String a s +:+ t = String a (s +:+ t).
Proof. reflexivity. Qed.

Lemma startswith_spec (p s : string) :
  startswith p s = true ↔ ∃ t, s = p +:+ t.
Proof.
  revert s. induction p as [|a p IH]; intros s; simpl.
  - split; [intros _; by exists s | done].
  - setoid_rewrite append_cons. destruct s as [|b s].
    + split; [done | intros [t Ht]; discriminate].
    + case_decide as Hab.
      * subst b. rewrite IH. split.
        -- intros [t ->]. by exists t.
        -- intros [t Ht]. injection Ht as ->. by exists t.
      * split; [done | intros [t Ht]; congruence].
Qed.

Lemma contains_spec (needle hay : string) :
  contains needle hay = true ↔ substring_of needle hay.
Proof.
  unfold substring_of. induction hay as [|c hay IH]; simpl.
  - rewrite orb_false_r, startswith_spec. split.
    + intros [t Ht]. by exists "", t.
    + intros (before & after & H). destruct before; [|discriminate].
      by exists after.
  - rewrite orb_true_iff, startswith_spec, IH. split.
    + intros [[t Ht] | (before & after & H)].
      * by exists "", t.
      * exists (String c before), after. by rewrite append_cons, H.
    + intros (before & after & H). destruct before as [|a before].
      * left. by exists after.
      * right. rewrite append_cons in H. injection H as -> H.
        by exists before, after.
Qed.

Lemma contains_false (needle hay : string) :
  contains needle hay = false ↔ ¬ substring_of needle hay.
Proof. rewrite <- contains_spec. by destruct (contains needle hay). Qed.

(** [any(s in text for s in strings)] over a set. *)
Lemma any_contains (strings : gset string) (text : string) :
  existsb (λ s, contains s text) (elements strings) = true
  ↔ ∃ s, s ∈ strings ∧ substring_of s text.
Proof.
  rewrite existsb_exists. split.
  - intros (s & Hin & Hs). exists s. split.
    + by apply elem_of_elements, list_elem_of_In.
    + by apply contains_spec.
  - intros (s & Hin & Hs). exists s. split.
    + by apply list_elem_of_In, elem_of_elements.
    + by apply contains_spec.
Qed.

Lemma none_contains (strings : gset string) (text : string) :
  existsb (λ s, contains s text) (elements strings) = false
  ↔ ∀ s, s ∈ strings → ¬ substring_of s text.
Proof.
  rewrite <- not_true_iff_false, any_contains. split.
  - intros H s Hin Hs. apply H. eauto.
  - intros H (s & Hin & Hs). by apply (H s).
Qed.

(** *** The prefilter *)

Lemma prefilter_accepts (j : job) (exclude_keywords dealbreakers : gset string) :
  _prefilter j exclude_keywords dealbreakers = true ↔
    (∀ kw, kw ∈ exclude_keywords →
       ¬ substring_of kw (lower (default "" (job_title j))))
    ∧ ((∀ db, db ∈ dealbreakers →
          ¬ substring_of db (lower (default "" (job_location j))))
       ∨ substring_of "remote" (lower (default "" (job_description j)))).
Proof.
  unfold _prefilter.
  destruct (existsb _ (elements exclude_keywords)) eqn:Hkw.
  - apply any_contains in Hkw as (kw & Hin & Hsub). split; [done|].
    intros [H _]. by destruct (H kw).
  - rewrite none_contains in Hkw.
    destruct (existsb _ (elements dealbreakers)) eqn:Hdb; simpl.
    + apply any_contains in Hdb as (db & Hin & Hsub).
      destruct (contains "remote" _) eqn:Hrem; simpl.
      * apply contains_spec in Hrem. split; [intros _; by split; [|right] | done].
      * apply contains_false in Hrem. split; [done|].
        intros [_ [H | H]]; [by destruct (H db) | done].
    + rewrite none_contains in Hdb. split; [intros _; by split; [|left] | done].
Qed.

(** *** The deduplication loop *)

Lemma flatten_cons (r : outcome (list job)) (rs : list (outcome (list job))) :
  flatten (r :: rs)
  = match r with Returned jobs => jobs | Raised _ => [] end ++ flatten rs.
Proof. reflexivity. Qed.


(** The two nested loops visit the flattened sequence. *)
Lemma visit_results_flatten (keep : job → bool) (rs : list (outcome (list job)))
    (st : gset string * list candidate) :
  foldl (visit_result keep) st rs = foldl (visit keep) st (flatten rs).
Proof.
  revert st. induction rs as [|r rs IH]; intros st; [done|].
  rewrite flatten_cons, foldl_app. simpl. rewrite IH. by destruct r.
Qed.

(** What the inner loop leaves in [seen] and in [candidates]. *)
Lemma visit_loop (keep : job → bool) (jobs : list job)
    (seen : gset string) (cands : list candidate) :
  foldl (visit keep) (seen, cands) jobs
  = (ids_of jobs ∪ seen, cands ++ (candidate_of <$> filter keep (fresh seen jobs))).
Proof.
  clear lower google_jobs claude.
  revert seen cands. induction jobs as [|j jobs IH]; intros seen cands.
  - simpl. f_equal; [unfold ids_of; set_solver | by rewrite app_nil_r].
  - cbn [foldl fresh]. unfold visit at 2. fold (job_id j).
    case_bool_decide as Hseen.
    + rewrite IH. f_equal. unfold ids_of. rewrite fmap_cons. set_solver.
    + assert (ids_of (j :: jobs) ∪ seen = ids_of jobs ∪ ({[job_id j]} ∪ seen)) as ->.
      { unfold ids_of. rewrite fmap_cons. set_solver. }
      rewrite filter_cons. destruct (keep j) eqn:Hkeep.
      * rewrite IH. simpl. by rewrite <- app_assoc.
      * rewrite IH. done.
Qed.

Lemma dedup_loop_flatten (keep : job → bool) (rs : list (outcome (list job))) :
  dedup_loop keep rs
  = (ids_of (flatten rs), candidate_of <$> filter keep (fresh ∅ (flatten rs))).
Proof.
  clear lower google_jobs claude.
  unfold dedup_loop. rewrite visit_results_flatten, visit_loop.
  f_equal. set_solver.
Qed.

Lemma deduplicate_fresh (jobs : list job) :
  deduplicate jobs = candidate_of <$> fresh ∅ jobs.
Proof.
  unfold deduplicate. rewrite visit_loop. simpl.
  f_equal. clear. induction (fresh ∅ jobs) as [|j l IH]; [done|].
  by rewrite filter_cons_True, IH.
Qed.

Lemma surviving_filter (excl deal : gset string) (rs : list (outcome (list job))) :
  surviving excl deal rs
  = candidate_of <$> filter (λ j, _prefilter j excl deal) (fresh ∅ (flatten rs)).
Proof. unfold surviving. by rewrite dedup_loop_flatten. Qed.

Lemma fresh_sublist (seen : gset string) (jobs : list job) :
  fresh seen jobs `sublist_of` jobs.
Proof.
  revert seen. induction jobs as [|j jobs IH]; intros seen; simpl; [done|].
  case_bool_decide; [by apply sublist_cons | by apply sublist_skip].
Qed.

Lemma fresh_unseen (seen : gset string) (jobs : list job) (j : job) :
  j ∈ fresh seen jobs → job_id j ∉ seen.
Proof.
  clear lower google_jobs claude.
  revert seen. induction jobs as [|j' jobs IH]; intros seen; simpl.
  - by intros ?%elem_of_nil.
  - case_bool_decide as Hseen; [apply IH|].
    intros [->|Hin]%elem_of_cons; [done|].
    apply IH in Hin. set_solver.
Qed.

Lemma fresh_ids_NoDup (seen : gset string) (jobs : list job) :
  NoDup (job_id <$> fresh seen jobs).
Proof.
  clear lower google_jobs claude.
  revert seen. induction jobs as [|j jobs IH]; intros seen; simpl.
  - constructor.
  - case_bool_decide as Hseen; [apply IH|].
    rewrite fmap_cons. constructor; [|apply IH].
    intros (j' & Hid & Hin)%list_elem_of_fmap.
    apply fresh_unseen in Hin. set_solver.
Qed.

Lemma fresh_app (seen : gset string) (l1 l2 : list job) :
  fresh seen (l1 ++ l2) = fresh seen l1 ++ fresh (ids_of l1 ∪ seen) l2.
Proof.
  clear lower google_jobs claude.
  revert seen. induction l1 as [|j l1 IH]; intros seen; simpl.
  - f_equal. unfold ids_of. set_solver.
  - assert (ids_of (j :: l1) ∪ seen = ids_of l1 ∪ ({[job_id j]} ∪ seen)) as Hset.
    { unfold ids_of. rewrite fmap_cons. set_solver. }
    case_bool_decide as Hseen.
    + rewrite IH. do 2 f_equal. unfold ids_of. rewrite fmap_cons. set_solver.
    + rewrite IH, Hset. done.
Qed.

Lemma elem_of_ids_of (jobs : list job) (id : string) :
  id ∈ ids_of jobs ↔ id ∈ job_id <$> jobs.
Proof. unfold ids_of. by rewrite elem_of_list_to_set. Qed.

(** A listing whose [external_id] an earlier one already has leaves no
    trace: the loop behaves as if it were not there. *)
Lemma fresh_drop_repeat (seen : gset string) (l1 l2 : list job) (j : job) :
  job_id j ∈ ids_of l1 ∪ seen →
  fresh seen (l1 ++ j :: l2) = fresh seen (l1 ++ l2).
Proof.
  intros Hin. rewrite !fresh_app. f_equal. simpl.
  rewrite bool_decide_eq_true_2; done.
Qed.

(** The first listing with its [external_id] is kept. *)
Lemma fresh_keep_first (seen : gset string) (l1 l2 : list job) (j : job) :
  job_id j ∉ ids_of l1 ∪ seen →
  fresh seen (l1 ++ j :: l2)
  = fresh seen l1 ++ j :: fresh ({[job_id j]} ∪ (ids_of l1 ∪ seen)) l2.
Proof.
  intros Hin. rewrite fresh_app. f_equal. simpl.
  rewrite bool_decide_eq_false_2; done.
Qed.

Lemma candidate_ids (jobs : list job) :
  cand_id <$> (candidate_of <$> jobs) = job_id <$> jobs.
Proof. by rewrite <- list_fmap_compose. Qed.

Lemma candidate_jobs (jobs : list job) :
  cand_job <$> (candidate_of <$> jobs) = jobs.
Proof. rewrite <- list_fmap_compose. apply list_fmap_id. Qed.

Lemma candidate_filter (keep : job → bool) (jobs : list job) :
  candidate_of <$> filter keep jobs
  = filter (λ c, keep (cand_job c)) (candidate_of <$> jobs).
Proof.
  induction jobs as [|j jobs IH]; [done|].
  rewrite fmap_cons. destruct (keep j) eqn:Hkeep.
  - rewrite !filter_cons_True by (simpl; by rewrite Hkeep).
    by rewrite fmap_cons, IH.
  - rewrite !filter_cons_False by (simpl; rewrite Hkeep; tauto). done.
Qed.

(** C2.  On every sequence of listings the deduplicator keeps pairwise
    distinct [external_id]s; what it keeps is a subsequence of its input;
    the first listing with a given [external_id] is kept, every later one
    with that [external_id] is dropped and changes nothing; and the
    candidates of the loop of [run_discovery] are the kept listings that
    pass the test of line 178. *)
Theorem deduplicate_first_occurrence (jobs : list job) :
  NoDup (cand_id <$> deduplicate jobs)
  ∧ cand_job <$> deduplicate jobs `sublist_of` jobs
  ∧ (∀ c, c ∈ deduplicate jobs → c = candidate_of (cand_job c))
  ∧ (∀ before j after,
       jobs = before ++ j :: after →
       job_id j ∉ job_id <$> before →
       ∃ rest, deduplicate jobs = deduplicate before ++ candidate_of j :: rest
               ∧ cand_job <$> rest `sublist_of` after)
  ∧ (∀ before j after,
       jobs = before ++ j :: after →
       job_id j ∈ job_id <$> before →
       deduplicate jobs = deduplicate (before ++ after))
  ∧ (∀ keep search_results,
       flatten search_results = jobs →
       (dedup_loop keep search_results).2
       = filter (λ c, keep (cand_job c)) (deduplicate jobs)).
Proof.
  clear lower google_jobs claude.
  rewrite !deduplicate_fresh. repeat split.
  - rewrite candidate_ids. apply fresh_ids_NoDup.
  - rewrite candidate_jobs. apply fresh_sublist.
  - by intros c (j & -> & _)%list_elem_of_fmap.
  - intros before j after -> Hfirst.
    rewrite deduplicate_fresh, fresh_keep_first.
    + eexists. rewrite fmap_app, fmap_cons. split; [done|].
      rewrite candidate_jobs. apply fresh_sublist.
    + rewrite elem_of_union, elem_of_ids_of. set_solver.
  - intros before j after -> Hrepeat.
    rewrite deduplicate_fresh, fresh_drop_repeat; [done|].
    rewrite elem_of_union, elem_of_ids_of. by left.
  - intros keep rs <-. rewrite dedup_loop_flatten. simpl.
    apply candidate_filter.
Qed.

(** *** The final sort *)

Section SortFacts.
Context {A : Type} (key : A → Qc).

Lemma insert_desc_perm (x : A) (l : list A) : insert_desc key x l ≡ₚ x :: l.
Proof.
  induction l as [|y l IH]; simpl; [done|].
  case_bool_decide; [|done].
  rewrite IH. apply Permutation_swap.
Qed.

Lemma sort_reverse_perm (l : list A) : sort_reverse key l ≡ₚ l.
Proof.
  induction l as [|x l IH]; simpl; [done|].
  fold (sort_reverse key l). by rewrite insert_desc_perm, IH.
Qed.

Lemma insert_desc_sorted (x : A) (l : list A) :
  StronglySorted (descending key) l → StronglySorted (descending key) (insert_desc key x l).
Proof.
  induction 1 as [|y l Hsorted IH Hall]; simpl.
  - by repeat constructor.
  - case_bool_decide as Hlt.
    + constructor; [done|].
      rewrite insert_desc_perm. constructor; [|done].
      by apply Qclt_le_weak.
    + apply Qcnot_lt_le in Hlt.
      constructor; [by constructor|].
      constructor; [done|].
      eapply Forall_impl; [exact Hall|].
      intros z Hz. unfold descending in *. by eapply Qcle_trans.
Qed.

Lemma sort_reverse_sorted (l : list A) :
  StronglySorted (descending key) (sort_reverse key l).
Proof.
  induction l as [|x l IH]; simpl; [constructor|].
  by apply insert_desc_sorted.
Qed.

(** Inserting an element does not move it past an element with its key. *)
Lemma insert_desc_stable (s : Qc) (x : A) (l : list A) :
  filter (λ a, key a = s) (insert_desc key x l) = filter (λ a, key a = s) (x :: l).
Proof.
  induction l as [|y l IH]; simpl; [done|].
  case_bool_decide as Hlt; [|done].
  rewrite filter_cons, IH, !filter_cons.
  destruct (decide (key x = s)) as [Hx|Hx], (decide (key y = s)) as [Hy|Hy];
    try done.
  apply Qclt_not_eq in Hlt. congruence.
Qed.

(** Stability: elements with the same key leave the sort in the order they
    entered it. *)
Lemma sort_reverse_stable (s : Qc) (l : list A) :
  filter (λ a, key a = s) (sort_reverse key l) = filter (λ a, key a = s) l.
Proof.
  induction l as [|x l IH]; simpl; [done|].
  fold (sort_reverse key l).
  by rewrite insert_desc_stable, !filter_cons, IH.
Qed.

(** A list sorted by descending key is determined by the order of its
    elements within each key: the sort below is the only list that any
    stable descending sort of [l] can produce. *)
Lemma sorted_stable_unique (l1 l2 : list A) :
  StronglySorted (descending key) l1 →
  StronglySorted (descending key) l2 →
  (∀ s, filter (λ a, key a = s) l1 = filter (λ a, key a = s) l2) →
  l1 = l2.
Proof.
  intros Hs1. revert l2.
  induction Hs1 as [|x l1 Hs1 IH Hx]; intros l2 Hs2 Hsame.
  - destruct l2 as [|y l2]; [done|].
    specialize (Hsame (key y)). by rewrite filter_cons_True in Hsame.
  - destruct Hs2 as [|y l2 Hs2 Hy].
    { specialize (Hsame (key x)). by rewrite filter_cons_True in Hsame. }
    assert (key x = key y) as Hkey.
    { apply Qcle_antisym.
      - assert (x ∈ y :: l2) as [->|Hin]%elem_of_cons.
        { eapply (list_elem_of_filter (λ a, key a = key x)).
          rewrite <- Hsame, filter_cons_True by done. apply list_elem_of_here. }
        + apply Qcle_refl.
        + by apply (proj1 (Forall_forall _ _) Hy).
      - assert (y ∈ x :: l1) as [->|Hin]%elem_of_cons.
        { eapply (list_elem_of_filter (λ a, key a = key y)).
          rewrite Hsame, filter_cons_True by done. apply list_elem_of_here. }
        + apply Qcle_refl.
        + by apply (proj1 (Forall_forall _ _) Hx). }
    pose proof (Hsame (key x)) as Hhead.
    rewrite !filter_cons_True in Hhead by done. injection Hhead as -> Htail.
    f_equal. apply IH; [done|]. intros s. specialize (Hsame s).
    rewrite !filter_cons in Hsame. destruct (decide (key y = s)); congruence.
Qed.

Lemma sort_reverse_unique (l l' : list A) :
  StronglySorted (descending key) l' →
  (∀ s, filter (λ a, key a = s) l' = filter (λ a, key a = s) l) →
  l' = sort_reverse key l.
Proof.
  intros Hsorted Hstable.
  apply sorted_stable_unique; [done | apply sort_reverse_sorted |].
  intros s. by rewrite sort_reverse_stable.
Qed.

End SortFacts.

(** Positions in a subsequence keep their order in the sequence. *)
Lemma sublist_lookup {A} (l1 l2 : list A) (i : nat) (a : A) :
  l1 `sublist_of` l2 → l1 !! i = Some a → ∃ i', l2 !! i' = Some a.
Proof.
  intros Hsub Hi. apply list_elem_of_lookup.
  eapply elem_of_sublist; [|exact Hsub]. by eapply list_elem_of_lookup_2.
Qed.

Lemma sublist_lookup_order {A} (l1 l2 : list A) (i j : nat) (a b : A) :
  l1 `sublist_of` l2 → i < j → l1 !! i = Some a → l1 !! j = Some b →
  ∃ i' j', i' < j' ∧ l2 !! i' = Some a ∧ l2 !! j' = Some b.
Proof.
  intros Hsub. revert i j.
  induction Hsub as [|x l1 l2 Hsub IH|x l1 l2 Hsub IH]; intros i j Hij Hi Hj.
  - done.
  - destruct j as [|j]; [lia|]. destruct i as [|i]; simpl in *.
    + destruct (sublist_lookup l1 l2 j b Hsub Hj) as [j' Hj'].
      exists 0, (S j'). split; [lia|by split].
    + destruct (IH i j ltac:(lia) Hi Hj) as (i' & j' & ? & ? & ?).
      exists (S i'), (S j'). split; [lia|by split].
  - destruct (IH i j Hij Hi Hj) as (i' & j' & ? & ? & ?).
    exists (S i'), (S j'). split; [lia|by split].
Qed.

Lemma filter_lookup {A} (P : A → Prop) `{!∀ x, Decision (P x)}
    (l : list A) (i : nat) (a : A) :
  l !! i = Some a → P a → ∃ i', filter P l !! i' = Some a.
Proof.
  intros Hi Ha. apply list_elem_of_lookup, list_elem_of_filter.
  split; [done|]. by eapply list_elem_of_lookup_2.
Qed.

Lemma filter_lookup_order {A} (P : A → Prop) `{!∀ x, Decision (P x)}
    (l : list A) (i j : nat) (a b : A) :
  i < j → l !! i = Some a → l !! j = Some b → P a → P b →
  ∃ i' j', i' < j' ∧ filter P l !! i' = Some a ∧ filter P l !! j' = Some b.
Proof.
  revert i j. induction l as [|x l IH]; intros i j Hij Hi Hj Ha Hb; [done|].
  destruct j as [|j]; [lia|]. destruct i as [|i]; simpl in *.
  - injection Hi as ->. rewrite filter_cons_True by done.
    destruct (filter_lookup P l j b Hj Hb) as [j' Hj'].
    exists 0, (S j'). split; [lia|by split].
  - destruct (IH i j ltac:(lia) Hi Hj Ha Hb) as (i' & j' & ? & ? & ?).
    rewrite filter_cons. case_decide.
    + exists (S i'), (S j'). split; [lia|by split].
    + by exists i', j'.
Qed.

(** *** Scoring and the loop over the gathered results *)

Lemma score_job_outcome (p : preferences) (j : job) :
  score_job j p
  = match _scoring_context p with
    | Raised e => ([], Raised e)
    | Returned ctx => ([OracleCall ctx j], claude ctx j)
    end.
Proof. reflexivity. Qed.

(** A task hands back the tuple it was started with. *)
Lemma _score_returned (p : preferences) (c c' : candidate) (score_data : json) :
  (_score p c).2 = Returned (c', score_data) →
  c' = c ∧ (score_job (cand_job c) p).2 = Returned score_data.
Proof.
  unfold _score. destruct (score_job (cand_job c) p) as [calls [sd|e]]; simpl.
  - by intros [= <- <-].
  - done.
Qed.

Lemma _score_calls (p : preferences) (c : candidate) :
  (_score p c).1
  = match _scoring_context p with
    | Raised _ => []
    | Returned ctx => [OracleCall ctx (cand_job c)]
    end.
Proof.
  unfold _score. rewrite score_job_outcome.
  by destruct (_scoring_context p).
Qed.

(** What an entry of the output says about the result it was built from. *)
Lemma surface_some (m : Qc) (c : candidate) (score_data : json) (o : scored_job) :
  surface m (Returned (c, score_data)) = Returned (Some o) →
  origin o = c
  ∧ (m ≤ sj_score o)%Qc
  ∧ getitem score_data "overall_score" ≫= as_number = Returned (sj_score o)
  ∧ getitem score_data "breakdown" = Returned (sj_score_breakdown o).
Proof.
  destruct c as [[external_id url] j]. simpl.
  destruct (getitem score_data "overall_score") as [overall|]; simpl; [|done].
  destruct (as_number overall) as [s|]; simpl; [|done].
  case_bool_decide as Hge; [|done].
  destruct (getitem score_data "breakdown") as [breakdown|]; simpl; [|done].
  by intros [= <-].
Qed.

(** A result below the threshold adds nothing; one at or above it adds an
    entry or makes the loop raise. *)
Lemma surface_none (m : Qc) (c : candidate) (score_data : json) (s : Qc) :
  surface m (Returned (c, score_data)) = Returned None →
  getitem score_data "overall_score" ≫= as_number = Returned s →
  (s < m)%Qc.
Proof.
  destruct c as [[external_id url] j]. simpl.
  destruct (getitem score_data "overall_score") as [overall|]; simpl; [|done].
  destruct (as_number overall) as [s'|]; simpl; [|done].
  case_bool_decide as Hge.
  - by destruct (getitem score_data "breakdown").
  - intros _ [= <-]. by apply Qcnot_le_lt.
Qed.

Lemma omap_id_cons {A} (o : option A) (l : list (option A)) :
  omap id (o :: l) = option_list o ++ omap id l.
Proof. by destruct o. Qed.

(** The loop returns exactly when every iteration does, with what the
    iterations add, in their order. *)
Lemma collect_returned (m : Qc) (scored : list (outcome (candidate * json)))
    (acc all_jobs : list scored_job) :
  collect m scored acc = Returned all_jobs ↔
  ∃ added, Forall2 (λ r o, surface m r = Returned o) scored added
           ∧ all_jobs = acc ++ omap id added.
Proof.
  revert acc. induction scored as [|r scored IH]; intros acc; simpl.
  - split.
    + intros [= <-]. exists []. split; [constructor | by rewrite app_nil_r].
    + intros (added & ->%Forall2_nil_inv_l & ->). by rewrite app_nil_r.
  - destruct (surface m r) as [o|e] eqn:Hr; simpl.
    + rewrite IH. split.
      * intros (added & Hall & ->). exists (o :: added).
        split; [by constructor|]. by rewrite omap_id_cons, app_assoc.
      * intros (added & Hall & ->).
        apply Forall2_cons_inv_l in Hall as (o' & added' & Ho' & Hall & ->).
        assert (o' = o) as -> by congruence.
        exists added'. split; [done|]. by rewrite omap_id_cons, app_assoc.
    + split; [done|].
      intros (added & Hall & _).
      apply Forall2_cons_inv_l in Hall as (o' & added' & Ho' & _). congruence.
Qed.

(** One iteration that raises makes the whole loop raise. *)
Lemma collect_raised (m : Qc) (scored : list (outcome (candidate * json)))
    (acc : list scored_job) (r : outcome (candidate * json)) (e : exn) :
  r ∈ scored → surface m r = Raised e → ∃ e', collect m scored acc = Raised e'.
Proof.
  intros Hin Hr. destruct (collect m scored acc) as [all_jobs|e'] eqn:Hc; [|eauto].
  apply collect_returned in Hc as (added & Hall & _).
  apply list_elem_of_lookup_1 in Hin as [i Hi].
  destruct (Forall2_lookup_l _ _ _ _ _ Hall Hi) as (o & _ & Ho).
  congruence.
Qed.

(** A result that is an exception is skipped. *)
Lemma collect_skips_exception (m : Qc) (l1 l2 : list (outcome (candidate * json)))
    (e : exn) (acc : list scored_job) :
  collect m (l1 ++ Raised e :: l2) acc = collect m (l1 ++ l2) acc.
Proof.
  revert acc. induction l1 as [|r l1 IH]; intros acc; simpl.
  - by rewrite app_nil_r.
  - destruct (surface m r); simpl; [apply IH | done].
Qed.

Lemma scoring_calls (p : preferences) (cands : list candidate) :
  concat (fst <$> (_score p <$> cands))
  = match _scoring_context p with
    | Raised _ => []
    | Returned ctx => (λ c, OracleCall ctx (cand_job c)) <$> cands
    end.
Proof.
  induction cands as [|c cands IH].
  - by destruct (_scoring_context p).
  - rewrite !fmap_cons. cbn [concat]. rewrite IH, _score_calls.
    by destruct (_scoring_context p).
Qed.

Lemma rank_results_calls (p : preferences) (excl deal : gset string) (m : Qc)
    (rs : list (outcome (list job))) :
  (rank_results p excl deal m rs).1
  = match _scoring_context p with
    | Raised _ => []
    | Returned ctx => (λ c, OracleCall ctx (cand_job c)) <$> surviving excl deal rs
    end.
Proof. apply scoring_calls. Qed.

Lemma rank_results_returned (p : preferences) (excl deal : gset string) (m : Qc)
    (rs : list (outcome (list job))) (out : list scored_job) :
  (rank_results p excl deal m rs).2 = Returned out ↔
  ∃ added,
    Forall2 (λ c o, surface m (_score p c).2 = Returned o)
            (surviving excl deal rs) added
    ∧ out = sort_reverse sj_score (omap id added).
Proof.
  unfold rank_results. simpl.
  destruct (collect m _ []) as [all_jobs|e] eqn:Hc; simpl.
  - apply collect_returned in Hc as (added & Hall & ->). simpl.
    rewrite <- list_fmap_compose, Forall2_fmap_l in Hall. split.
    + intros [= <-]. by exists added.
    + intros (added' & Hall' & ->). do 3 f_equal.
      clear -Hall Hall'. revert added' Hall'.
      induction Hall as [|c o cands added Ho _ IH]; intros added' Hall'.
      * by apply Forall2_nil_inv_l in Hall' as ->.
      * apply Forall2_cons_inv_l in Hall' as (o' & added'' & Ho' & Hall' & ->).
        f_equal; [unfold compose in Ho; congruence | by apply IH].
  - split; [done|]. intros (added & Hall & _).
    assert (collect m (snd <$> (_score p <$> surviving excl deal rs)) []
            = Returned ([] ++ omap id added)) as Hc'; [|congruence].
    apply collect_returned. exists added. split; [|done].
    by rewrite <- list_fmap_compose, Forall2_fmap_l.
Qed.

(** *** The semaphore *)

Lemma in_flight_cons (t : task) (ts : list task) :
  length (filter is_scoring (t :: ts))
  = scoring_weight t + length (filter is_scoring ts).
Proof.
  unfold scoring_weight. rewrite filter_cons.
  destruct (is_scoring t); simpl; done.
Qed.

(** Replacing one task changes the count by the difference of the two. *)
Lemma in_flight_insert (ts : list task) (i : nat) (t t' : task) :
  ts !! i = Some t →
  length (filter is_scoring (<[i:=t']> ts)) + scoring_weight t
  = length (filter is_scoring ts) + scoring_weight t'.
Proof.
  revert i. induction ts as [|t0 ts IH]; intros i Hi; [done|].
  destruct i as [|i]; simpl in Hi.
  - injection Hi as ->. change (<[0:=t']> (t :: ts)) with (t' :: ts).
    rewrite !in_flight_cons. lia.
  - change (<[S i:=t']> (t0 :: ts)) with (t0 :: <[i:=t']> ts).
    rewrite !in_flight_cons. specialize (IH i Hi). lia.
Qed.

Lemma in_flight_start (cands : list candidate) : in_flight (start cands) = 0.
Proof.
  unfold in_flight, start. simpl.
  induction (length cands) as [|n IH]; [done|].
  cbn [replicate]. by rewrite in_flight_cons, IH.
Qed.

Lemma pool_ok_start (p : preferences) (cands : list candidate) :
  pool_ok p cands (start cands).
Proof.
  split; [by rewrite in_flight_start|]. split.
  - apply length_replicate.
  - intros i r Hi. by apply lookup_replicate_1 in Hi as [? _].
Qed.

Lemma pool_ok_fire (p : preferences) (cands : list candidate)
    (s s' : pool) (m : move) :
  pool_ok p cands s → fire p cands s m = Some s' → pool_ok p cands s'.
Proof.
  intros (Hperm & Hlen & Hdone) Hfire. destruct m as [i|i]; simpl in Hfire.
  - destruct (tasks s !! i) as [[| |]|] eqn:Hi; try done.
    case_decide as Hfree; [|done]. injection Hfire as <-.
    unfold pool_ok, in_flight in *. simpl. split; [|split].
    + pose proof (in_flight_insert _ _ _ Scoring Hi) as Hc.
      unfold scoring_weight in Hc. simpl in Hc. lia.
    + by rewrite length_insert.
    + intros k r Hk. apply list_lookup_insert_Some in Hk as [(_ & ? & _)|[_ Hk]];
        [done | by apply Hdone].
  - destruct (tasks s !! i) as [[| |]|] eqn:Hi; try done.
    destruct (cands !! i) as [c|] eqn:Hc; [|done]. injection Hfire as <-.
    unfold pool_ok, in_flight in *. simpl. split; [|split].
    + pose proof (in_flight_insert _ _ _ (Done (_score p c).2) Hi) as Hn.
      unfold scoring_weight in Hn. simpl in Hn. lia.
    + by rewrite length_insert.
    + intros k r Hk. apply list_lookup_insert_Some in Hk as [(<- & [= <-] & _)|[_ Hk]];
        [by exists c | by apply Hdone].
Qed.

Lemma pool_ok_play (p : preferences) (cands : list candidate)
    (schedule : list move) (s s' : pool) :
  pool_ok p cands s → play p cands s schedule = Some s' → pool_ok p cands s'.
Proof.
  revert s. induction schedule as [|m schedule IH]; intros s Hok; simpl.
  - by intros [= <-].
  - destruct (fire p cands s m) as [s1|] eqn:Hfire; [|done]. simpl.
    apply IH. by eapply pool_ok_fire.
Qed.

(** Whatever the schedule, [gather] hands back the outcomes in the order of
    the candidates. *)
Lemma gathered_in_order (p : preferences) (cands : list candidate)
    (schedule : list move) (s : pool) (results : list (outcome (candidate * json))) :
  play p cands (start cands) schedule = Some s →
  gathered s = Some results →
  results = snd ∘ _score p <$> cands.
Proof.
  intros Hplay Hg.
  destruct (pool_ok_play p cands schedule _ _ (pool_ok_start p cands) Hplay)
    as (_ & Hlen & Hdone).
  apply mapM_Some in Hg.
  apply list_eq_same_length with (length cands).
  - by rewrite length_fmap.
  - by rewrite <- (Forall2_length _ _ _ Hg).
  - intros i r r' _ Hr Hr'.
    destruct (Forall2_lookup_r _ _ _ _ _ Hg Hr) as (t & Ht & Htr).
    destruct t as [| |r0]; try done. injection Htr as ->.
    destruct (Hdone _ _ Ht) as (c & Hc & ->).
    rewrite list_lookup_fmap, Hc in Hr'. by injection Hr' as <-.
Qed.

(** C9.  Whatever the number of candidates and whatever the order in which
    the event loop runs the scoring tasks, at most 5 of them are inside
    [async with semaphore] at any moment, so at most 5 requests to the
    model are in flight; the tasks inside and the free permits always add
    up to 5, and with 5 tasks inside no further task can enter. *)
Theorem semaphore_ceiling (p : preferences) (cands : list candidate)
    (schedule : list move) (s : pool) :
  play p cands (start cands) schedule = Some s →
  in_flight s ≤ 5
  ∧ in_flight s + permits s = 5
  ∧ (in_flight s = 5 → ∀ i, fire p cands s (Acquire i) = None).
Proof.
  intros Hplay.
  destruct (pool_ok_play p cands schedule _ _ (pool_ok_start p cands) Hplay)
    as (Hperm & _ & _).
  split; [lia|]. split; [done|].
  intros Hfull i. simpl. destruct (tasks s !! i) as [[| |]|]; try done.
  case_decide; [lia | done].
Qed.

Lemma fire_acquire (p : preferences) (cands : list candidate) (s : pool) (i : nat) :
  tasks s !! i = Some Waiting → 0 < permits s →
  fire p cands s (Acquire i)
  = Some {| permits := permits s - 1; tasks := <[i:=Scoring]> (tasks s) |}.
Proof. intros Hi Hfree. simpl. rewrite Hi. by rewrite decide_True. Qed.

Lemma fire_release (p : preferences) (cands : list candidate) (s : pool)
    (i : nat) (c : candidate) :
  tasks s !! i = Some Scoring → cands !! i = Some c →
  fire p cands s (Release i)
  = Some {| permits := permits s + 1;
            tasks := <[i:=Done (_score p c).2]> (tasks s) |}.
Proof. intros Hi Hc. simpl. by rewrite Hi, Hc. Qed.

Lemma insert_middle {A} (l1 l2 : list A) (x y : A) :
  <[length l1:=y]> (l1 ++ x :: l2) = l1 ++ y :: l2.
Proof. rewrite insert_app_r_alt by lia. by rewrite Nat.sub_diag. Qed.

(** Running the tasks one after the other is a schedule, and it finishes
    every task: [gather] does return. *)
Lemma play_one_by_one (p : preferences) (finished todo : list candidate) :
  play p (finished ++ todo)
    {| permits := 5;
       tasks := (Done ∘ snd ∘ _score p <$> finished)
                ++ replicate (length todo) Waiting |}
    (seq (length finished) (length todo) ≫= λ i, [Acquire i; Release i])
  = Some {| permits := 5; tasks := Done ∘ snd ∘ _score p <$> finished ++ todo |}.
Proof.
  revert finished. induction todo as [|c todo IH]; intros finished.
  - simpl. by rewrite !app_nil_r.
  - cbn [length seq replicate]. rewrite bind_cons.
    assert (length (Done ∘ snd ∘ _score p <$> finished) = length finished) as Hlen
      by apply length_fmap.
    cbn [app play].
    erewrite fire_acquire; [|by apply list_lookup_middle | simpl; lia].
    cbn [mbind option_bind tasks permits]. rewrite <- Hlen at 1.
    rewrite insert_middle.
    erewrite fire_release;
      [|by apply list_lookup_middle | by apply list_lookup_middle].
    cbn [mbind option_bind tasks permits]. rewrite <- Hlen at 1.
    rewrite insert_middle.
    specialize (IH (finished ++ [c])).
    rewrite length_app, Nat.add_1_r, fmap_app, <- !app_assoc in IH.
    exact IH.
Qed.

Lemma scoring_completes (p : preferences) (cands : list candidate) :
  ∃ s, play p cands (start cands) (one_by_one (length cands)) = Some s
       ∧ gathered s = Some (snd ∘ _score p <$> cands).
Proof.
  eexists. split.
  - apply (play_one_by_one p [] cands).
  - unfold gathered. simpl. apply mapM_Some.
    induction cands as [|c cands IH]; constructor; done.
Qed.

(** *** The whole run *)

Lemma read_settings_returned (p : preferences) (excl deal : gset string)
    (m : Qc) (queries : list string) :
  read_settings p = Returned (excl, deal, m, queries) ↔
  ∃ kws dbs,
    (discovery p ≫= exclude_keywords) = Some kws
    ∧ (location p ≫= dealbreakers) = Some dbs
    ∧ (scoring p ≫= minimum_score_to_surface) = Some m
    ∧ search_queries p = Some queries
    ∧ excl = list_to_set (lower <$> kws)
    ∧ deal = list_to_set (lower <$> dbs).
Proof.
  unfold read_settings.
  destruct (discovery p) as [[[kws|]]|], (location p) as [[req [dbs|]]|],
    (scoring p) as [[ws [m'|]]|], (search_queries p) as [queries'|];
    simpl; (split; [intros [= <- <- <- <-] | intros (? & ? & H)]);
    try done; try (by destruct H as (? & ? & ? & ? & ?)).
  - by eexists _, _.
  - destruct H as ([= <-] & [= <-] & [= <-] & [= <-] & -> & ->). done.
Qed.



Lemma run_discovery_started (p : preferences) (excl deal : gset string)
    (m : Qc) (queries : list string) :
  read_settings p = Returned (excl, deal, m, queries) →
  run_discovery p
  = ((SearchCall <$> queries)
       ++ (rank_results p excl deal m (imap search_jobs queries)).1,
     (rank_results p excl deal m (imap search_jobs queries)).2).
Proof.
  intros Hs. unfold run_discovery. rewrite Hs.
  by destruct (rank_results p excl deal m (imap search_jobs queries)).
Qed.

Lemma run_discovery_config_error (p : preferences) (e : exn) :
  read_settings p = Raised e → run_discovery p = ([], Raised e).
Proof. intros Hs. unfold run_discovery. by rewrite Hs. Qed.

(** The entries of the output are what the loop builds from the candidates
    whose task returned a well-formed score at or above the threshold. *)
Lemma output_entries (p : preferences) (excl deal : gset string) (m : Qc)
    (rs : list (outcome (list job))) (out : list scored_job) (o : scored_job) :
  (rank_results p excl deal m rs).2 = Returned out →
  o ∈ out ↔
  ∃ c, c ∈ surviving excl deal rs ∧ surface m (_score p c).2 = Returned (Some o).
Proof.
  intros (added & Hall & ->)%rank_results_returned.
  rewrite sort_reverse_perm, list_elem_of_omap. split.
  - intros (oo & Hin & Hoo). simpl in Hoo. subst oo.
    apply list_elem_of_lookup_1 in Hin as [i Hi].
    destruct (Forall2_lookup_r _ _ _ _ _ Hall Hi) as (c & Hc & Hsurf).
    exists c. split; [by eapply list_elem_of_lookup_2 | done].
  - intros (c & Hin & Hsurf).
    apply list_elem_of_lookup_1 in Hin as [i Hi].
    destruct (Forall2_lookup_l _ _ _ _ _ Hall Hi) as (oo & Hoo & Hsurf').
    exists (Some o). split; [|done].
    apply list_elem_of_lookup_2 with i. congruence.
Qed.

(** An entry comes from a task that returned. *)
Lemma surface_score_some (p : preferences) (m : Qc) (c : candidate) (o : scored_job) :
  surface m (_score p c).2 = Returned (Some o) →
  ∃ score_data,
    (_score p c).2 = Returned (c, score_data)
    ∧ origin o = c
    ∧ (m ≤ sj_score o)%Qc
    ∧ getitem score_data "overall_score" ≫= as_number = Returned (sj_score o).
Proof.
  destruct (_score p c).2 as [[c' score_data]|e] eqn:Hscore; [|done].
  apply _score_returned in Hscore as Hc. destruct Hc as [-> _].
  intros (Ho & Hm & Hs & _)%surface_some. by exists score_data.
Qed.

(** The entries appear in the order of their candidates. *)
Lemma added_in_order (p : preferences) (m : Qc) (cands : list candidate)
    (added : list (option scored_job)) :
  Forall2 (λ c o, surface m (_score p c).2 = Returned o) cands added →
  origin <$> omap id added `sublist_of` cands.
Proof.
  induction 1 as [|c o cands added Ho _ IH]; [done|].
  destruct o as [o|]; simpl.
  - apply surface_score_some in Ho as (_ & _ & -> & _). by apply sublist_skip.
  - by apply sublist_cons.
Qed.

Lemma surviving_ids_NoDup (excl deal : gset string) (rs : list (outcome (list job))) :
  NoDup (cand_id <$> surviving excl deal rs).
Proof.
  rewrite surviving_filter, candidate_ids.
  apply (sublist_NoDup _ (job_id <$> fresh ∅ (flatten rs))).
  - apply fresh_ids_NoDup.
  - apply fmap_sublist, sublist_filter.
Qed.

Lemma surviving_passed (excl deal : gset string) (rs : list (outcome (list job)))
    (c : candidate) :
  c ∈ surviving excl deal rs →
  c = candidate_of (cand_job c)
  ∧ cand_job c ∈ flatten rs
  ∧ _prefilter (cand_job c) excl deal = true.
Proof.
  rewrite surviving_filter.
  intros (j & -> & [Hkeep Hin]%list_elem_of_filter)%list_elem_of_fmap.
  repeat split.
  - eapply elem_of_sublist; [exact Hin | apply fresh_sublist].
  - simpl. by destruct (_prefilter j excl deal).
Qed.

(** C7.  When [run_discovery] returns a list, every entry has a score at or
    above [minimum_score_to_surface], and every candidate whose task
    returned a score at or above it has its entry in the list, with that
    score. *)
Theorem threshold_filter (p : preferences) (excl deal : gset string) (m : Qc)
    (queries : list string) (calls : list call) (out : list scored_job) :
  read_settings p = Returned (excl, deal, m, queries) →
  run_discovery p = (calls, Returned out) →
  (scoring p ≫= minimum_score_to_surface) = Some m
  ∧ (∀ o, o ∈ out → (m ≤ sj_score o)%Qc)
  ∧ (∀ c score_data s,
       c ∈ surviving excl deal (imap search_jobs queries) →
       (_score p c).2 = Returned (c, score_data) →
       getitem score_data "overall_score" ≫= as_number = Returned s →
       (m ≤ s)%Qc →
       ∃ o, o ∈ out ∧ origin o = c ∧ sj_score o = s).
Proof.
  intros Hs Hrun. rewrite (run_discovery_started _ _ _ _ _ Hs) in Hrun.
  injection Hrun as _ Hout.
  split; [|split].
  - by apply read_settings_returned in Hs as (? & ? & _ & _ & ? & _).
  - intros o (c & _ & Hsurf)%(output_entries _ _ _ _ _ _ _ Hout).
    by apply surface_score_some in Hsurf as (_ & _ & _ & ? & _).
  - intros c score_data s Hin Hscore Hnum Hge.
    destruct (surface m (_score p c).2) as [[o|]|e] eqn:Hsurf.
    + exists o. split; [apply (output_entries _ _ _ _ _ _ _ Hout); eauto|].
      apply surface_score_some in Hsurf as (sd & Hsd & Ho & _ & Hnum').
      split; [done|]. congruence.
    + rewrite Hscore in Hsurf.
      apply (surface_none _ _ _ s) in Hsurf; [|done].
      by apply Qclt_not_le in Hsurf.
    + apply rank_results_returned in Hout as (added & Hall & _).
      apply list_elem_of_lookup_1 in Hin as [i Hi].
      destruct (Forall2_lookup_l _ _ _ _ _ Hall Hi) as (oo & _ & Hoo).
      congruence.
Qed.

(** C3.  When [run_discovery] returns a list, the list is sorted by score,
    highest first, and two entries with the same score stand in the order
    of their candidates, that is, in the order the deduplication loop met
    their listings; the candidates have pairwise distinct ids, so that
    order is well defined.  The order in which the scoring tasks finish
    plays no part: whatever the schedule, the results [gather] hands back
    lead to the same list. *)
Theorem ranking_order (p : preferences) (excl deal : gset string) (m : Qc)
    (queries : list string) (calls : list call) (out : list scored_job) :
  read_settings p = Returned (excl, deal, m, queries) →
  run_discovery p = (calls, Returned out) →
  StronglySorted (descending sj_score) out
  ∧ NoDup (cand_id <$> surviving excl deal (imap search_jobs queries))
  ∧ (∀ i j a b,
       i < j → out !! i = Some a → out !! j = Some b →
       sj_score a = sj_score b →
       ∃ i' j', i' < j'
         ∧ surviving excl deal (imap search_jobs queries) !! i' = Some (origin a)
         ∧ surviving excl deal (imap search_jobs queries) !! j' = Some (origin b))
  ∧ (∀ schedule s results,
       play p (surviving excl deal (imap search_jobs queries))
         (start (surviving excl deal (imap search_jobs queries))) schedule
       = Some s →
       gathered s = Some results →
       (all_jobs ← collect m results []; mret (sort_reverse sj_score all_jobs))
       = Returned out).
Proof.
  intros Hs Hrun. rewrite (run_discovery_started _ _ _ _ _ Hs) in Hrun.
  injection Hrun as _ Hout.
  set (cands := surviving excl deal (imap search_jobs queries)) in *.
  split; [|split; [|split]].
  - apply rank_results_returned in Hout as (added & _ & ->).
    apply sort_reverse_sorted.
  - apply surviving_ids_NoDup.
  - intros i j a b Hij Ha Hb Heq.
    apply rank_results_returned in Hout as (added & Hall & ->).
    destruct (filter_lookup_order (λ o, sj_score o = sj_score a)
                (sort_reverse sj_score (omap id added)) i j a b)
      as (i1 & j1 & Hij1 & Ha1 & Hb1); [done..|].
    rewrite sort_reverse_stable in Ha1, Hb1.
    apply (sublist_lookup_order
             (origin <$> filter (λ o, sj_score o = sj_score a) (omap id added))
             cands i1 j1).
    + etrans; [|by apply (added_in_order p m)].
      apply fmap_sublist, sublist_filter.
    + done.
    + by rewrite list_lookup_fmap, Ha1.
    + by rewrite list_lookup_fmap, Hb1.
  - intros schedule s results Hplay Hg.
    by rewrite (gathered_in_order _ _ _ _ _ Hplay Hg), list_fmap_compose.
Qed.

(** C4.  The prefilter accepts a listing exactly when its lower-cased title
    contains no excluded keyword and either its lower-cased location
    contains no dealbreaker or its lower-cased description contains
    "remote"; and no entry of the list [run_discovery] returns has a
    lower-cased title containing a lower-cased excluded keyword of the
    preferences. *)
Theorem prefilter_rule :
  (∀ j (exclude_keywords dealbreakers : gset string),
     _prefilter j exclude_keywords dealbreakers = true ↔
       (∀ kw, kw ∈ exclude_keywords →
          ¬ substring_of kw (lower (default "" (job_title j))))
       ∧ ((∀ db, db ∈ dealbreakers →
             ¬ substring_of db (lower (default "" (job_location j))))
          ∨ substring_of "remote" (lower (default "" (job_description j)))))
  ∧ (∀ p kws calls out o kw,
       (discovery p ≫= exclude_keywords) = Some kws →
       run_discovery p = (calls, Returned out) →
       o ∈ out → kw ∈ kws →
       ¬ substring_of (lower kw) (lower (default "" (job_title (sj_raw_data o))))).
Proof.
  split; [apply prefilter_accepts|].
  intros p kws calls out o kw Hkws Hrun Hin Hkw.
  destruct (read_settings p) as [[[[excl deal] m] queries]|e] eqn:Hs;
    [|by rewrite (run_discovery_config_error _ _ Hs) in Hrun].
  rewrite (run_discovery_started _ _ _ _ _ Hs) in Hrun. injection Hrun as _ Hout.
  apply (output_entries _ _ _ _ _ _ _ Hout) in Hin as (c & Hc & Hsurf).
  apply surface_score_some in Hsurf as (_ & _ & <- & _).
  apply surviving_passed in Hc as (_ & _ & Hpass). simpl in Hpass.
  apply prefilter_accepts in Hpass as [Htitle _]. apply Htitle.
  apply read_settings_returned in Hs as (kws' & _ & Hkws' & _ & _ & _ & -> & _).
  assert (kws' = kws) as -> by congruence.
  apply elem_of_list_to_set, list_elem_of_fmap. eauto.
Qed.

Lemma rank_results_surviving (p : preferences) (excl deal : gset string) (m : Qc)
    (rs rs' : list (outcome (list job))) :
  surviving excl deal rs = surviving excl deal rs' →
  rank_results p excl deal m rs = rank_results p excl deal m rs'.
Proof.
  unfold rank_results. by intros ->.
Qed.


Lemma scored_urls_app (calls1 calls2 : list call) :
  scored_urls (calls1 ++ calls2) = scored_urls calls1 ++ scored_urls calls2.
Proof. apply omap_app. Qed.

Lemma scored_urls_searches (queries : list string) :
  scored_urls (SearchCall <$> queries) = [].
Proof. by induction queries. Qed.

Lemma scored_urls_scoring (ctx : scoring_context) (cands : list candidate) :
  scored_urls ((λ c, OracleCall ctx (cand_job c)) <$> cands)
  = canonical_url ∘ cand_job <$> cands.
Proof. induction cands as [|c cands IH]; [done|]. simpl. by f_equal. Qed.

Lemma surviving_urls_NoDup (excl deal : gset string) (rs : list (outcome (list job))) :
  NoDup (canonical_url ∘ cand_job <$> surviving excl deal rs).
Proof.
  rewrite list_fmap_compose.
  apply (NoDup_fmap_1 MD5.hexdigest). rewrite <- list_fmap_compose.
  pose proof (surviving_ids_NoDup excl deal rs) as Hnodup.
  rewrite surviving_filter in *.
  by rewrite candidate_ids in Hnodup; rewrite candidate_jobs.
Qed.

(** The first listing with its id, once rejected by the prefilter, leaves
    no candidate with that id. *)
Lemma rejected_first_blocks (excl deal : gset string)
    (rs : list (outcome (list job))) (before after : list job) (j1 : job)
    (c : candidate) :
  flatten rs = before ++ j1 :: after →
  job_id j1 ∉ job_id <$> before →
  _prefilter j1 excl deal = false →
  c ∈ surviving excl deal rs →
  cand_id c ≠ job_id j1.
Proof.
  intros Hflat Hfirst Hrej. rewrite surviving_filter, Hflat.
  intros (j & -> & [Hkeep Hin]%list_elem_of_filter)%list_elem_of_fmap Heq.
  change (job_id j = job_id j1) in Heq. rewrite fresh_keep_first in Hin
    by (rewrite elem_of_union, elem_of_ids_of; set_solver).
  apply elem_of_app in Hin as [Hin|Hin]; [|apply elem_of_cons in Hin as [->|Hin]].
  - apply Hfirst. rewrite <- Heq. apply list_elem_of_fmap_2.
    eapply elem_of_sublist; [exact Hin | apply fresh_sublist].
  - by rewrite Hrej in Hkeep.
  - apply fresh_unseen in Hin. set_solver.
Qed.

Lemma surviving_fields (excl deal : gset string) (rs : list (outcome (list job)))
    (c : candidate) :
  c ∈ surviving excl deal rs →
  cand_url c = canonical_url (cand_job c)
  ∧ cand_id c = generate_external_id (cand_url c).
Proof. by intros [-> _]%surviving_passed. Qed.

(** C10.  Every listing the loop visits has its id in [seen] afterwards,
    whether the prefilter accepted it or not.  A listing whose canonical
    URL an earlier listing has changes nothing: the run is the one without
    it, even if it would pass the prefilter.  When the first listing with
    a canonical URL is rejected by the prefilter, no listing with that URL
    becomes a candidate, is sent to the model or is output.  No two
    requests to the model of a run are for the same canonical URL. *)
Theorem rejected_listing_registers (p : preferences) (excl deal : gset string)
    (m : Qc) (rs : list (outcome (list job))) :
  (∀ j, j ∈ flatten rs →
     job_id j ∈ (dedup_loop (λ j, _prefilter j excl deal) rs).1)
  ∧ (∀ before j1 middle j2 after rs',
       flatten rs = before ++ j1 :: middle ++ j2 :: after →
       canonical_url j2 = canonical_url j1 →
       flatten rs' = before ++ j1 :: middle ++ after →
       rank_results p excl deal m rs = rank_results p excl deal m rs')
  ∧ (∀ before j1 after,
       flatten rs = before ++ j1 :: after →
       job_id j1 ∉ job_id <$> before →
       _prefilter j1 excl deal = false →
       (∀ c, c ∈ surviving excl deal rs → cand_url c ≠ canonical_url j1)
       ∧ (∀ ctx j, OracleCall ctx j ∈ (rank_results p excl deal m rs).1 →
            canonical_url j ≠ canonical_url j1)
       ∧ (∀ out o, (rank_results p excl deal m rs).2 = Returned out →
            o ∈ out → sj_url o ≠ canonical_url j1))
  ∧ NoDup (scored_urls (rank_results p excl deal m rs).1)
  ∧ NoDup (scored_urls (run_discovery p).1).
Proof.
  split; [|split; [|split; [|split]]].
  - intros j Hin. rewrite dedup_loop_flatten. simpl.
    by apply elem_of_ids_of, list_elem_of_fmap_2.
  - intros before j1 middle j2 after rs' Hflat Hurl Hflat'.
    apply rank_results_surviving. rewrite !surviving_filter, Hflat, Hflat'.
    do 2 f_equal.
    replace (before ++ j1 :: middle ++ j2 :: after)
      with ((before ++ j1 :: middle) ++ j2 :: after) by (by rewrite <- app_assoc).
    replace (before ++ j1 :: middle ++ after)
      with ((before ++ j1 :: middle) ++ after) by (by rewrite <- app_assoc).
    apply fresh_drop_repeat. rewrite elem_of_union, elem_of_ids_of. left.
    rewrite !fmap_app. unfold job_id at 1. rewrite Hurl. set_solver.
  - intros before j1 after Hflat Hfirst Hrej.
    assert (∀ c, c ∈ surviving excl deal rs → cand_url c ≠ canonical_url j1)
      as Hblocked.
    { intros c Hc Hurl.
      apply (rejected_first_blocks _ _ _ _ _ _ _ Hflat Hfirst Hrej Hc).
      apply surviving_fields in Hc as [_ ->]. unfold job_id. by rewrite Hurl. }
    split; [done|]. split.
    + intros ctx j. rewrite rank_results_calls.
      destruct (_scoring_context p) as [ctx'|]; [|by intros ?%elem_of_nil].
      intros (c & [= _ ->] & Hc)%list_elem_of_fmap.
      specialize (Hblocked c Hc).
      apply surviving_fields in Hc as [Hcand _]. by rewrite Hcand in Hblocked.
    + intros out o Hout (c & Hc & Hsurf)%(output_entries _ _ _ _ _ _ _ Hout).
      apply surface_score_some in Hsurf as (_ & _ & <- & _).
      apply (Hblocked _ Hc).
  - rewrite rank_results_calls. destruct (_scoring_context p); [|constructor].
    rewrite scored_urls_scoring. apply surviving_urls_NoDup.
  - destruct (read_settings p) as [[[[excl' deal'] m'] queries]|e] eqn:Hs.
    + rewrite (run_discovery_started _ _ _ _ _ Hs). cbn [fst].
      rewrite scored_urls_app, scored_urls_searches, app_nil_l.
      rewrite rank_results_calls. destruct (_scoring_context p); [|constructor].
      rewrite scored_urls_scoring. apply surviving_urls_NoDup.
    + rewrite (run_discovery_config_error _ _ Hs). constructor.
Qed.

(** C8, amended.  The canonical URL of a listing is the link of the first
    apply option when there is a first apply option and its link is
    present and not empty; in every other case it is the generic link, an
    absent generic link being the empty string.  No case raises.  The
    [external_id] is the MD5 hex digest of exactly that string, for the
    candidates and for the entries of the output. *)
Theorem canonical_url_choice :
  (∀ j first rest l,
     job_apply_options j = Some (first :: rest) →
     ao_link first = Some l → l ≠ "" →
     canonical_url j = l)
  ∧ (∀ j,
       (∀ first rest l,
          job_apply_options j = Some (first :: rest) →
          ao_link first = Some l → l = "") →
       canonical_url j = default "" (job_link j))
  ∧ (∀ j, job_apply_options j = None → job_link j = None → canonical_url j = "")
  ∧ (∀ j, job_id j = MD5.hexdigest (canonical_url j))
  ∧ (∀ p excl deal m rs,
       (∀ c, c ∈ surviving excl deal rs →
          cand_url c = canonical_url (cand_job c)
          ∧ cand_id c = MD5.hexdigest (cand_url c))
       ∧ (∀ out o,
            (rank_results p excl deal m rs).2 = Returned out → o ∈ out →
            sj_url o = canonical_url (sj_raw_data o)
            ∧ sj_external_id o = MD5.hexdigest (sj_url o))).
Proof.
  split; [|split; [|split; [|split]]].
  - intros j first rest l Hopts Hlink Hl. unfold canonical_url.
    rewrite Hopts. simpl. rewrite Hlink. simpl. by destruct l.
  - intros j Hnone. unfold canonical_url.
    destruct (job_apply_options j) as [[|first rest]|] eqn:Hopts; simpl.
    + by destruct (default "" (job_link j)).
    + destruct (ao_link first) as [l|] eqn:Hlink; simpl; [|done].
      by rewrite (Hnone _ _ _ eq_refl Hlink).
    + by destruct (default "" (job_link j)).
  - intros j Hopts Hlink. unfold canonical_url. by rewrite Hopts, Hlink.
  - done.
  - intros p excl deal m rs. split; [apply surviving_fields|].
    intros out o Hout (c & Hc & Hsurf)%(output_entries _ _ _ _ _ _ _ Hout).
    apply surface_score_some in Hsurf as (_ & _ & <- & _).
    by apply surviving_fields in Hc.
Qed.



(** The run returns a list as soon as every reply that was decoded carries a
    number under ["overall_score"] and a ["breakdown"]. *)
Lemma rank_results_returns (p : preferences) (excl deal : gset string) (m : Qc)
    (rs : list (outcome (list job))) :
  (∀ c score_data,
     c ∈ surviving excl deal rs → (_score p c).2 = Returned (c, score_data) →
     (∃ s, getitem score_data "overall_score" ≫= as_number = Returned s)
     ∧ ∃ b, getitem score_data "breakdown" = Returned b) →
  ∃ out, (rank_results p excl deal m rs).2 = Returned out.
Proof.
  intros Hwell.
  assert (∃ added, Forall2 (λ c o, surface m (_score p c).2 = Returned o)
                     (surviving excl deal rs) added) as [added Hall].
  { induction (surviving excl deal rs) as [|c cands IH]; [by exists []|].
    destruct IH as [added Hall].
    { intros c' sd Hin. apply Hwell. by apply list_elem_of_further. }
    assert (∃ o, surface m (_score p c).2 = Returned o) as [o Ho];
      [|exists (o :: added); by constructor].
    destruct (_score p c).2 as [[c' sd]|e] eqn:Hscore; [|by exists None].
    apply _score_returned in Hscore as Hc. destruct Hc as [-> _].
    destruct (Hwell c sd (list_elem_of_here _ _) Hscore) as [[s Hs] [b Hb]].
    destruct c as [[external_id url] j]. simpl.
    destruct (getitem sd "overall_score") as [overall|]; simpl in *; [|done].
    rewrite Hs. simpl. case_bool_decide; [|by eexists].
    rewrite Hb. by eexists. }
  eexists. apply rank_results_returned. by exists added.
Qed.

(** A task that raised leaves no entry, and the loop goes on. *)
Lemma failed_task_skipped (p : preferences) (excl deal : gset string) (m : Qc)
    (rs : list (outcome (list job))) (out : list scored_job)
    (c : candidate) (e : exn) :
  (rank_results p excl deal m rs).2 = Returned out →
  (_score p c).2 = Raised e →
  ∀ o, o ∈ out → origin o ≠ c.
Proof.
  intros Hout Hfail o (c' & Hc' & Hsurf)%(output_entries _ _ _ _ _ _ _ Hout) <-.
  apply surface_score_some in Hsurf as (sd & Hsd & Ho & _). congruence.
Qed.


(** ** The text of a reply *)

(** *** Bytes *)

Lemma byte_inj (a b : Ascii.ascii) : byte a = byte b → a = b.
Proof.
  unfold byte. intros H.
  by rewrite <- (Ascii.ascii_N_embedding a), <- (Ascii.ascii_N_embedding b), H.
Qed.

Lemma byte_eq_dec_false (a b : Ascii.ascii) :
  byte a ≠ byte b → a ≠ b.
Proof. by intros H ->. Qed.

Lemma ascii_space_false (a : Ascii.ascii) :
  ¬ space_lead a → ascii_space a = false.
Proof. intros H. destruct (ascii_space a) eqn:Ha; [|done]. destruct H. by left. Qed.

Lemma two_byte_space_lead (a b : Ascii.ascii) :
  two_byte_space a b = true → space_lead a ∧ ascii_space a = false ∧ ¬ space_lead b.
Proof.
  intros H. assert (byte a = 0xC2 ∧ (byte b = 0x85 ∨ byte b = 0xA0))%N as [Ha Hb]
    by (byte_facts; tauto).
  split; [unfold space_lead; tauto|]. split.
  - byte_facts. lia.
  - byte_facts. lia.
Qed.

Lemma three_byte_space_lead (a b c : Ascii.ascii) :
  three_byte_space a b c = true →
  space_lead a ∧ ascii_space a = false ∧ two_byte_space a b = false
  ∧ ¬ space_lead b ∧ ¬ space_lead c.
Proof.
  intros H.
  assert ((byte a = 0xE1 ∨ byte a = 0xE2 ∨ byte a = 0xE3)
          ∧ (byte b = 0x9A ∨ byte b = 0x80 ∨ byte b = 0x81)
          ∧ (0x80 ≤ byte c ≤ 0xAF))%N as (Ha & Hb & Hc)
    by (byte_facts; lia).
  split; [unfold space_lead; tauto|].
  repeat split; byte_facts; lia.
Qed.

(** *** Stripping white space *)

Lemma append_nil_l (s : string) : "" +:+ s = s.
Proof. reflexivity. Qed.

Lemma append_nil_r (s : string) : s +:+ "" = s.
Proof. induction s as [|a s IH]; [done|]. by rewrite append_cons, IH. Qed.

Lemma append_assoc (s t u : string) : (s +:+ t) +:+ u = s +:+ (t +:+ u).
Proof. induction s as [|a s IH]; [done|]. by rewrite !append_cons, IH. Qed.

Lemma length_append (s t : string) :
  String.length (s +:+ t) = String.length s + String.length t.
Proof. induction s as [|a s IH]; [done|]. rewrite append_cons. simpl. by rewrite IH. Qed.

Lemma lstrip_one (a : Ascii.ascii) (s : string) :
  ascii_space a = true → lstrip (String a s) = lstrip s.
Proof. intros Ha. simpl. by rewrite Ha. Qed.

Lemma lstrip_two (a b : Ascii.ascii) (s : string) :
  two_byte_space a b = true → lstrip (String a (String b s)) = lstrip s.
Proof.
  intros Hab. destruct (two_byte_space_lead a b Hab) as (_ & Ha & _).
  simpl. by rewrite Ha, Hab.
Qed.

Lemma lstrip_three (a b c : Ascii.ascii) (s : string) :
  three_byte_space a b c = true →
  lstrip (String a (String b (String c s))) = lstrip s.
Proof.
  intros Habc. destruct (three_byte_space_lead a b c Habc) as (_ & Ha & Hab & _).
  simpl. by rewrite Ha, Hab, Habc.
Qed.

Lemma lstrip_space_char (w s : string) :
  space_char w → lstrip (w +:+ s) = lstrip s.
Proof.
  destruct 1 as [a Ha|a b Hab|a b c Habc]; rewrite ?append_cons, append_nil_l.
  - by apply lstrip_one.
  - by apply lstrip_two.
  - by apply lstrip_three.
Qed.

Lemma lstrip_spaces_app (v s : string) :
  spaces v → lstrip (v +:+ s) = lstrip s.
Proof.
  induction 1 as [|w v Hw Hv IH]; [done|].
  by rewrite append_assoc, lstrip_space_char.
Qed.

Lemma space_char_length (w : string) :
  space_char w → 0 < String.length w.
Proof. destruct 1; simpl; lia. Qed.

(** Either nothing is stripped or one white-space character is. *)
Lemma lstrip_inv (s : string) :
  lstrip s = s
  ∨ ∃ w s', space_char w ∧ s = w +:+ s' ∧ lstrip s = lstrip s'.
Proof.
  destruct s as [|a r]; [by left|].
  destruct (ascii_space a) eqn:Ha.
  { right. exists (String a ""), r. split; [by constructor|].
    split; [done | by apply lstrip_one]. }
  destruct r as [|b r]; [left; simpl; by rewrite Ha|].
  destruct (two_byte_space a b) eqn:Hab.
  { right. exists (String a (String b "")), r. split; [by constructor|].
    split; [done | by apply lstrip_two]. }
  destruct r as [|c r]; [left; simpl; by rewrite Ha, Hab|].
  destruct (three_byte_space a b c) eqn:Habc.
  { right. exists (String a (String b (String c ""))), r.
    split; [by constructor|]. split; [done | by apply lstrip_three]. }
  left. simpl. by rewrite Ha, Hab, Habc.
Qed.

(** Induction along what [lstrip] removes. *)
Lemma lstrip_ind (P : string → Prop) :
  (∀ s, lstrip s = s → P s) →
  (∀ w s, space_char w → P s → P (w +:+ s)) →
  ∀ s, P s.
Proof.
  intros Hfix Hstep s.
  remember (String.length s) as n eqn:Hn. revert s Hn.
  induction n as [n IH] using lt_wf_ind. intros s ->.
  destruct (lstrip_inv s) as [Hs|(w & s' & Hw & -> & _)]; [by apply Hfix|].
  apply Hstep; [done|]. apply (IH (String.length s')); [|done].
  rewrite length_append. pose proof (space_char_length w Hw). lia.
Qed.

Lemma lstrip_length (s : string) : String.length (lstrip s) ≤ String.length s.
Proof.
  induction s as [s Hs|w s Hw IH] using lstrip_ind; [by rewrite Hs|].
  rewrite lstrip_space_char, length_append by done. lia.
Qed.

(** A string that [lstrip] leaves alone does not start with white space. *)
Lemma lstrip_fixed_no_space (w s : string) :
  space_char w → lstrip (w +:+ s) ≠ w +:+ s.
Proof.
  intros Hw Heq. rewrite lstrip_space_char in Heq by done.
  pose proof (lstrip_length s) as Hlen. rewrite Heq, length_append in Hlen.
  pose proof (space_char_length w Hw). lia.
Qed.

Lemma lstrip_idemp (s : string) : lstrip (lstrip s) = lstrip s.
Proof.
  induction s as [s Hs|w s Hw IH] using lstrip_ind; [by rewrite !Hs|].
  by rewrite lstrip_space_char.
Qed.

Lemma lstrip_decompose (s : string) :
  ∃ v, spaces v ∧ s = v +:+ lstrip s.
Proof.
  induction s as [s Hs|w s Hw (v & Hv & IH)] using lstrip_ind.
  - exists "". split; [constructor | by rewrite Hs].
  - exists (w +:+ v). split; [by constructor|].
    by rewrite lstrip_space_char, append_assoc, <- IH.
Qed.

Lemma all_space_spaces (s : string) : all_space s = true ↔ spaces s.
Proof.
  unfold all_space. split.
  - destruct (lstrip_decompose s) as (v & Hv & Hs).
    destruct (lstrip s); [|done]. intros _.
    by rewrite Hs, append_nil_r.
  - intros Hs. rewrite <- (append_nil_r s), lstrip_spaces_app; done.
Qed.

Lemma all_space_lstrip (s : string) : all_space s = true ↔ lstrip s = "".
Proof. unfold all_space. by destruct (lstrip s). Qed.

Lemma spaces_app (u v : string) : spaces u → spaces v → spaces (u +:+ v).
Proof.
  induction 1 as [|w u Hw Hu IH]; intros Hv; [done|].
  rewrite append_assoc. constructor; auto.
Qed.

Lemma space_char_lead (w : string) (a : Ascii.ascii) (r : string) :
  space_char w → w = String a r → space_lead a.
Proof.
  destruct 1 as [b Hb|b c Hbc|b c d Hbcd]; intros [= <- _].
  - by left.
  - by apply two_byte_space_lead in Hbc as [? _].
  - by apply three_byte_space_lead in Hbcd as [? _].
Qed.

(** A run of white space is empty or starts with a lead byte. *)
Lemma spaces_head (a : Ascii.ascii) (r : string) :
  spaces (String a r) → space_lead a.
Proof.
  inversion 1 as [|w s Hw Hs Heq].
  destruct w as [|b w]; [by inversion Hw|].
  rewrite append_cons in Heq. injection Heq as -> _.
  by eapply space_char_lead.
Qed.

Lemma rstrip_decompose (s : string) :
  ∃ v, spaces v ∧ s = rstrip s +:+ v.
Proof.
  induction s as [|a r (v & Hv & IH)]; [exists ""; split; [constructor|done]|].
  simpl rstrip. destruct (all_space (String a r)) eqn:Hall.
  - exists (String a r). split; [by apply all_space_spaces | done].
  - exists v. split; [done|]. by rewrite append_cons, <- IH.
Qed.

Lemma rstrip_idemp (s : string) : rstrip (rstrip s) = rstrip s.
Proof.
  induction s as [|a r IH]; [done|].
  simpl rstrip at 2 3. destruct (all_space (String a r)) eqn:Hall; [done|].
  simpl rstrip. destruct (all_space (String a (rstrip r))) eqn:Hall'.
  - destruct (rstrip_decompose r) as (v & Hv & Hr).
    apply all_space_spaces in Hall'.
    assert (spaces (String a r)) as Hs.
    { rewrite Hr, <- append_cons. by apply spaces_app. }
    apply all_space_spaces in Hs. congruence.
  - by rewrite IH.
Qed.

(** [rstrip] does not uncover white space at the front. *)
Lemma lstrip_rstrip (s : string) :
  lstrip s = s → lstrip (rstrip s) = rstrip s.
Proof.
  intros Hs.
  destruct (lstrip_inv (rstrip s)) as [|(w & s' & Hw & Hr & _)]; [done|].
  destruct (rstrip_decompose s) as (v & _ & Hsv).
  rewrite Hr, append_assoc in Hsv. rewrite Hsv in Hs.
  by apply lstrip_fixed_no_space in Hs.
Qed.

Lemma strip_idemp (s : string) : strip (strip s) = strip s.
Proof.
  unfold strip.
  by rewrite (lstrip_rstrip (lstrip s)), rstrip_idemp by apply lstrip_idemp.
Qed.

(** *** Backquotes and white space *)

Lemma byte_tick : byte "`"%char = 96%N.
Proof. reflexivity. Qed.

Lemma not_tick (a : Ascii.ascii) : byte a ≠ 96%N → a ≠ "`"%char.
Proof. intros Ha ->. by apply Ha. Qed.

Lemma space_lead_range (a : Ascii.ascii) :
  space_lead a → (byte a ≤ 32 ∨ 0xC2 ≤ byte a)%N.
Proof. intros Ha. byte_facts. lia. Qed.

Lemma two_byte_space_range (a b : Ascii.ascii) :
  two_byte_space a b = true → (0xC2 ≤ byte a ∧ 0x80 ≤ byte b ≤ 0xAF)%N.
Proof. intros H. byte_facts. lia. Qed.

Lemma three_byte_space_range (a b c : Ascii.ascii) :
  three_byte_space a b c = true →
  (0xC2 ≤ byte a ∧ 0x80 ≤ byte b ≤ 0xAF ∧ 0x80 ≤ byte c ≤ 0xAF)%N.
Proof. intros H. byte_facts. lia. Qed.

Lemma two_byte_space_not (a b : Ascii.ascii) :
  (byte b < 0x80 ∨ 0xAF < byte b)%N → two_byte_space a b = false.
Proof.
  intros Hb. destruct (two_byte_space a b) eqn:H; [|done].
  apply two_byte_space_range in H. lia.
Qed.

Lemma three_byte_space_not_2 (a b c : Ascii.ascii) :
  (byte b < 0x80 ∨ 0xAF < byte b)%N → three_byte_space a b c = false.
Proof.
  intros Hb. destruct (three_byte_space a b c) eqn:H; [|done].
  apply three_byte_space_range in H. lia.
Qed.

Lemma three_byte_space_not_3 (a b c : Ascii.ascii) :
  (byte c < 0x80 ∨ 0xAF < byte c)%N → three_byte_space a b c = false.
Proof.
  intros Hc. destruct (three_byte_space a b c) eqn:H; [|done].
  apply three_byte_space_range in H. lia.
Qed.

Lemma ascii_space_range (a : Ascii.ascii) :
  ascii_space a = true → (byte a ≤ 32)%N.
Proof. intros H. byte_facts. lia. Qed.

(** What [lstrip] leaves alone stays alone when a byte that cannot continue
    a white-space character is appended. *)
Lemma lstrip_app_inert (x : string) (c : Ascii.ascii) (t : string) :
  lstrip x = x → x ≠ "" → (byte c < 0x80 ∨ 0xAF < byte c)%N →
  lstrip (x +:+ String c t) = x +:+ String c t.
Proof.
  intros Hx Hne Hc.
  destruct x as [|a x]; [done|].
  assert (ascii_space a = false) as Ha.
  { destruct (ascii_space a) eqn:Ha; [|done].
    by apply (lstrip_fixed_no_space (String a "") x) in Hx; [|constructor]. }
  destruct x as [|b x].
  { rewrite append_cons, append_nil_l. simpl. rewrite Ha.
    rewrite two_byte_space_not by done.
    destruct t as [|d t]; [done|]. by rewrite three_byte_space_not_2. }
  assert (two_byte_space a b = false) as Hab.
  { destruct (two_byte_space a b) eqn:Hab; [|done].
    by apply (lstrip_fixed_no_space (String a (String b "")) x) in Hx; [|constructor]. }
  destruct x as [|d x].
  { rewrite !append_cons, append_nil_l. simpl. rewrite Ha, Hab.
    by rewrite three_byte_space_not_3. }
  assert (three_byte_space a b d = false) as Habd.
  { destruct (three_byte_space a b d) eqn:Habd; [|done].
    by apply (lstrip_fixed_no_space (String a (String b (String d ""))) x) in Hx;
      [|constructor]. }
  rewrite !append_cons. simpl. by rewrite Ha, Hab, Habd.
Qed.

Lemma lstrip_tick (z : string) : lstrip (String "`"%char z) = String "`"%char z.
Proof. by destruct z as [|b [|c z]]. Qed.

(** A backquote stops [lstrip]. *)
Lemma lstrip_app_tick (x z : string) :
  lstrip (x +:+ String "`"%char z) = lstrip x +:+ String "`"%char z.
Proof.
  induction x as [x Hx|w x Hw IH] using lstrip_ind.
  - rewrite Hx. destruct x as [|a x]; [rewrite !append_nil_l; apply lstrip_tick|].
    apply lstrip_app_inert; [done | discriminate | rewrite byte_tick; lia].
  - rewrite append_assoc, lstrip_space_char, (lstrip_space_char w x) by done.
    exact IH.
Qed.

(** White space appended to a string is stripped with it or not at all. *)
Lemma lstrip_app_spaces (x v : string) :
  spaces v →
  lstrip (x +:+ v) = if all_space x then "" else lstrip x +:+ v.
Proof.
  intros Hv. destruct (all_space x) eqn:Hall.
  - apply all_space_lstrip, all_space_spaces, spaces_app; [|done].
    by apply all_space_spaces.
  - induction x as [x Hx|w x Hw IH] using lstrip_ind.
    + rewrite Hx. destruct v as [|c v]; [by rewrite append_nil_r|].
      apply lstrip_app_inert; [done| |].
      * intros ->. by rewrite <- Hx in Hall.
      * apply spaces_head, space_lead_range in Hv. lia.
    + rewrite append_assoc, lstrip_space_char, (lstrip_space_char w x) by done.
      apply IH.
      unfold all_space in *. by rewrite lstrip_space_char in Hall.
Qed.

Lemma contains_tick_cons (a : Ascii.ascii) (s : string) :
  contains "`" (String a s) = false ↔ a ≠ "`"%char ∧ contains "`" s = false.
Proof.
  simpl. case_decide as Ha; simpl.
  - split; [done | by intros [? _]].
  - split; [intros H; by split | by intros [_ ?]].
Qed.

Lemma contains_tick_app (u v : string) :
  contains "`" (u +:+ v) = false ↔
  contains "`" u = false ∧ contains "`" v = false.
Proof.
  clear lower google_jobs claude.
  induction u as [|a u IH]; [by split; [|intros [_ ?]]|].
  rewrite append_cons, !contains_tick_cons, IH. tauto.
Qed.

Lemma space_char_no_tick (w : string) : space_char w → contains "`" w = false.
Proof.
  destruct 1 as [a Ha|a b Hab|a b c Habc];
    rewrite ?contains_tick_cons; repeat split; try done; apply not_tick.
  - apply ascii_space_range in Ha. lia.
  - apply two_byte_space_range in Hab. lia.
  - apply two_byte_space_range in Hab. lia.
  - apply three_byte_space_range in Habc. lia.
  - apply three_byte_space_range in Habc. lia.
  - apply three_byte_space_range in Habc. lia.
Qed.

Lemma spaces_no_tick (v : string) : spaces v → contains "`" v = false.
Proof.
  induction 1 as [|w v Hw Hv IH]; [done|].
  apply contains_tick_app. split; [by apply space_char_no_tick | done].
Qed.

Lemma startswith_fence_other (a : Ascii.ascii) (s : string) :
  a ≠ "`"%char → startswith "```" (String a s) = false.
Proof. intros Ha. simpl. by rewrite decide_False by congruence. Qed.

(** Without a backquote there is no fence. *)
Lemma no_tick_no_fence (s : string) :
  contains "`" s = false → contains "```" s = false.
Proof.
  induction s as [|a s IH]; [done|].
  intros [Ha Hs]%contains_tick_cons.
  change (startswith "```" (String a s) || contains "```" s = false).
  apply orb_false_iff. split; [by apply startswith_fence_other | by apply IH].
Qed.

(** *** The fence search *)

Lemma after_fence_eq (s : string) :
  after_fence s
  = if startswith "```" s then
      match s with
      | String _ (String _ (String _ r)) => Some r
      | _ => None
      end
    else
      match s with
      | EmptyString => None
      | String _ r => after_fence r
      end.
Proof. by destruct s. Qed.

Lemma fence_body_eq (s : string) :
  fence_body s
  = if startswith "```" (lstrip s) then Some EmptyString
    else
      match s with
      | EmptyString => None
      | String a r => String a <$> fence_body r
      end.
Proof. by destruct s. Qed.

Lemma after_fence_cons (a : Ascii.ascii) (s : string) :
  startswith "```" (String a s) = false →
  after_fence (String a s) = after_fence s.
Proof. intros H. by rewrite after_fence_eq, H. Qed.

Lemma after_fence_here (s : string) : after_fence ("```" +:+ s) = Some s.
Proof. reflexivity. Qed.

Lemma after_fence_none (s : string) :
  contains "```" s = false → after_fence s = None.
Proof.
  induction s as [|a s IH]; [done|].
  change (contains "```" (String a s))
    with (startswith "```" (String a s) || contains "```" s).
  intros [Hhere Hlater]%orb_false_iff.
  rewrite after_fence_cons by done. by apply IH.
Qed.

Lemma after_fence_prefix (before s : string) :
  contains "`" before = false →
  after_fence (before +:+ "```" +:+ s) = Some s.
Proof.
  induction before as [|a before IH]; [done|].
  intros [Ha Hb]%contains_tick_cons. rewrite append_cons.
  rewrite after_fence_cons by by apply startswith_fence_other. by apply IH.
Qed.

Lemma fence_body_cons (a : Ascii.ascii) (s : string) :
  startswith "```" (lstrip (String a s)) = false →
  fence_body (String a s) = String a <$> fence_body s.
Proof. intros H. by rewrite fence_body_eq, H. Qed.

Lemma fence_body_here (s : string) :
  startswith "```" (lstrip s) = true → fence_body s = Some "".
Proof. intros H. by rewrite fence_body_eq, H. Qed.

Lemma fence_body_closed_at (m z : string) :
  contains "`" m = false →
  startswith "```" (String "`"%char z) = true →
  fence_body (m +:+ String "`"%char z) = Some (rstrip m).
Proof.
  intros Hm Hz. induction m as [|a m IH].
  { rewrite append_nil_l. apply fence_body_here. by rewrite lstrip_tick. }
  pose proof Hm as [Ha Hm']%contains_tick_cons.
  simpl rstrip. destruct (all_space (String a m)) eqn:Hall.
  - apply fence_body_here. rewrite lstrip_app_tick.
    apply all_space_lstrip in Hall. by rewrite Hall, append_nil_l.
  - rewrite append_cons, fence_body_cons.
    { by rewrite IH. }
    rewrite <- append_cons, lstrip_app_tick.
    destruct (lstrip_decompose (String a m)) as (v & _ & Hv).
    rewrite Hv in Hm. apply contains_tick_app in Hm as [_ Hm].
    unfold all_space in Hall. destruct (lstrip (String a m)) as [|c r]; [done|].
    apply contains_tick_cons in Hm as [Hc _].
    rewrite append_cons. by apply startswith_fence_other.
Qed.

(** The body of a fence that holds no backquote is its content without the
    white space at its end. *)
Lemma fence_body_closed (m rest : string) :
  contains "`" m = false →
  fence_body (m +:+ "```" +:+ rest) = Some (rstrip m).
Proof. intros Hm. by apply (fence_body_closed_at m ("``" +:+ rest)). Qed.

(** Without a fence in it, a text has no fence body. *)
Lemma fence_body_none (s : string) :
  contains "```" s = false → fence_body s = None.
Proof.
  assert (∀ s, contains "```" s = false → startswith "```" (lstrip s) = false)
    as Hhead.
  { intros t Ht. destruct (startswith "```" (lstrip t)) eqn:Hst; [|done].
    destruct (lstrip_decompose t) as (v & _ & Hv).
    apply startswith_spec in Hst as [u Hu].
    apply contains_false in Ht. destruct Ht. exists v, u.
    by rewrite Hv at 1; rewrite Hu. }
  induction s as [|a s IH]; intros Hs.
  - rewrite fence_body_eq. by rewrite (Hhead "").
  - rewrite fence_body_cons by by apply Hhead.
    rewrite IH; [done|].
    change (contains "```" (String a s))
      with (startswith "```" (String a s) || contains "```" s) in Hs.
    by apply orb_false_iff in Hs as [_ ?].
Qed.

Lemma startswith_app_other (p x : string) (c : Ascii.ascii) (t : string) :
  contains (String c "") p = false →
  startswith p (x +:+ String c t) = startswith p x.
Proof.
  revert x. induction p as [|a p IH]; intros x Hc; [done|].
  assert (c ≠ a ∧ contains (String c "") p = false) as [Hca Hp].
  { simpl in Hc. case_decide; [done|]. by split. }
  destruct x as [|b x].
  - rewrite append_nil_l. simpl. by rewrite decide_False by congruence.
  - rewrite append_cons. simpl. case_decide; [by apply IH | done].
Qed.

Lemma not_in_json (c : Ascii.ascii) :
  (byte c ≤ 96 ∨ 0x80 ≤ byte c)%N → contains (String c "") "json" = false.
Proof.
  intros Hc. simpl.
  rewrite !decide_False; [done|..]; intros ->;
    unfold byte in Hc; simpl N_of_ascii in Hc; lia.
Qed.

Lemma not_in_fence (c : Ascii.ascii) :
  c ≠ "`"%char → contains (String c "") "```" = false.
Proof. intros Hc. simpl. by rewrite !decide_False. Qed.

Lemma skip_json_tag_suffix (s : string) :
  ∃ u, s = u +:+ skip_json_tag s.
Proof.
  unfold skip_json_tag. destruct (startswith "json" s) eqn:Hs; [|by exists ""].
  apply startswith_spec in Hs as [t ->]. by exists "json".
Qed.

Lemma skip_json_tag_other (x : string) (c : Ascii.ascii) (t : string) :
  (byte c ≤ 96 ∨ 0x80 ≤ byte c)%N →
  skip_json_tag (x +:+ String c t) = skip_json_tag x +:+ String c t.
Proof.
  intros Hc. unfold skip_json_tag.
  rewrite startswith_app_other by by apply not_in_json.
  destruct (startswith "json" x) eqn:Hx; [|done].
  by apply startswith_spec in Hx as [u ->].
Qed.

Lemma contains_suffix (p u s : string) :
  contains p (u +:+ s) = false → contains p s = false.
Proof.
  intros Hus. apply contains_false. intros (b & a & ->).
  apply contains_false in Hus. destruct Hus. exists (u +:+ b), a.
  by rewrite append_assoc.
Qed.

Lemma no_tick_lstrip (s : string) :
  contains "`" s = false → contains "`" (lstrip s) = false.
Proof.
  intros Hs. destruct (lstrip_decompose s) as (v & _ & Hv).
  rewrite Hv in Hs. by apply contains_suffix in Hs.
Qed.

(** The fence search on a text whose first fence is closed, with no
    backquote inside. *)
Lemma fence_search_closed (before body rest : string) :
  contains "`" before = false →
  contains "`" body = false →
  fence_search (before +:+ "```" +:+ body +:+ "```" +:+ rest)
  = Some (strip (skip_json_tag body)).
Proof.
  intros Hbefore Hbody. unfold fence_search.
  rewrite after_fence_prefix by done. simpl.
  change ("```" +:+ rest) with (String "`"%char ("``" +:+ rest)).
  rewrite skip_json_tag_other by (rewrite byte_tick; lia).
  rewrite lstrip_app_tick. apply fence_body_closed_at; [|done].
  apply no_tick_lstrip. destruct (skip_json_tag_suffix body) as [u Hu].
  rewrite Hu in Hbody. by apply contains_suffix in Hbody.
Qed.

Lemma reply_json_text_tagged (before body rest : string) :
  contains "`" before = false →
  contains "`" body = false →
  reply_json_text (before +:+ "```json" +:+ body +:+ "```" +:+ rest) = strip body.
Proof.
  intros Hbefore Hbody. unfold reply_json_text.
  change ("```json" +:+ body +:+ "```" +:+ rest)
    with ("```" +:+ ("json" +:+ body) +:+ "```" +:+ rest).
  rewrite fence_search_closed; [|done|].
  - simpl. apply strip_idemp.
  - apply contains_tick_app. by split.
Qed.

Lemma reply_json_text_untagged (before body rest : string) :
  contains "`" before = false →
  contains "`" body = false →
  startswith "json" body = false →
  reply_json_text (before +:+ "```" +:+ body +:+ "```" +:+ rest) = strip body.
Proof.
  intros Hbefore Hbody Htag. unfold reply_json_text.
  rewrite fence_search_closed by done. simpl.
  unfold skip_json_tag. rewrite Htag. apply strip_idemp.
Qed.

Lemma reply_json_text_plain (text : string) :
  contains "```" text = false → reply_json_text text = strip text.
Proof.
  intros Hno. unfold reply_json_text, fence_search.
  by rewrite after_fence_none.
Qed.

(** X1.  A reply that holds its JSON inside a code fence, tagged [json] or
    not, with no backquote before the fence or inside it, is unwrapped:
    [json.loads] receives the content of the fence without the white space
    around it, which is what it receives when the same content is sent
    without a fence.  Whatever follows the closing fence is ignored. *)
Theorem fenced_reply_unwrapped (before body rest : string) :
  contains "`" before = false →
  contains "`" body = false →
  reply_json_text (before +:+ "```json" +:+ body +:+ "```" +:+ rest) = strip body
  ∧ (startswith "json" body = false →
     reply_json_text (before +:+ "```" +:+ body +:+ "```" +:+ rest) = strip body)
  ∧ reply_json_text body = strip body.
Proof.
  intros Hbefore Hbody. split; [|split].
  - by apply reply_json_text_tagged.
  - by apply reply_json_text_untagged.
  - by apply reply_json_text_plain, no_tick_no_fence.
Qed.

(** X2.  A reply whose first code fence is never closed, as when the reply
    is cut off, is not unwrapped: the search finds nothing and
    [json.loads] receives the whole reply, stripped, with the fence marker
    still in it. *)
Theorem unclosed_fence_kept (before r : string) :
  contains "`" before = false →
  contains "```" r = false →
  fence_search (before +:+ "```" +:+ r) = None
  ∧ reply_json_text (before +:+ "```" +:+ r) = strip (before +:+ "```" +:+ r).
Proof.
  intros Hbefore Hr.
  assert (fence_search (before +:+ "```" +:+ r) = None) as Hnone.
  { unfold fence_search. rewrite after_fence_prefix by done. simpl.
    apply fence_body_none.
    destruct (skip_json_tag_suffix r) as [u Hu].
    destruct (lstrip_decompose (skip_json_tag r)) as (v & _ & Hv).
    rewrite Hu, Hv, <- append_assoc in Hr. by apply contains_suffix in Hr. }
  split; [done|]. unfold reply_json_text. by rewrite Hnone.
Qed.

Lemma rstrip_cons (a : Ascii.ascii) (r : string) :
  rstrip (String a r)
  = if all_space (String a r) then "" else String a (rstrip r).
Proof. done. Qed.

Lemma space_char_spaces (w : string) : space_char w → spaces w.
Proof.
  intros Hw. rewrite <- (append_nil_r w). apply spaces_cons; [done|constructor].
Qed.

Lemma rstrip_no_trailing (x w : string) :
  space_char w → rstrip (x +:+ w) ≠ x +:+ w.
Proof.
  intros Hw. induction x as [|a x IH].
  - rewrite append_nil_l.
    assert (all_space w = true) as Hall
      by by apply all_space_spaces, space_char_spaces.
    apply space_char_length in Hw. destruct w as [|c w]; [simpl in Hw; lia|].
    by rewrite rstrip_cons, Hall.
  - rewrite append_cons, rstrip_cons.
    destruct (all_space (String a (x +:+ w))); [done|]. congruence.
Qed.

Lemma strip_no_space_at_ends (s w rest : string) :
  space_char w → strip s ≠ w +:+ rest ∧ strip s ≠ rest +:+ w.
Proof.
  intros Hw. split; intros Heq.
  - assert (lstrip (strip s) = strip s) as Hfixed
      by apply lstrip_rstrip, lstrip_idemp.
    rewrite Heq in Hfixed. by apply lstrip_fixed_no_space in Hfixed.
  - assert (rstrip (strip s) = strip s) as Hfixed by apply rstrip_idemp.
    rewrite Heq in Hfixed. by apply rstrip_no_trailing in Hfixed.
Qed.

(** X3.  [strip] removes white space from the two ends and nothing else:
    the text is what it returns between two runs of white space, and
    what it returns neither starts nor ends with a white-space character.
    The string [score_job] hands to [json.loads] is of this kind whatever
    the reply, and for a reply without a code fence it is the reply
    stripped. *)
Theorem reply_json_text_stripped (text : string) :
  (∃ u v, spaces u ∧ spaces v ∧ text = u +:+ strip text +:+ v)
  ∧ (∀ w rest, space_char w →
       strip text ≠ w +:+ rest ∧ strip text ≠ rest +:+ w)
  ∧ (∀ w rest, space_char w →
       reply_json_text text ≠ w +:+ rest ∧ reply_json_text text ≠ rest +:+ w)
  ∧ (contains "```" text = false → reply_json_text text = strip text).
Proof.
  split_and!.
  - destruct (lstrip_decompose text) as (u & Hu & Htext).
    destruct (rstrip_decompose (lstrip text)) as (v & Hv & Hrest).
    exists u, v. split; [done|]. split; [done|].
    unfold strip. by rewrite <- Hrest.
  - intros w rest. apply strip_no_space_at_ends.
  - intros w rest. unfold reply_json_text. apply strip_no_space_at_ends.
  - apply reply_json_text_plain.
Qed.

Lemma spaces_inv (v : string) :
  spaces v → v = "" ∨ ∃ c t, v = String c t ∧ space_lead c.
Proof.
  intros Hv. destruct v as [|c t]; [by left|right].
  exists c, t. split; [done|]. by apply spaces_head in Hv.
Qed.

Lemma space_lead_no_tick (c : Ascii.ascii) : space_lead c → c ≠ "`"%char.
Proof.
  intros Hc%space_lead_range. apply not_tick. lia.
Qed.

Lemma startswith_fence_app_spaces (x v : string) :
  spaces v → startswith "```" (x +:+ v) = startswith "```" x.
Proof.
  intros [->|(c & t & -> & Hc)]%spaces_inv; [by rewrite append_nil_r|].
  apply startswith_app_other, not_in_fence. by apply space_lead_no_tick.
Qed.

Lemma skip_json_tag_app_spaces (x v : string) :
  spaces v → skip_json_tag (x +:+ v) = skip_json_tag x +:+ v.
Proof.
  intros [->|(c & t & -> & Hc)]%spaces_inv; [by rewrite !append_nil_r|].
  apply skip_json_tag_other. apply space_lead_range in Hc. lia.
Qed.

Lemma after_fence_app_no_tick (u s : string) :
  contains "`" u = false → after_fence (u +:+ s) = after_fence s.
Proof.
  induction u as [|a u IH]; intros Hu; [by rewrite append_nil_l|].
  apply contains_tick_cons in Hu as [Ha Hu].
  rewrite append_cons, after_fence_cons by by apply startswith_fence_other.
  by apply IH.
Qed.

Lemma after_fence_app_spaces (m v : string) :
  spaces v → after_fence (m +:+ v) = (λ r, r +:+ v) <$> after_fence m.
Proof.
  intros Hv. induction m as [|a m IH].
  - rewrite append_nil_l. simpl.
    by apply after_fence_none, no_tick_no_fence, spaces_no_tick.
  - rewrite (after_fence_eq (String a m +:+ v)), (after_fence_eq (String a m)).
    rewrite startswith_fence_app_spaces by done.
    destruct (startswith "```" (String a m)) eqn:Hm.
    + apply startswith_spec in Hm as [r Hr].
      change ("```" +:+ r) with (String "`" (String "`" (String "`" r))) in Hr.
      by injection Hr as -> ->.
    + by rewrite append_cons.
Qed.

Lemma fence_body_app_spaces (y v : string) :
  spaces v → fence_body (y +:+ v) = fence_body y.
Proof.
  intros Hv. induction y as [|a y IH].
  - rewrite append_nil_l. simpl.
    by apply fence_body_none, no_tick_no_fence, spaces_no_tick.
  - rewrite (fence_body_eq (String a y +:+ v)), (fence_body_eq (String a y)).
    rewrite lstrip_app_spaces by done.
    destruct (all_space (String a y)) eqn:Hy.
    + apply all_space_lstrip in Hy. rewrite Hy. simpl startswith. cbv iota.
      by rewrite append_cons, IH.
    + rewrite startswith_fence_app_spaces by done.
      by rewrite append_cons, IH.
Qed.

Lemma fence_search_app_spaces (m v : string) :
  spaces v → fence_search (m +:+ v) = fence_search m.
Proof.
  intros Hv. unfold fence_search. rewrite after_fence_app_spaces by done.
  destruct (after_fence m) as [r|]; [simpl|done].
  rewrite skip_json_tag_app_spaces, lstrip_app_spaces by done.
  destruct (all_space (skip_json_tag r)) eqn:Hr.
  - apply all_space_lstrip in Hr. by rewrite Hr.
  - by apply fence_body_app_spaces.
Qed.

Lemma fence_search_lstrip (text : string) :
  fence_search (lstrip text) = fence_search text.
Proof.
  destruct (lstrip_decompose text) as (v & Hv & Htext).
  rewrite Htext at 2. unfold fence_search.
  by rewrite after_fence_app_no_tick by by apply spaces_no_tick.
Qed.

Lemma fence_search_strip (text : string) :
  fence_search (strip text) = fence_search text.
Proof.
  unfold strip. destruct (rstrip_decompose (lstrip text)) as (v & Hv & Htext).
  transitivity (fence_search (lstrip text)); [|apply fence_search_lstrip].
  rewrite Htext at 2. by rewrite fence_search_app_spaces.
Qed.

Lemma fence_body_split (s b : string) :
  fence_body s = Some b →
  ∃ s', s = b +:+ s' ∧ startswith "```" (lstrip s') = true.
Proof.
  revert b. induction s as [|a s IH]; intros b; rewrite fence_body_eq.
  - destruct (startswith "```" (lstrip "")) eqn:Hs; [|done].
    intros [= <-]. by exists "".
  - destruct (startswith "```" (lstrip (String a s))) eqn:Hs.
    + intros [= <-]. by exists (String a s).
    + destruct (fence_body s) as [b'|]; [|done]. intros [= <-].
      destruct (IH b' eq_refl) as (s' & -> & Hs'). by exists s'.
Qed.

Lemma fence_body_rstripped (s b : string) :
  fence_body s = Some b → rstrip b = b.
Proof.
  revert b. induction s as [|a s IH]; intros b; rewrite fence_body_eq.
  - destruct (startswith "```" (lstrip "")); [by intros [= <-]|done].
  - destruct (startswith "```" (lstrip (String a s))) eqn:Hs;
      [by intros [= <-]|].
    destruct (fence_body s) as [b'|] eqn:Hb; [|done]. intros [= <-].
    rewrite rstrip_cons, (IH b' eq_refl).
    destruct (all_space (String a b')) eqn:Hsp; [|done].
    apply all_space_spaces in Hsp.
    destruct (fence_body_split _ _ Hb) as (s' & -> & Hs').
    rewrite <- append_cons, lstrip_spaces_app in Hs by done. congruence.
Qed.

Lemma fence_body_lstripped (s b : string) :
  lstrip s = s → fence_body s = Some b → lstrip b = b.
Proof.
  intros Hs Hb. destruct (fence_body_split _ _ Hb) as (s' & -> & _).
  destruct (lstrip_inv b) as [|(w & b' & Hw & -> & _)]; [done|].
  rewrite append_assoc in Hs. by apply lstrip_fixed_no_space in Hs.
Qed.

Lemma fence_search_stripped (text b : string) :
  fence_search text = Some b → strip b = b.
Proof.
  unfold fence_search. destruct (after_fence text) as [r|]; [simpl|done].
  intros Hb. unfold strip.
  rewrite (fence_body_lstripped _ _ (lstrip_idemp _) Hb).
  by apply fence_body_rstripped in Hb.
Qed.

(** X4.  [tailor_resume] strips the reply before it looks for a code fence
    and [score_job] strips after: the two orders hand the same string to
    [json.loads], whatever the reply.  When a fence is found, what it
    holds is already free of white space at both ends. *)
Theorem tailoring_json_text_agrees (text : string) :
  tailoring_json_text text = reply_json_text text
  ∧ ∀ b, fence_search text = Some b → reply_json_text text = b.
Proof.
  unfold tailoring_json_text, reply_json_text. rewrite fence_search_strip.
  destruct (fence_search text) as [b|] eqn:Hb; simpl.
  - apply fence_search_stripped in Hb. split; [done|]. by intros ? [= <-].
  - done.
Qed.


Lemma run_discovery_ids_NoDup (p : preferences) (calls : list call)
    (out : list scored_job) :
  run_discovery p = (calls, Returned out) → NoDup (sj_external_id <$> out).
Proof.
  unfold run_discovery.
  destruct (read_settings p) as [[[[excl deal] m] queries]|e]; [|done].
  destruct (rank_results p excl deal m (imap search_jobs queries))
    as [calls' result] eqn:Hrank.
  intros [= _ ->].
  assert ((rank_results p excl deal m (imap search_jobs queries)).2
          = Returned out) as Hout by by rewrite Hrank.
  apply rank_results_returned in Hout as (added & Hadded & ->).
  rewrite (sort_reverse_perm sj_score (omap id added)).
  apply added_in_order in Hadded.
  assert (sj_external_id <$> omap id added
          = cand_id <$> (origin <$> omap id added)) as ->.
  { by rewrite <- list_fmap_compose. }
  eapply sublist_NoDup; [apply surviving_ids_NoDup|].
  by apply fmap_sublist.
Qed.

Lemma run_discovery_sorted (p : preferences) (calls : list call)
    (out : list scored_job) :
  run_discovery p = (calls, Returned out) →
  StronglySorted (descending sj_score) out.
Proof.
  unfold run_discovery.
  destruct (read_settings p) as [[[[excl deal] m] queries]|e]; [|done].
  destruct (rank_results p excl deal m (imap search_jobs queries))
    as [calls' result] eqn:Hrank.
  intros [= _ ->].
  assert ((rank_results p excl deal m (imap search_jobs queries)).2
          = Returned out) as Hout by by rewrite Hrank.
  apply rank_results_returned in Hout as (added & _ & ->).
  apply sort_reverse_sorted.
Qed.


Lemma Forall2_exists {A B} (P : A → B → Prop) (l : list A) :
  (∀ x, x ∈ l → ∃ y, P x y) → ∃ k, Forall2 P l k.
Proof.
  induction l as [|x l IH]; intros Hl; [by exists []|].
  destruct (Hl x (list_elem_of_here _ _)) as [y Hy].
  destruct IH as [k Hk].
  { intros x' Hx'. apply Hl. by apply list_elem_of_further. }
  exists (y :: k). by constructor.
Qed.

Lemma surface_returns (m : Qc) (c : candidate) (score_data : json) :
  (∃ o, surface m (Returned (c, score_data)) = Returned o) ↔ usable m score_data.
Proof.
  destruct c as [[external_id url] j]. unfold usable. simpl.
  destruct (getitem score_data "overall_score") as [overall|e]; simpl.
  - destruct (as_number overall) as [s|e]; simpl.
    + case_bool_decide as Hs.
      * destruct (getitem score_data "breakdown") as [b|e]; simpl.
        -- split; [|by eexists]. intros _. exists s. split; [done|]. by eexists.
        -- split; [by intros [? ?]|]. intros (s' & [= <-] & Hb).
           by destruct (Hb Hs).
      * split; [|by eexists]. intros _. exists s. by split.
    + split; [by intros [? ?]|by intros (? & ? & _)].
  - split; [by intros [? ?]|by intros (? & ? & _)].
Qed.

(** X17.  Once the settings of lines 151-157 have been read,
    [run_discovery] returns a list exactly when every reply that was
    decoded for a candidate is usable: it holds a number under
    ["overall_score"] and, if that number reaches the threshold, a
    ["breakdown"].  A reply below the threshold may lack its breakdown; a
    request that raised never makes the run raise. *)
Theorem run_returns_exactly_when (p : preferences) (excl deal : gset string)
    (m : Qc) (queries : list string) :
  read_settings p = Returned (excl, deal, m, queries) →
  (∃ out, (run_discovery p).2 = Returned out) ↔
  ∀ c score_data,
    c ∈ surviving excl deal (imap search_jobs queries) →
    (_score p c).2 = Returned (c, score_data) →
    usable m score_data.
Proof.
  intros Hsettings.
  rewrite (run_discovery_started p excl deal m queries Hsettings). simpl. split.
  - intros [out Hout] c score_data Hc Hscore.
    apply rank_results_returned in Hout as (added & Hall & _).
    apply list_elem_of_lookup_1 in Hc as [i Hi].
    destruct (Forall2_lookup_l _ _ _ _ _ Hall Hi) as (o & _ & Ho).
    rewrite Hscore in Ho. apply (proj1 (surface_returns m c score_data)).
    by exists o.
  - intros Husable.
    destruct (Forall2_exists (λ c o, surface m (_score p c).2 = Returned o)
                (surviving excl deal (imap search_jobs queries))) as [added Hall].
    { intros c Hc. destruct (_score p c).2 as [[c' score_data]|e] eqn:Hscore;
        [|by exists None].
      apply _score_returned in Hscore as Hsame. destruct Hsame as [-> _].
      apply (proj2 (surface_returns m c score_data)). by eapply Husable. }
    exists (sort_reverse sj_score (omap id added)).
    apply rank_results_returned. by exists added.
Qed.
End Discovery.

(** ** Provider failures *)



(** ** Replies without a usable score *)

(** C1 (the code departs from it).  On the sample board, when the request
    for one candidate raises, that candidate is left out and the two others
    are ranked; when its reply is valid JSON without ["overall_score"], or
    with an ["overall_score"] that is not a number, [run_discovery] raises
    and returns no list at all. *)
Theorem malformed_score_aborts_run :
  (run_discovery ascii_lower board_search claude_failing board_prefs).2
  = Returned [senior_pm_entry; director_entry]
  ∧ (run_discovery ascii_lower board_search claude_misnamed board_prefs).2
    = Raised (KeyError "overall_score")
  ∧ (run_discovery ascii_lower board_search claude_wordy board_prefs).2
    = Raised (TypeError "'>=' not supported between these instances").
Proof. repeat split; vm_compute; reflexivity. Qed.

(** ** The properties on the sample board *)

Lemma deduplicate_first_occurrence_witness :
  cand_job <$> deduplicate board_listings
  = [office_manager; senior_pm; product_lead; principal_pm; director]
  ∧ NoDup (cand_id <$> deduplicate board_listings)
  ∧ deduplicate board_listings
    = deduplicate ([office_manager; senior_pm; product_lead]
                   ++ [group_pm; principal_pm; director]).
Proof.
  destruct (deduplicate_first_occurrence board_listings)
    as (Hdistinct & _ & _ & _ & Hdropped & _).
  split; [vm_compute; reflexivity|]. split; [exact Hdistinct|].
  apply (Hdropped [office_manager; senior_pm; product_lead] senior_pm_again
                  [group_pm; principal_pm; director]); [reflexivity|].
  apply (bool_decide_unpack _). vm_compute. exact I.
Defined.

Lemma ranking_order_witness :
  run_discovery ascii_lower board_search board_claude board_prefs
  = ((run_discovery ascii_lower board_search board_claude board_prefs).1,
     Returned [product_lead_entry; senior_pm_entry; director_entry])
  ∧ StronglySorted (descending sj_score)
      [product_lead_entry; senior_pm_entry; director_entry]
  ∧ ∃ i j, i < j
      ∧ surviving ascii_lower (list_to_set (ascii_lower <$> ["Office Manager"]))
          (list_to_set (ascii_lower <$> ["Onsite"]))
          (imap (search_jobs board_search) board_queries) !! i
        = Some (origin senior_pm_entry)
      ∧ surviving ascii_lower (list_to_set (ascii_lower <$> ["Office Manager"]))
          (list_to_set (ascii_lower <$> ["Onsite"]))
          (imap (search_jobs board_search) board_queries) !! j
        = Some (origin director_entry).
Proof.
  assert (run_discovery ascii_lower board_search board_claude board_prefs
          = ((run_discovery ascii_lower board_search board_claude board_prefs).1,
             Returned [product_lead_entry; senior_pm_entry; director_entry]))
    as Hrun by (vm_compute; reflexivity).
  destruct (ranking_order ascii_lower board_search board_claude board_prefs
              _ _ _ _ _ _ eq_refl Hrun) as (Hsorted & _ & Hties & _).
  split; [exact Hrun|]. split; [exact Hsorted|].
  apply (Hties 1 2 senior_pm_entry director_entry);
    [lia | reflexivity | reflexivity | reflexivity].
Defined.

Lemma prefilter_rule_witness :
  _prefilter ascii_lower office_manager {["office manager"]} {["onsite"]} = false
  ∧ ¬ substring_of (ascii_lower "Office Manager")
        (ascii_lower (default "" (job_title (sj_raw_data senior_pm_entry)))).
Proof.
  split; [vm_compute; reflexivity|].
  apply (proj2 (prefilter_rule ascii_lower board_search board_claude)
           board_prefs ["Office Manager"]
           (run_discovery ascii_lower board_search board_claude board_prefs).1
           [product_lead_entry; senior_pm_entry; director_entry]
           senior_pm_entry "Office Manager").
  - reflexivity.
  - vm_compute. reflexivity.
  - apply list_elem_of_further, list_elem_of_here.
  - apply list_elem_of_here.
Defined.

Lemma threshold_filter_witness :
  run_discovery ascii_lower board_search board_claude board_prefs
  = ((run_discovery ascii_lower board_search board_claude board_prefs).1,
     Returned [product_lead_entry; senior_pm_entry; director_entry])
  ∧ Forall (λ o, (percent 80 ≤ sj_score o)%Qc)
      [product_lead_entry; senior_pm_entry; director_entry].
Proof.
  assert (run_discovery ascii_lower board_search board_claude board_prefs
          = ((run_discovery ascii_lower board_search board_claude board_prefs).1,
             Returned [product_lead_entry; senior_pm_entry; director_entry]))
    as Hrun by (vm_compute; reflexivity).
  split; [exact Hrun|]. apply Forall_forall.
  apply (threshold_filter ascii_lower board_search board_claude board_prefs
           _ _ _ _ _ _ eq_refl Hrun).
Defined.

Lemma semaphore_ceiling_witness :
  play board_claude board_prefs (candidate_of <$> board_listings)
    (start (candidate_of <$> board_listings))
    [Acquire 0; Acquire 1; Acquire 2; Acquire 3; Acquire 4]
  = Some {| permits := 0;
            tasks := [Scoring; Scoring; Scoring; Scoring; Scoring; Waiting; Waiting] |}
  ∧ in_flight {| permits := 0;
                 tasks := [Scoring; Scoring; Scoring; Scoring; Scoring; Waiting; Waiting] |}
    ≤ 5
  ∧ fire board_claude board_prefs (candidate_of <$> board_listings)
      {| permits := 0;
         tasks := [Scoring; Scoring; Scoring; Scoring; Scoring; Waiting; Waiting] |}
      (Acquire 5)
    = None.
Proof.
  assert (play board_claude board_prefs (candidate_of <$> board_listings)
            (start (candidate_of <$> board_listings))
            [Acquire 0; Acquire 1; Acquire 2; Acquire 3; Acquire 4]
          = Some {| permits := 0;
                    tasks := [Scoring; Scoring; Scoring; Scoring; Scoring;
                              Waiting; Waiting] |})
    as Hplay by (vm_compute; reflexivity).
  destruct (semaphore_ceiling board_claude board_prefs _ _ _ Hplay)
    as (Hle & _ & Hfull).
  split; [exact Hplay|]. split; [exact Hle|].
  apply Hfull. vm_compute. reflexivity.
Defined.

Lemma rejected_listing_registers_witness :
  canonical_url group_pm = canonical_url office_manager
  ∧ _prefilter ascii_lower group_pm {["office manager"]} {["onsite"]} = true
  ∧ ∀ ctx, OracleCall ctx group_pm
           ∉ (rank_results ascii_lower board_claude board_prefs
                {["office manager"]} {["onsite"]} (percent 80)
                (imap (search_jobs board_search) board_queries)).1.
Proof.
  split; [reflexivity|]. split; [vm_compute; reflexivity|].
  destruct (rejected_listing_registers ascii_lower board_search board_claude
              board_prefs {["office manager"]} {["onsite"]} (percent 80)
              (imap (search_jobs board_search) board_queries))
    as (_ & _ & Hblocked & _).
  destruct (Hblocked [] office_manager
              [senior_pm; product_lead; senior_pm_again; group_pm;
               principal_pm; director])
    as (_ & Hcalls & _).
  - reflexivity.
  - apply not_elem_of_nil.
  - vm_compute. reflexivity.
  - intros ctx Hin. by apply (Hcalls ctx group_pm Hin).
Defined.

(** ** The canonical URL *)

(** The specification's wording gives the (empty) link of the first apply
    option; [run_discovery] falls back on the generic link. *)
Lemma canonical_url_not_first_link :
  spec_canonical_url linkless_apply_option = ""
  ∧ canonical_url linkless_apply_option = "https://jobs.example.com/9"
  ∧ canonical_url linkless_apply_option ≠ spec_canonical_url linkless_apply_option.
Proof. repeat split. discriminate. Qed.

Lemma canonical_url_choice_witness :
  canonical_url two_apply_options = "https://apply.example.com/a"
  ∧ canonical_url linkless_apply_option = default "" (job_link linkless_apply_option).
Proof.
  destruct (canonical_url_choice ascii_lower board_claude) as (Hfirst & Hgeneric & _).
  split.
  - apply (Hfirst two_apply_options
             {| ao_link := Some "https://apply.example.com/a" |}
             [{| ao_link := Some "https://apply.example.com/b" |}]);
      [reflexivity | reflexivity | discriminate].
  - apply Hgeneric. intros first rest l [= <- <-]. discriminate.
Defined.

(** ** Missing preferences *)



(** ** Examples *)

Example board_run :
  (run_discovery ascii_lower board_search board_claude board_prefs).2
  = Returned [product_lead_entry; senior_pm_entry; director_entry].
Proof. vm_compute. reflexivity. Qed.

(** The scenario of section 8 of the specification: one entry, for "u2",
    scored once. *)
Example scenario_run :
  run_discovery ascii_lower scenario_search scenario_claude scenario_prefs
  = ([SearchCall "PM remote"; SearchCall "Senior PM";
      OracleCall
        {| ctx_target_titles := ["Senior PM"];
           ctx_location_requirement := "remote";
           ctx_min_salary := 0;
           ctx_preferred_company_sizes := [];
           ctx_preferred_industries := [];
           ctx_scoring_weights := [] |}
        (scenario_listing "Senior PM" "u2")],
     Returned
       [{| sj_external_id := "270c1b084f3f146eb5787075158d9c53";
           sj_title := "Senior PM";
           sj_company := "Unknown";
           sj_location := "Unknown";
           sj_description := "";
           sj_url := "u2";
           sj_source := "google_jobs";
           sj_posted_date := None;
           sj_score := percent 91;
           sj_score_breakdown := JObj [];
           sj_raw_data := scenario_listing "Senior PM" "u2" |}]).
Proof. vm_compute. reflexivity. Qed.

Example md5_empty : MD5.hexdigest "" = "d41d8cd98f00b204e9800998ecf8427e".
Proof. vm_compute. reflexivity. Qed.

Example md5_abc : MD5.hexdigest "abc" = "900150983cd24fb0d6963f7d28e17f72".
Proof. vm_compute. reflexivity. Qed.

Example md5_one_block :
  MD5.hexdigest "aaaaaaaaaaaaaaaaaaaaaaaaaaaaaaaaaaaaaaaaaaaaaaaaaaaaaaaa"
  = "3b0c8ac703f828b04c6c197006d17218".
Proof. vm_compute. reflexivity. Qed.

Example md5_two_blocks :
  MD5.hexdigest "aaaaaaaaaaaaaaaaaaaaaaaaaaaaaaaaaaaaaaaaaaaaaaaaaaaaaaaaaaaaaaaa"
  = "014842d480b571495a4a0363793f7367".
Proof. vm_compute. reflexivity. Qed.

Example one_by_one_finishes :
  (play board_claude board_prefs (candidate_of <$> board_listings)
     (start (candidate_of <$> board_listings)) (one_by_one 7)) ≫= gathered
  = Some (snd ∘ _score board_claude board_prefs <$> (candidate_of <$> board_listings)).
Proof. vm_compute. reflexivity. Qed.
(** ** Fenced replies *)



(** ** The jobs table *)

Lemma NoDup_fmap_eq {A B} (f : A → B) (l : list A) (x y : A) :
  NoDup (f <$> l) → x ∈ l → y ∈ l → f x = f y → x = y.
Proof.
  induction l as [|a l IH]; [by intros _ ?%elem_of_nil|].
  rewrite fmap_cons, NoDup_cons. intros [Ha Hl].
  rewrite !elem_of_cons. intros [->|Hx] [->|Hy] Hf; [done| | |by apply IH].
  - destruct Ha. rewrite Hf. by apply list_elem_of_fmap_2.
  - destruct Ha. rewrite <- Hf. by apply list_elem_of_fmap_2.
Qed.

Lemma omap_fmap_same {A B} (f : A → option B) (g : A → A) (l : list A) :
  (∀ x, f (g x) = f x) → omap f (g <$> l) = omap f l.
Proof.
  intros Hsame. induction l as [|x l IH]; [done|].
  csimpl. by rewrite Hsame, IH.
Qed.

Lemma insert_job_stored (R : runtime) (job : scored_job) (db : jobs_db) :
  sj_external_id job ∈ external_ids db →
  insert_job R job db
  = ({| db_jobs := db_jobs db;
        db_sequence := db_sequence db + Z.of_nat (burnt_rowids R db);
        db_statements := S (db_statements db) |}, 0%Z).
Proof. intros Hid. unfold insert_job. by rewrite bool_decide_eq_true_2. Qed.

Lemma insert_job_fresh (R : runtime) (job : scored_job) (db : jobs_db) :
  sj_external_id job ∉ external_ids db →
  insert_job R job db
  = ({| db_jobs := db_jobs db
          ++ [new_row R (db_sequence db + 1) (datetime_now R (db_statements db)) job];
        db_sequence := db_sequence db + 1;
        db_statements := S (db_statements db) |}, (db_sequence db + 1)%Z).
Proof. intros Hid. unfold insert_job. by rewrite bool_decide_eq_false_2. Qed.

Lemma external_ids_insert (R : runtime) (job : scored_job) (db : jobs_db) :
  external_ids (insert_job R job db).1
  = if bool_decide (sj_external_id job ∈ external_ids db) then external_ids db
    else external_ids db ++ [sj_external_id job].
Proof.
  unfold insert_job. case_bool_decide; [done|].
  unfold external_ids. simpl. by rewrite omap_app.
Qed.

Lemma external_ids_inserted (R : runtime) (job : scored_job) (db : jobs_db) :
  sj_external_id job ∈ external_ids (insert_job R job db).1.
Proof.
  rewrite external_ids_insert. case_bool_decide; [done|].
  apply elem_of_app. right. apply list_elem_of_here.
Qed.

Lemma db_ok_new : db_ok new_database.
Proof.
  unfold db_ok, external_ids. simpl. split; [constructor|].
  split; [constructor|]. split; [done|]. by intros r ?%elem_of_nil.
Qed.

Lemma db_ok_insert (R : runtime) (job : scored_job) (db : jobs_db) :
  db_ok db → db_ok (insert_job R job db).1.
Proof.
  intros (Hids & Hext & Hpos & Hseq).
  split; [|split; [rewrite external_ids_insert; case_bool_decide; [done|]|split]].
  - unfold insert_job. case_bool_decide; [done|]. simpl.
    rewrite fmap_app. apply NoDup_app. split; [done|]. split.
    + intros rowid (r & -> & Hr%Hseq)%list_elem_of_fmap. simpl.
      intros ?%list_elem_of_singleton. lia.
    + apply NoDup_singleton.
  - apply NoDup_app. split; [done|]. split; [|apply NoDup_singleton].
    by intros eid Heid ->%list_elem_of_singleton.
  - unfold insert_job. case_bool_decide; simpl; lia.
  - unfold insert_job. case_bool_decide; simpl.
    + intros r Hr%Hseq. lia.
    + intros r [Hr%Hseq| ->%list_elem_of_singleton]%elem_of_app; simpl; lia.
Qed.

Lemma update_keeps_ids (R : runtime) (job_id : Z) (status : string) (db : jobs_db) :
  row_id <$> db_jobs (update_job_status R job_id status db) = row_id <$> db_jobs db.
Proof.
  unfold update_job_status. simpl. rewrite <- list_fmap_compose.
  apply list_fmap_ext. intros _ r _. simpl. by case_decide.
Qed.

Lemma update_keeps_external_ids (R : runtime) (job_id : Z) (status : string)
    (db : jobs_db) :
  external_ids (update_job_status R job_id status db) = external_ids db.
Proof.
  unfold update_job_status, external_ids. simpl.
  apply omap_fmap_same. intros r. by case_decide.
Qed.

Lemma db_ok_update (R : runtime) (job_id : Z) (status : string) (db : jobs_db) :
  db_ok db → db_ok (update_job_status R job_id status db).
Proof.
  intros (Hids & Hext & Hpos & Hseq).
  split; [by rewrite update_keeps_ids|].
  split; [by rewrite update_keeps_external_ids|]. split; [done|].
  intros r' (r & -> & Hr%Hseq)%list_elem_of_fmap.
  by case_decide.
Qed.

Lemma filter_ext_elem {A} (P Q : A → Prop) `{!∀ x, Decision (P x)}
    `{!∀ x, Decision (Q x)} (l : list A) :
  (∀ x, x ∈ l → P x ↔ Q x) → filter P l = filter Q l.
Proof.
  induction l as [|a l IH]; intros Hl; [done|].
  rewrite !filter_cons, IH.
  - destruct (decide (P a)) as [HP|HP], (decide (Q a)) as [HQ|HQ]; try done.
    + destruct HQ. apply Hl; [apply list_elem_of_here|done].
    + destruct HP. apply Hl; [apply list_elem_of_here|done].
  - intros x Hx. apply Hl. by apply list_elem_of_further.
Qed.

Lemma not_stored_insert_stored (R : runtime) (job : scored_job) (db : jobs_db)
    (rest : list scored_job) :
  sj_external_id job ∈ external_ids db →
  not_stored (insert_job R job db).1 rest = not_stored db rest.
Proof.
  intros Hid. unfold not_stored.
  by rewrite external_ids_insert, bool_decide_eq_true_2.
Qed.

Lemma not_stored_insert_fresh (R : runtime) (job : scored_job) (db : jobs_db)
    (rest : list scored_job) :
  sj_external_id job ∉ sj_external_id <$> rest →
  not_stored (insert_job R job db).1 rest = not_stored db rest.
Proof.
  intros Hrest. unfold not_stored. apply filter_ext_elem. intros o Ho.
  rewrite external_ids_insert. case_bool_decide; [done|].
  rewrite elem_of_app, list_elem_of_singleton.
  split; [tauto|]. intros Hno [Hin|Heq]; [done|].
  destruct Hrest. rewrite <- Heq. by apply list_elem_of_fmap_2.
Qed.

Lemma save_job_stored (R : runtime) (job : scored_job) (db : jobs_db) (k : nat) :
  sj_external_id job ∈ external_ids db →
  save_job R (db, k) job = ((insert_job R job db).1, k)
  ∧ db_jobs (insert_job R job db).1 = db_jobs db
  ∧ external_ids (insert_job R job db).1 = external_ids db.
Proof.
  intros Hid. unfold save_job. rewrite external_ids_insert.
  by rewrite bool_decide_eq_true_2, insert_job_stored by done.
Qed.

Lemma save_job_fresh (R : runtime) (job : scored_job) (db : jobs_db) (k : nat) :
  db_ok db →
  sj_external_id job ∉ external_ids db →
  save_job R (db, k) job = ((insert_job R job db).1, S k)
  ∧ db_jobs (insert_job R job db).1
    = db_jobs db
      ++ [new_row R (db_sequence db + 1) (datetime_now R (db_statements db)) job]
  ∧ external_ids (insert_job R job db).1
    = external_ids db ++ [sj_external_id job].
Proof.
  intros (_ & _ & Hpos & _) Hid. unfold save_job. rewrite external_ids_insert.
  rewrite bool_decide_eq_false_2, insert_job_fresh by done. simpl.
  by rewrite decide_False by lia.
Qed.

Lemma save_loop (R : runtime) (jobs : list scored_job) (db : jobs_db) (k : nat) :
  db_ok db →
  NoDup (sj_external_id <$> jobs) →
  ∃ rows,
    db_jobs (foldl (save_job R) (db, k) jobs).1 = db_jobs db ++ rows
    ∧ Forall2 (row_of R) (not_stored db jobs) rows
    ∧ (foldl (save_job R) (db, k) jobs).2 = k + length (not_stored db jobs)
    ∧ external_ids (foldl (save_job R) (db, k) jobs).1
      = external_ids db ++ (sj_external_id <$> not_stored db jobs)
    ∧ db_ok (foldl (save_job R) (db, k) jobs).1.
Proof.
  revert db k. induction jobs as [|job rest IH]; intros db k Hok Hjobs.
  { exists []. simpl. rewrite !app_nil_r. split; [done|].
    split; [constructor|]. split; [lia|done]. }
  rewrite fmap_cons, NoDup_cons in Hjobs. destruct Hjobs as [Hjob Hrest].
  pose proof (db_ok_insert R job db Hok) as Hok'.
  change (foldl (save_job R) (db, k) (job :: rest))
    with (foldl (save_job R) (save_job R (db, k) job) rest).
  destruct (decide (sj_external_id job ∈ external_ids db)) as [Hid|Hid].
  - destruct (save_job_stored R job db k Hid) as (-> & Hrows1 & Hext).
    destruct (IH _ k Hok' Hrest) as (rows & Hrows & Hnew & Hk & Hids & Hok'').
    rewrite (not_stored_insert_stored R job db rest Hid) in *.
    rewrite Hrows1, Hext in *.
    exists rows. unfold not_stored at 1 2 3. rewrite filter_cons_False by tauto.
    by fold (not_stored db rest).
  - destruct (save_job_fresh R job db k Hok Hid) as (-> & Hrows1 & Hext).
    destruct (IH _ (S k) Hok' Hrest) as (rows & Hrows & Hnew & Hk & Hids & Hok'').
    rewrite (not_stored_insert_fresh R job db rest Hjob) in *.
    rewrite Hrows1, Hext in *.
    exists (new_row R (db_sequence db + 1) (datetime_now R (db_statements db)) job
            :: rows).
    unfold not_stored at 1 2 3. rewrite filter_cons_True by done.
    fold (not_stored db rest).
    rewrite Hrows, Hk, Hids, <- !app_assoc. simpl.
    split; [done|]. split; [|split; [lia|done]].
    constructor; [|done]. by eexists _, _.
Qed.

Lemma store_results_eq (R : runtime) (jobs : list scored_job) (db : jobs_db) :
  store_results R jobs db
  = ({| report_status := "ok";
        found := length jobs;
        saved := (foldl (save_job R) (db, 0) jobs).2;
        top_jobs :=
          (λ j, {| top_title := sj_title j;
                   top_company := sj_company j;
                   top_score := round2 R (sj_score j) |}) <$> take 5 jobs |},
     (foldl (save_job R) (db, 0) jobs).1).
Proof. unfold store_results. by destruct (foldl (save_job R) (db, 0) jobs). Qed.

Lemma get_anthropic_client_ok (env : environ) (client cached : option string)
    (c : string) :
  get_anthropic_client env client = (Ok c, cached) →
  cached = Some c ∧ get_anthropic_client env cached = (Ok c, cached).
Proof.
  unfold get_anthropic_client. destruct client as [c'|].
  - by intros [= -> <-].
  - destruct (ANTHROPIC_API_KEY env) as [api_key|]; [|done].
    destruct (negb (truthy api_key) || _); [done|]. by intros [= -> <-].
Qed.

Lemma trigger_discovery_ok (lower : string → string)
    (google_jobs : nat → string → outcome (list job))
    (claude : scoring_context → job → outcome json)
    (R : runtime) (env : environ) (p : preferences) (st st' : app_state)
    (calls : list call) (report : discovery_report) :
  trigger_discovery lower google_jobs claude R env p st = (calls, Ok report, st') →
  unconfigured "your_serpapi_key_here" (SERPAPI_API_KEY env) = false
  ∧ ∃ client out,
      get_anthropic_client env (_anthropic_client st)
      = (Ok client, _anthropic_client st')
      ∧ run_discovery lower google_jobs claude p = (calls, Returned out)
      ∧ store_results R out (database st) = (report, database st').
Proof.
  unfold trigger_discovery.
  destruct (unconfigured _ (SERPAPI_API_KEY env)); [done|].
  destruct (get_anthropic_client env (_anthropic_client st))
    as [[client| |] cached]; [|done..].
  destruct (run_discovery lower google_jobs claude p) as [calls' [out|e]]; [|done].
  destruct (store_results R out (database st)) as [report' db] eqn:Hstore.
  intros [= -> -> <-]. split; [done|]. by exists client, out.
Qed.

(** X12.  When [trigger_discovery] answers, [found] counts the jobs the run
    returned and [saved] those among them whose [external_id] was not in
    the table: one row is added for each of these, in the order of the
    run's list, after the rows already there, which stay as they were. *)
Theorem discovery_saves_new_listings (lower : string → string)
    (google_jobs : nat → string → outcome (list job))
    (claude : scoring_context → job → outcome json)
    (R : runtime) (env : environ) (p : preferences) (st st' : app_state)
    (calls : list call) (report : discovery_report) :
  db_ok (database st) →
  trigger_discovery lower google_jobs claude R env p st = (calls, Ok report, st') →
  ∃ out rows,
    run_discovery lower google_jobs claude p = (calls, Returned out)
    ∧ found report = length out
    ∧ saved report = length (not_stored (database st) out)
    ∧ saved report ≤ found report
    ∧ db_jobs (database st') = db_jobs (database st) ++ rows
    ∧ Forall2 (row_of R) (not_stored (database st) out) rows
    ∧ db_ok (database st').
Proof.
  intros Hok (_ & client & out & _ & Hrun & Hstore)%trigger_discovery_ok.
  rewrite store_results_eq in Hstore. injection Hstore as <- <-.
  destruct (save_loop R out (database st) 0 Hok) as (rows & Hrows & Hnew & Hk & _ & Hok').
  { by eapply run_discovery_ids_NoDup. }
  exists out, rows. simpl. rewrite Hk. split_and!; try done.
  unfold not_stored. apply length_filter.
Qed.

(** ** Reading the table *)

Lemma score_desc_refl (r : job_row) : score_desc r r.
Proof. unfold score_desc, score_le. by destruct (row_score r). Qed.

Lemma elem_of_sql_limit {A} (limit : Z) (rows : list A) (x : A) :
  x ∈ sql_limit limit rows → x ∈ rows.
Proof.
  unfold sql_limit. case_decide; [done|]. intros Hx.
  rewrite <- (take_drop (Z.to_nat limit) rows). apply elem_of_app. by left.
Qed.

Lemma filter_selected_all (rows : list job_row) :
  filter (λ r, selected None None r = true) rows = rows.
Proof.
  induction rows as [|r rows IH]; [done|].
  by rewrite filter_cons_True, IH.
Qed.

Lemma get_jobs_elem (R : runtime) (status : option string) (min_score : option Qc)
    (limit : Z) (db : jobs_db) (r : job_row) :
  orders_by_score R →
  r ∈ get_jobs R status min_score limit db →
  r ∈ db_jobs db ∧ selected status min_score r = true.
Proof.
  intros [Hperm _] Hr%elem_of_sql_limit. rewrite Hperm in Hr.
  by apply list_elem_of_filter in Hr as [? ?].
Qed.

Lemma get_jobs_default (R : runtime) (db : jobs_db) :
  orders_by_score R →
  get_jobs R None None 50 db = take 50 (order_by_score R (db_jobs db)).
Proof. intros _. unfold get_jobs. by rewrite filter_selected_all. Qed.

Lemma find_id_Some (rows : list job_row) (job_id : Z) (r : job_row) :
  find (λ j, bool_decide (row_id j = job_id)) rows = Some r →
  r ∈ rows ∧ row_id r = job_id.
Proof.
  intros [Hin Hid]%find_some. split; [by apply list_elem_of_In|].
  by apply bool_decide_eq_true in Hid.
Qed.

Lemma find_id_None (rows : list job_row) (job_id : Z) :
  find (λ j, bool_decide (row_id j = job_id)) rows = None ↔
  job_id ∉ row_id <$> rows.
Proof.
  split.
  - intros Hnone (r & -> & Hr)%list_elem_of_fmap.
    apply list_elem_of_In in Hr.
    pose proof (find_none _ _ Hnone r Hr) as Hno. simpl in Hno.
    by apply bool_decide_eq_false in Hno.
  - intros Hno.
    destruct (find (λ j, bool_decide (row_id j = job_id)) rows) as [r|] eqn:Hr;
      [|done].
    apply find_id_Some in Hr as [Hin <-]. destruct Hno.
    by apply list_elem_of_fmap_2.
Qed.

Lemma get_job_Ok (R : runtime) (job_id : Z) (db : jobs_db) (r : job_row) :
  get_job R job_id db = Ok r ↔
  find (λ j, bool_decide (row_id j = job_id)) (get_jobs R None None 50 db) = Some r.
Proof.
  unfold get_job.
  destruct (find (λ j, bool_decide (row_id j = job_id)) (get_jobs R None None 50 db));
    split; by intros [= ->].
Qed.

Lemma get_job_404 (R : runtime) (job_id : Z) (db : jobs_db) :
  job_id ∉ row_id <$> get_jobs R None None 50 db →
  get_job R job_id db
  = HTTPException 404 ("Job " +:+ pretty job_id +:+ " not found").
Proof. intros Hno%find_id_None. unfold get_job. by rewrite Hno. Qed.

Lemma get_job_listed (R : runtime) (db : jobs_db) (r : job_row) :
  orders_by_score R → db_ok db →
  r ∈ get_jobs R None None 50 db →
  get_job R (row_id r) db = Ok r.
Proof.
  intros Horder (Hids & _) Hr. apply get_job_Ok.
  destruct (find (λ j, bool_decide (row_id j = row_id r))
              (get_jobs R None None 50 db)) as [x|] eqn:Hx.
  - apply find_id_Some in Hx as [Hin Hid]. f_equal.
    apply (get_jobs_elem R) in Hin as [Hin _]; [|done].
    apply (get_jobs_elem R) in Hr as [Hr _]; [|done].
    by apply (NoDup_fmap_eq row_id (db_jobs db)).
  - apply find_id_None in Hx. destruct Hx. by apply list_elem_of_fmap_2.
Qed.

(** A row among the first [n] of a sorted list has fewer than [n] rows of
    larger score before it. *)
Lemma sorted_rank (l higher : list job_row) (n : nat) (r : job_row) :
  StronglySorted score_desc l →
  r ∈ take n l →
  NoDup higher →
  (∀ r', r' ∈ higher → r' ∈ l ∧ ¬ score_desc r r') →
  length higher < n.
Proof.
  intros Hsorted Hr Hnodup Hhigher.
  apply list_elem_of_split in Hr as (l1 & l2 & Htake).
  assert (length l1 < n) as Hlen.
  { pose proof (firstn_le_length n l) as Hle.
    rewrite Htake, length_app in Hle. simpl in Hle. lia. }
  assert (l = l1 ++ r :: (l2 ++ drop n l)) as Hl.
  { rewrite <- (take_drop n l) at 1. rewrite Htake, <- app_assoc. done. }
  rewrite Hl in Hsorted. apply StronglySorted_app_1_r in Hsorted.
  apply StronglySorted_inv in Hsorted as [_ Hafter].
  rewrite Forall_forall in Hafter.
  assert (higher ⊆+ l1) as Hsub; [|apply submseteq_length in Hsub; lia].
  apply NoDup_submseteq; [done|]. intros r' Hr'.
  destruct (Hhigher r' Hr') as [Hin Hno]. rewrite Hl in Hin.
  apply elem_of_app in Hin as [|[->|Hin]%elem_of_cons]; [done| |].
  - destruct Hno. apply score_desc_refl.
  - destruct Hno. by apply Hafter.
Qed.

(** X9.  [get_job] looks for the id among the 50 rows [get_jobs()] returns
    by default.  What it returns is the stored row with that id; with at
    most 50 rows stored every row is found; a stored row that 50 or more
    rows outscore is answered with a 404, as an id that is not stored
    is. *)
Theorem get_job_window (R : runtime) (db : jobs_db) :
  orders_by_score R →
  db_ok db →
  (∀ job_id r, get_job R job_id db = Ok r → r ∈ db_jobs db ∧ row_id r = job_id)
  ∧ (length (db_jobs db) ≤ 50 →
     ∀ r, r ∈ db_jobs db → get_job R (row_id r) db = Ok r)
  ∧ (∀ r, r ∈ db_jobs db → 50 ≤ length (higher_scored r db) →
       get_job R (row_id r) db
       = HTTPException 404 ("Job " +:+ pretty (row_id r) +:+ " not found"))
  ∧ (∀ job_id, job_id ∉ row_id <$> db_jobs db →
       get_job R job_id db
       = HTTPException 404 ("Job " +:+ pretty job_id +:+ " not found")).
Proof.
  intros Horder Hok. pose proof Horder as [Hperm Hsorted].
  pose proof Hok as (Hids & _). split_and!.
  - intros job_id r [Hin Hid]%get_job_Ok%find_id_Some. split; [|done].
    by apply (get_jobs_elem R) in Hin as [? _].
  - intros Hlen r Hr. apply get_job_listed; [done..|].
    rewrite get_jobs_default, take_ge by (by rewrite ?Hperm).
    by rewrite Hperm.
  - intros r Hr Hhigher. apply get_job_404.
    intros (x & Hid & Hx)%list_elem_of_fmap.
    pose proof Hx as [Hin _]%(get_jobs_elem R); [|done].
    assert (x = r) as ->.
    { by apply (NoDup_fmap_eq row_id (db_jobs db)). }
    rewrite get_jobs_default in Hx by done.
    pose proof (sorted_rank _ (higher_scored r db) _ _
                  (Hsorted (db_jobs db)) Hx) as Hrank.
    enough (length (higher_scored r db) < 50) by lia. apply Hrank.
    + apply NoDup_filter. by apply NoDup_fmap_1 in Hids.
    + intros r' [Hno Hin']%list_elem_of_filter. by rewrite Hperm.
  - intros job_id Hno. apply get_job_404.
    intros (x & -> & Hx)%list_elem_of_fmap. destruct Hno.
    apply list_elem_of_fmap_2. by apply (get_jobs_elem R) in Hx as [? _].
Qed.

(** X8.  With fewer than 50 rows stored, a job whose [external_id] is not
    stored yet is found by [get_job] under the id [insert_job] returned,
    with the fields it was inserted with and the status ["new"]. *)
Theorem inserted_job_is_found (R : runtime) (job : scored_job) (db : jobs_db) :
  orders_by_score R →
  db_ok db →
  length (db_jobs db) < 50 →
  sj_external_id job ∉ external_ids db →
  ∃ r,
    get_job R (insert_job R job db).2 (insert_job R job db).1 = Ok r
    ∧ row_id r = (insert_job R job db).2
    ∧ row_external_id r = Some (sj_external_id job)
    ∧ row_title r = sj_title job
    ∧ row_company r = sj_company job
    ∧ row_url r = sj_url job
    ∧ row_score r = Some (sj_score job)
    ∧ row_status r = Some "new".
Proof.
  intros Horder Hok Hlen Hid. pose proof Horder as [Hperm _].
  pose proof (db_ok_insert R job db Hok) as Hok'.
  rewrite insert_job_fresh in * by done. simpl in *.
  exists (new_row R (db_sequence db + 1) (datetime_now R (db_statements db)) job).
  split; [|done].
  apply (get_job_listed R _
           (new_row R (db_sequence db + 1) (datetime_now R (db_statements db)) job));
    [done..|].
  rewrite get_jobs_default by done. simpl. rewrite take_ge.
  - rewrite Hperm. apply elem_of_app. right. apply list_elem_of_here.
  - rewrite Hperm, length_app. simpl. lia.
Qed.

Lemma length_sql_limit {A} (limit : Z) (rows : list A) :
  (0 ≤ limit)%Z →
  length (sql_limit limit rows) = Z.to_nat limit `min` length rows.
Proof.
  intros Hlimit. unfold sql_limit. rewrite decide_False by lia.
  apply length_take.
Qed.

(** X11.  What [get_jobs] returns: stored rows that pass the filters, the
    larger scores first, as many as the limit allows and all of them
    under a negative limit; a row that passes the filters and is left out
    scores no higher than any row returned.  An empty [status] filters
    nothing. *)
Theorem get_jobs_contract (R : runtime) (status : option string)
    (min_score : option Qc) (limit : Z) (db : jobs_db) :
  orders_by_score R →
  (∀ r, r ∈ get_jobs R status min_score limit db →
     r ∈ db_jobs db ∧ selected status min_score r = true)
  ∧ StronglySorted score_desc (get_jobs R status min_score limit db)
  ∧ ((0 ≤ limit)%Z →
     length (get_jobs R status min_score limit db)
     = Z.to_nat limit
       `min` length (filter (λ r, selected status min_score r = true) (db_jobs db)))
  ∧ ((limit < 0)%Z →
     get_jobs R status min_score limit db
     ≡ₚ filter (λ r, selected status min_score r = true) (db_jobs db))
  ∧ (∀ r r',
       r ∈ db_jobs db → selected status min_score r = true →
       r ∉ get_jobs R status min_score limit db →
       r' ∈ get_jobs R status min_score limit db →
       score_desc r' r)
  ∧ get_jobs R (Some "") min_score limit db = get_jobs R None min_score limit db.
Proof.
  intros Horder. pose proof Horder as [Hperm Hsorted]. split_and!.
  - intros r. by apply get_jobs_elem.
  - unfold get_jobs, sql_limit. case_decide; [done|].
    eapply StronglySorted_app_1_l. rewrite take_drop. apply Hsorted.
  - intros Hlimit. unfold get_jobs.
    by rewrite length_sql_limit, Hperm.
  - intros Hlimit. unfold get_jobs, sql_limit. by rewrite decide_True.
  - intros r r' Hr Hsel Hout Hin. unfold get_jobs, sql_limit in *.
    assert (r ∈ order_by_score R
              (filter (λ r, selected status min_score r = true) (db_jobs db)))
      as Hall.
    { rewrite Hperm. by apply list_elem_of_filter. }
    case_decide; [done|].
    rewrite <- (take_drop (Z.to_nat limit)) in Hall.
    apply elem_of_app in Hall as [|Hdrop]; [done|].
    eapply StronglySorted_app_1_elem_of; [|done..].
    rewrite take_drop. apply Hsorted.
  - done.
Qed.

Lemma valid_status_truthy (status : string) :
  status ∈ valid_statuses → truthy status = true.
Proof.
  unfold valid_statuses. rewrite !elem_of_cons, elem_of_nil.
  intros [->|[->|[->|[->|[->|[->|[]]]]]]]; done.
Qed.

Lemma update_rows (R : runtime) (job_id : Z) (status : string) (db : jobs_db)
    (r' : job_row) :
  r' ∈ db_jobs (update_job_status R job_id status db) ↔
  ∃ r, r ∈ db_jobs db
       ∧ r' = if decide (row_id r = job_id)
              then set_status status (datetime_now R (db_statements db)) r
              else r.
Proof.
  unfold update_job_status. simpl. rewrite list_elem_of_fmap.
  split; intros (r & ? & ?); by exists r.
Qed.

(** X10.  [change_job_status] refuses a status outside the six valid ones
    with a 400 and leaves the database as it is.  With a valid status it
    answers ok whether the id is stored or not: the row with that id gets
    the status, every other row stays as it is, no row is added or
    removed, and afterwards the row is listed under the new status and
    under no other; with at most 50 rows stored, [get_job] returns it with
    the new status. *)
Theorem change_job_status_effect (R : runtime) (job_id : Z) (status : string)
    (db : jobs_db) :
  orders_by_score R →
  (status ∉ valid_statuses →
     ∃ detail,
       change_job_status R job_id status db = (HTTPException 400 detail, db))
  ∧ (status ∈ valid_statuses →
     (change_job_status R job_id status db).1 = Ok true
     ∧ row_id <$> db_jobs (change_job_status R job_id status db).2
       = row_id <$> db_jobs db
     ∧ (∀ r, r ∈ db_jobs db → row_id r ≠ job_id →
          r ∈ db_jobs (change_job_status R job_id status db).2)
     ∧ (∀ r', r' ∈ db_jobs (change_job_status R job_id status db).2 →
          row_id r' = job_id →
          ∃ r, r ∈ db_jobs db
               ∧ r' = set_status status (datetime_now R (db_statements db)) r)
     ∧ (job_id ∉ row_id <$> db_jobs db →
          db_jobs (change_job_status R job_id status db).2 = db_jobs db)
     ∧ (∀ r, r ∈ db_jobs db → row_id r = job_id →
          set_status status (datetime_now R (db_statements db)) r
          ∈ get_jobs R (Some status) None (-1)
              (change_job_status R job_id status db).2)
     ∧ (∀ other min_score limit r',
          truthy other = true → other ≠ status →
          r' ∈ get_jobs R (Some other) min_score limit
                 (change_job_status R job_id status db).2 →
          row_id r' ≠ job_id)
     ∧ (db_ok db → length (db_jobs db) ≤ 50 →
        ∀ r, r ∈ db_jobs db → row_id r = job_id →
          get_job R job_id (change_job_status R job_id status db).2
          = Ok (set_status status (datetime_now R (db_statements db)) r))).
Proof.
  intros Horder. pose proof Horder as [Hperm _].
  unfold change_job_status. split.
  { intros Hno. rewrite bool_decide_eq_false_2 by done. by eexists. }
  intros Hvalid. rewrite bool_decide_eq_true_2 by done. simpl. split_and!.
  - done.
  - apply update_keeps_ids.
  - intros r Hr Hid. apply update_rows. exists r. by rewrite decide_False.
  - intros r' (r & Hr & ->)%update_rows Hid. exists r. split; [done|].
    by rewrite decide_True by (by case_decide).
  - intros Hno. unfold update_job_status. simpl.
    rewrite <- (list_fmap_id (db_jobs db)) at 2. apply list_fmap_ext.
    intros i r Hr. rewrite decide_False; [done|]. intros <-. destruct Hno.
    apply list_elem_of_fmap_2. by eapply list_elem_of_lookup_2.
  - intros r Hr Hid. unfold get_jobs, sql_limit. rewrite decide_True by lia.
    rewrite Hperm. apply list_elem_of_filter. split.
    + unfold selected. rewrite valid_status_truthy by done. simpl.
      by rewrite bool_decide_eq_true_2.
    + apply update_rows. exists r. by rewrite decide_True.
  - intros other min_score limit r' Htruthy Hother Hr' Hid.
    apply (get_jobs_elem R) in Hr' as [(r & Hr & ->)%update_rows Hsel]; [|done].
    unfold selected in Hsel. rewrite Htruthy in Hsel.
    apply andb_true_iff in Hsel as [Hsel%bool_decide_eq_true _].
    case_decide as Hr_id; [|done]. simpl in Hsel. congruence.
  - intros Hok Hlen r Hr Hid.
    pose proof (get_job_listed R (update_job_status R job_id status db)
                  (set_status status (datetime_now R (db_statements db)) r)
                  Horder (db_ok_update R job_id status db Hok)) as Hfound.
    simpl in Hfound. rewrite Hid in Hfound. apply Hfound.
    rewrite get_jobs_default by done. rewrite take_ge.
    + rewrite Hperm. apply update_rows. exists r. by rewrite decide_True.
    + rewrite Hperm. unfold update_job_status. simpl. by rewrite length_fmap.
Qed.

Lemma save_job_fst (R : runtime) (job : scored_job) (db : jobs_db) (k : nat) :
  (save_job R (db, k) job).1 = (insert_job R job db).1.
Proof. unfold save_job. by destruct (insert_job R job db). Qed.

Lemma db_ok_save_loop (R : runtime) (jobs : list scored_job) (db : jobs_db)
    (k : nat) :
  db_ok db → db_ok (foldl (save_job R) (db, k) jobs).1.
Proof.
  revert db k. induction jobs as [|job rest IH]; intros db k Hok; [done|].
  change (foldl (save_job R) (db, k) (job :: rest))
    with (foldl (save_job R) (save_job R (db, k) job) rest).
  destruct (save_job R (db, k) job) as [db1 k1] eqn:Hsave.
  apply IH. replace db1 with (save_job R (db, k) job).1 by by rewrite Hsave.
  rewrite save_job_fst. by apply db_ok_insert.
Qed.

(** X6.  The table keeps its keys: starting from the empty database,
    whatever rows [insert_job] is given, whatever ids and statuses
    [update_job_status] and [change_job_status] are called with and
    whatever list [trigger_discovery] stores, no two rows share an [id] or
    an [external_id], and every [id] is positive. *)
Theorem jobs_table_invariant (R : runtime) :
  db_ok new_database
  ∧ ∀ db,
      db_ok db →
      (∀ job, db_ok (insert_job R job db).1)
      ∧ (∀ job_id status, db_ok (update_job_status R job_id status db))
      ∧ (∀ job_id status, db_ok (change_job_status R job_id status db).2)
      ∧ (∀ jobs, db_ok (store_results R jobs db).2).
Proof.
  split; [apply db_ok_new|]. intros db Hok. split_and!.
  - intros job. by apply db_ok_insert.
  - intros job_id status. by apply db_ok_update.
  - intros job_id status. unfold change_job_status.
    case_bool_decide; [|done]. by apply db_ok_update.
  - intros jobs. rewrite store_results_eq. by apply db_ok_save_loop.
Qed.

(** X7.  [insert_job] never overwrites: it returns 0 exactly when the
    [external_id] is stored already, and then leaves every row as it is;
    otherwise it adds one row after the others.  Either way, a later
    insert under the same [external_id], such as the same listing scored
    again by a later run, returns 0 and changes no row. *)
Theorem insert_job_never_overwrites (R : runtime) (job : scored_job)
    (db : jobs_db) :
  db_ok db →
  ((insert_job R job db).2 = 0%Z ↔ sj_external_id job ∈ external_ids db)
  ∧ (sj_external_id job ∈ external_ids db →
     db_jobs (insert_job R job db).1 = db_jobs db)
  ∧ (sj_external_id job ∉ external_ids db →
     db_jobs (insert_job R job db).1
     = db_jobs db
       ++ [new_row R (insert_job R job db).2
             (datetime_now R (db_statements db)) job]
     ∧ (insert_job R job db).2 ∉ row_id <$> db_jobs db)
  ∧ (∀ job', sj_external_id job' = sj_external_id job →
       (insert_job R job' (insert_job R job db).1).2 = 0%Z
       ∧ db_jobs (insert_job R job' (insert_job R job db).1).1
         = db_jobs (insert_job R job db).1).
Proof.
  intros (Hids & Hext & Hpos & Hseq). split_and!.
  - destruct (decide (sj_external_id job ∈ external_ids db)) as [Hid|Hid].
    + by rewrite insert_job_stored.
    + rewrite insert_job_fresh by done. simpl. split; [lia|done].
  - intros Hid. by rewrite insert_job_stored.
  - intros Hid. rewrite insert_job_fresh by done. simpl. split; [done|].
    intros (r & Hr & Hin%Hseq)%list_elem_of_fmap. lia.
  - intros job' Hsame.
    pose proof (external_ids_inserted R job db) as Hin. rewrite <- Hsame in Hin.
    by rewrite insert_job_stored.
Qed.

(** ** The discovery route *)

Lemma not_stored_nil (db : jobs_db) (jobs : list scored_job) :
  (∀ job, job ∈ jobs → sj_external_id job ∈ external_ids db) →
  not_stored db jobs = [].
Proof.
  unfold not_stored. induction jobs as [|job rest IH]; intros Hall; [done|].
  rewrite filter_cons_False.
  - apply IH. intros o Ho. apply Hall. by apply list_elem_of_further.
  - intros Hno. apply Hno, Hall, list_elem_of_here.
Qed.

(** X13.  A second discovery whose searches and replies are those of the
    first finds the same jobs and saves none of them: no row is added or
    changed.  It goes through even when [ANTHROPIC_API_KEY] has been unset
    in between, because the client of the first run is reused. *)
Theorem second_discovery_saves_nothing (lower : string → string)
    (google_jobs : nat → string → outcome (list job))
    (claude : scoring_context → job → outcome json)
    (R : runtime) (env env' : environ) (p : preferences) (st st' : app_state)
    (calls : list call) (report : discovery_report) :
  db_ok (database st) →
  SERPAPI_API_KEY env' = SERPAPI_API_KEY env →
  trigger_discovery lower google_jobs claude R env p st = (calls, Ok report, st') →
  ∃ report' st'',
    trigger_discovery lower google_jobs claude R env' p st'
    = (calls, Ok report', st'')
    ∧ found report' = found report
    ∧ saved report' = 0
    ∧ top_jobs report' = top_jobs report
    ∧ db_jobs (database st'') = db_jobs (database st').
Proof.
  intros Hok Hserp (Hs & client & out & Hclient & Hrun & Hstore)%trigger_discovery_ok.
  apply get_anthropic_client_ok in Hclient as [Hcached _].
  pose proof (run_discovery_ids_NoDup _ _ _ _ _ _ Hrun) as Hnodup.
  rewrite store_results_eq in Hstore. injection Hstore as <- Hdb.
  destruct (save_loop R out (database st) 0 Hok Hnodup)
    as (rows & _ & _ & _ & Hids & Hok').
  rewrite Hdb in Hids, Hok'.
  assert (not_stored (database st') out = []) as Hnone.
  { apply not_stored_nil. intros job Hjob. rewrite Hids, elem_of_app.
    destruct (decide (sj_external_id job ∈ external_ids (database st)));
      [by left|right].
    apply list_elem_of_fmap_2. by apply list_elem_of_filter. }
  destruct (save_loop R out (database st') 0 Hok' Hnodup)
    as (rows' & Hrows' & Hnew & Hk & _).
  rewrite Hnone in Hnew, Hk. apply Forall2_nil_inv_l in Hnew as ->.
  rewrite app_nil_r in Hrows'.
  unfold trigger_discovery. rewrite Hserp, Hs, Hcached. simpl.
  rewrite Hrun, store_results_eq.
  eexists _, _. split; [done|]. simpl. by rewrite Hk.
Qed.


(** X15.  [top_jobs] holds the first five entries of the run's list, or
    all of them when the run found fewer, with their title, company and
    rounded score; no job the run found and left out of [top_jobs] scores
    higher than one listed in it. *)
Theorem top_jobs_are_best (lower : string → string)
    (google_jobs : nat → string → outcome (list job))
    (claude : scoring_context → job → outcome json)
    (R : runtime) (env : environ) (p : preferences) (st st' : app_state)
    (calls : list call) (report : discovery_report) :
  trigger_discovery lower google_jobs claude R env p st = (calls, Ok report, st') →
  ∃ out,
    run_discovery lower google_jobs claude p = (calls, Returned out)
    ∧ length (top_jobs report) = 5 `min` found report
    ∧ top_jobs report
      = (λ j, {| top_title := sj_title j;
                 top_company := sj_company j;
                 top_score := round2 R (sj_score j) |}) <$> take 5 out
    ∧ ∀ listed other,
        listed ∈ take 5 out → other ∈ drop 5 out →
        (sj_score other ≤ sj_score listed)%Qc.
Proof.
  intros (_ & client & out & _ & Hrun & Hstore)%trigger_discovery_ok.
  rewrite store_results_eq in Hstore. injection Hstore as <- _.
  exists out. simpl. split_and!; [done| |done|].
  - by rewrite length_fmap, length_take.
  - intros listed other Hlisted Hother.
    pose proof (run_discovery_sorted _ _ _ _ _ _ Hrun) as Hsorted.
    rewrite <- (take_drop 5 out) in Hsorted.
    by apply (StronglySorted_app_1_elem_of _ _ _ _ _ Hsorted).
Qed.

(** ** The deduplication key *)

Lemma length_le_bytes (count : nat) (n : Z) :
  length (MD5.le_bytes count n) = count.
Proof.
  revert n. induction count as [|count IH]; intros n; [done|].
  simpl. by rewrite IH.
Qed.

Lemma le_bytes_range (count : nat) (n : Z) :
  Forall (λ b, 0 ≤ b < 256)%Z (MD5.le_bytes count n).
Proof.
  revert n. induction count as [|count IH]; intros n; constructor; [|done].
  apply Z.mod_pos_bound. lia.
Qed.

Lemma digest_bytes (msg : list Z) :
  length (MD5.digest msg) = 16 ∧ Forall (λ b, 0 ≤ b < 256)%Z (MD5.digest msg).
Proof.
  unfold MD5.digest.
  destruct (foldl MD5.compress MD5.init _) as [[[a b] c] d].
  split; [by rewrite !length_app, !length_le_bytes|].
  rewrite !Forall_app. split_and!; apply le_bytes_range.
Qed.

Lemma hex_digit_lower (n : Z) :
  (0 ≤ n < 16)%Z → is_lower_hex (MD5.hex_digit n) = true.
Proof.
  intros Hn.
  assert (n ∈ [0; 1; 2; 3; 4; 5; 6; 7; 8; 9; 10; 11; 12; 13; 14; 15]%Z) as Hcases.
  { rewrite !elem_of_cons. lia. }
  repeat (apply elem_of_cons in Hcases as [->|Hcases]; [done|]).
  by apply elem_of_nil in Hcases.
Qed.

Lemma hex_format (bytes : list Z) :
  Forall (λ b, 0 ≤ b < 256)%Z bytes →
  String.length (MD5.hex bytes) = 2 * length bytes
  ∧ Forall (λ a, is_lower_hex a = true) (String.list_ascii_of_string (MD5.hex bytes)).
Proof.
  induction 1 as [|b bytes Hb _ [IHlen IHhex]]; [by split|].
  simpl. rewrite IHlen. split; [lia|].
  constructor; [|constructor; [|done]]; apply hex_digit_lower.
  - split; [apply Z.div_pos; lia|apply Z.div_lt_upper_bound; lia].
  - apply Z.mod_pos_bound. lia.
Qed.

Lemma blocks_concat (fuel : nat) (ws : list Z) :
  length ws ≤ fuel → concat (MD5.blocks fuel ws) = ws.
Proof.
  revert ws. induction fuel as [|fuel IH]; intros ws Hlen.
  - destruct ws; [done|simpl in Hlen; lia].
  - destruct ws as [|w ws]; [done|].
    change (MD5.blocks (S fuel) (w :: ws))
      with (take 16 (w :: ws) :: MD5.blocks fuel (drop 16 (w :: ws))).
    rewrite concat_cons, IH, take_drop; [done|].
    rewrite length_drop. simpl in *. lia.
Qed.

(** X16.  Whatever the URL, the empty one included, [generate_external_id]
    returns 32 lower-case hexadecimal digits; and the fuel of the block
    splitter is enough: every word of the padded message is in a block
    that is compressed. *)
Theorem external_id_format (url : string) :
  String.length (generate_external_id url) = 32
  ∧ Forall (λ a, is_lower_hex a = true)
      (String.list_ascii_of_string (generate_external_id url))
  ∧ concat (MD5.blocks (length (MD5.words (MD5.pad (MD5.bytes_of_string url))))
              (MD5.words (MD5.pad (MD5.bytes_of_string url))))
    = MD5.words (MD5.pad (MD5.bytes_of_string url)).
Proof.
  unfold generate_external_id, MD5.hexdigest.
  destruct (digest_bytes (MD5.bytes_of_string url)) as [Hlen Hrange].
  destruct (hex_format _ Hrange) as [Hhex Hdigits].
  split; [by rewrite Hhex, Hlen|]. split; [done|]. by apply blocks_concat.
Qed.

(** ** The properties on the samples *)

Lemma score_le_trans (a b c : option Qc) :
  score_le a b → score_le b c → score_le a c.
Proof.
  destruct a as [x|], b as [y|], c as [z|]; simpl; try done.
  apply Qcle_trans.
Qed.

Lemma score_le_total (a b : option Qc) : score_le a b ∨ score_le b a.
Proof.
  destruct a as [x|], b as [y|]; simpl; try tauto.
  destruct (Qclt_le_dec x y) as [Hlt|Hle]; [left|by right].
  by apply Qclt_le_weak.
Qed.

Lemma sample_orders : orders_by_score sample_runtime.
Proof.
  split; intros rows; simpl.
  - apply merge_sort_Permutation.
  - assert (Transitive score_desc) as Htrans.
    { intros r1 r2 r3 H12 H23. unfold score_desc in *.
      by eapply score_le_trans. }
    assert (Total score_desc) as Htotal.
    { intros r1 r2. apply score_le_total. }
    apply (StronglySorted_merge_sort score_desc).
Qed.

Lemma db_ok_crowded : db_ok crowded_db.
Proof.
  unfold crowded_db. rewrite store_results_eq. apply db_ok_save_loop, db_ok_new.
Qed.

Lemma fenced_reply_unwrapped_witness :
  contains "`" preamble = false
  ∧ contains "`" (line_feed +:+ reply_text "0.9" +:+ line_feed) = false
  ∧ reply_json_text (fence (reply_text "0.9")) = reply_text "0.9".
Proof.
  assert (contains "`" preamble = false) as Hbefore by (vm_compute; reflexivity).
  assert (contains "`" (line_feed +:+ reply_text "0.9" +:+ line_feed) = false)
    as Hbody by (vm_compute; reflexivity).
  destruct (fenced_reply_unwrapped preamble
              (line_feed +:+ reply_text "0.9" +:+ line_feed) "" Hbefore Hbody)
    as (Htagged & _ & _).
  split; [exact Hbefore|]. split; [exact Hbody|].
  unfold fence. rewrite Htagged. vm_compute. reflexivity.
Defined.

Lemma unclosed_fence_kept_witness :
  contains "`" "" = false
  ∧ contains "```" ("json" +:+ line_feed +:+ "{" +:+ double_quote +:+ "overall_score")
    = false
  ∧ reply_json_text truncated_reply = truncated_reply.
Proof.
  assert (contains "```"
            ("json" +:+ line_feed +:+ "{" +:+ double_quote +:+ "overall_score")
          = false) as Hopen by (vm_compute; reflexivity).
  destruct (unclosed_fence_kept ""
              ("json" +:+ line_feed +:+ "{" +:+ double_quote +:+ "overall_score")
              eq_refl Hopen) as [_ Hkept].
  split; [reflexivity|]. split; [exact Hopen|].
  refine (eq_trans Hkept _). vm_compute. reflexivity.
Defined.

Lemma reply_json_text_stripped_witness :
  space_char line_feed
  ∧ contains "```" (line_feed +:+ reply_text "0.5" +:+ line_feed) = false
  ∧ reply_json_text (line_feed +:+ reply_text "0.5" +:+ line_feed)
    = reply_text "0.5"
  ∧ reply_json_text (line_feed +:+ reply_text "0.5" +:+ line_feed)
    ≠ line_feed +:+ reply_text "0.5".
Proof.
  assert (space_char line_feed) as Hspace by (by apply space_one).
  assert (contains "```" (line_feed +:+ reply_text "0.5" +:+ line_feed) = false)
    as Hplain by (vm_compute; reflexivity).
  destruct (reply_json_text_stripped
              (line_feed +:+ reply_text "0.5" +:+ line_feed))
    as (_ & _ & Hends & Hstrip).
  split; [exact Hspace|]. split; [exact Hplain|]. split.
  - rewrite (Hstrip Hplain). vm_compute. reflexivity.
  - exact (proj1 (Hends line_feed (reply_text "0.5") Hspace)).
Defined.

Lemma tailoring_json_text_agrees_witness :
  fence_search (fence (reply_text "0.95")) = Some (reply_text "0.95")
  ∧ tailoring_json_text (fence (reply_text "0.95")) = reply_text "0.95".
Proof.
  assert (fence_search (fence (reply_text "0.95")) = Some (reply_text "0.95"))
    as Hfound by (vm_compute; reflexivity).
  destruct (tailoring_json_text_agrees (fence (reply_text "0.95")))
    as [Hsame Hgroup].
  split; [exact Hfound|]. rewrite Hsame. exact (Hgroup _ Hfound).
Defined.


Lemma jobs_table_invariant_witness :
  db_ok new_database ∧ db_ok board_db.
Proof.
  destruct (jobs_table_invariant sample_runtime) as [Hnew Hkept].
  split; [exact Hnew|].
  exact (proj2 (proj2 (proj2 (Hkept new_database Hnew)))
           [product_lead_entry; senior_pm_entry; director_entry]).
Defined.

Lemma insert_job_never_overwrites_witness :
  db_ok new_database
  ∧ sj_external_id senior_pm_rescored = sj_external_id senior_pm_entry
  ∧ (insert_job sample_runtime senior_pm_rescored
       (insert_job sample_runtime senior_pm_entry new_database).1).2 = 0%Z
  ∧ row_score
      <$> db_jobs (insert_job sample_runtime senior_pm_rescored
                     (insert_job sample_runtime senior_pm_entry new_database).1).1
    = [Some (percent 90)].
Proof.
  destruct (insert_job_never_overwrites sample_runtime senior_pm_entry
              new_database db_ok_new) as (_ & _ & _ & Hagain).
  destruct (Hagain senior_pm_rescored eq_refl) as [Hzero Hrows].
  split; [exact db_ok_new|]. split; [reflexivity|]. split; [exact Hzero|].
  rewrite Hrows. vm_compute. reflexivity.
Defined.

Lemma inserted_job_is_found_witness :
  orders_by_score sample_runtime
  ∧ db_ok new_database
  ∧ ∃ r, get_job sample_runtime 1
           (insert_job sample_runtime senior_pm_entry new_database).1 = Ok r
         ∧ row_title r = "Senior PM"
         ∧ row_score r = Some (percent 90)
         ∧ row_status r = Some "new".
Proof.
  split; [exact sample_orders|]. split; [exact db_ok_new|].
  destruct (inserted_job_is_found sample_runtime senior_pm_entry new_database
              sample_orders db_ok_new)
    as (r & Hfound & _ & _ & Htitle & _ & _ & Hscore & Hstatus).
  - simpl. lia.
  - apply not_elem_of_nil.
  - exists r. split; [exact Hfound|]. split; [exact Htitle|].
    split; [exact Hscore|exact Hstatus].
Defined.

Lemma get_job_window_witness :
  orders_by_score sample_runtime
  ∧ db_ok crowded_db
  ∧ last_row ∈ db_jobs crowded_db
  ∧ length (higher_scored last_row crowded_db) = 50
  ∧ get_job sample_runtime 1 crowded_db = HTTPException 404 "Job 1 not found".
Proof.
  assert (last_row ∈ db_jobs crowded_db) as Hstored.
  { apply (list_elem_of_lookup_2 _ 0). vm_compute. reflexivity. }
  assert (length (higher_scored last_row crowded_db) = 50) as Hhigher
    by (vm_compute; reflexivity).
  split; [exact sample_orders|]. split; [exact db_ok_crowded|].
  split; [exact Hstored|]. split; [exact Hhigher|].
  apply (proj1 (proj2 (proj2
           (get_job_window sample_runtime crowded_db sample_orders db_ok_crowded)))
           last_row Hstored).
  rewrite Hhigher. lia.
Defined.

Lemma change_job_status_effect_witness :
  orders_by_score sample_runtime
  ∧ "applied" ∈ valid_statuses
  ∧ (change_job_status sample_runtime 2 "applied" board_db).1 = Ok true
  ∧ ("hired" ∉ valid_statuses)
  ∧ ∃ detail,
      change_job_status sample_runtime 2 "hired" board_db
      = (HTTPException 400 detail, board_db).
Proof.
  assert ("applied" ∈ valid_statuses) as Hvalid.
  { apply (bool_decide_unpack _). vm_compute. exact I. }
  assert ("hired" ∉ valid_statuses) as Hinvalid.
  { apply (bool_decide_unpack _). vm_compute. exact I. }
  split; [exact sample_orders|]. split; [exact Hvalid|].
  split.
  { exact (proj1 (proj2 (change_job_status_effect sample_runtime 2 "applied"
                           board_db sample_orders) Hvalid)). }
  split; [exact Hinvalid|].
  exact (proj1 (change_job_status_effect sample_runtime 2 "hired" board_db
                  sample_orders) Hinvalid).
Defined.

Lemma get_jobs_contract_witness :
  orders_by_score sample_runtime
  ∧ length (get_jobs sample_runtime (Some "new") (Some (percent 90)) 2 board_db)
    = 2.
Proof.
  split; [exact sample_orders|].
  rewrite (proj1 (proj2 (proj2
             (get_jobs_contract sample_runtime (Some "new") (Some (percent 90)) 2
                board_db sample_orders)))); [|lia].
  vm_compute. reflexivity.
Defined.

Lemma discovery_saves_new_listings_witness :
  db_ok (database fresh_state)
  ∧ trigger_discovery ascii_lower board_search board_claude sample_runtime
      sample_env board_prefs fresh_state
    = ((trigger_discovery ascii_lower board_search board_claude sample_runtime
          sample_env board_prefs fresh_state).1.1,
       Ok first_report,
       (trigger_discovery ascii_lower board_search board_claude sample_runtime
          sample_env board_prefs fresh_state).2)
  ∧ ∃ out,
      (run_discovery ascii_lower board_search board_claude board_prefs).2
      = Returned out
      ∧ saved first_report = length (not_stored new_database out).
Proof.
  assert (trigger_discovery ascii_lower board_search board_claude sample_runtime
            sample_env board_prefs fresh_state
          = ((trigger_discovery ascii_lower board_search board_claude
                sample_runtime sample_env board_prefs fresh_state).1.1,
             Ok first_report,
             (trigger_discovery ascii_lower board_search board_claude
                sample_runtime sample_env board_prefs fresh_state).2))
    as Hrun by (vm_compute; reflexivity).
  split; [exact db_ok_new|]. split; [exact Hrun|].
  destruct (discovery_saves_new_listings ascii_lower board_search board_claude
              sample_runtime sample_env board_prefs fresh_state _ _ _
              db_ok_new Hrun) as (out & rows & Hout & _ & Hsaved & _).
  exists out. split; [by rewrite Hout|exact Hsaved].
Defined.

Lemma second_discovery_saves_nothing_witness :
  SERPAPI_API_KEY env_without_anthropic = SERPAPI_API_KEY sample_env
  ∧ ∃ calls st',
      trigger_discovery ascii_lower board_search board_claude sample_runtime
        sample_env board_prefs fresh_state
      = (calls, Ok first_report, st')
      ∧ ∃ report' st'',
          trigger_discovery ascii_lower board_search board_claude sample_runtime
            env_without_anthropic board_prefs st'
          = (calls, Ok report', st'')
          ∧ saved report' = 0
          ∧ db_jobs (database st'') = db_jobs (database st').
Proof.
  assert (trigger_discovery ascii_lower board_search board_claude sample_runtime
            sample_env board_prefs fresh_state
          = ((trigger_discovery ascii_lower board_search board_claude
                sample_runtime sample_env board_prefs fresh_state).1.1,
             Ok first_report,
             (trigger_discovery ascii_lower board_search board_claude
                sample_runtime sample_env board_prefs fresh_state).2))
    as Hrun by (vm_compute; reflexivity).
  split; [reflexivity|]. eexists _, _. split; [exact Hrun|].
  destruct (second_discovery_saves_nothing ascii_lower board_search board_claude
              sample_runtime sample_env env_without_anthropic board_prefs
              fresh_state _ _ _ db_ok_new eq_refl Hrun)
    as (report' & st'' & Hsecond & _ & Hsaved & _ & Hrows).
  exists report', st''. split; [exact Hsecond|]. split; [exact Hsaved|exact Hrows].
Defined.


Lemma top_jobs_are_best_witness :
  ∃ calls st',
    trigger_discovery ascii_lower board_search board_claude sample_runtime
      sample_env board_prefs fresh_state
    = (calls, Ok first_report, st')
    ∧ ∃ out,
        run_discovery ascii_lower board_search board_claude board_prefs
        = (calls, Returned out)
        ∧ length (top_jobs first_report) = 5 `min` found first_report.
Proof.
  assert (trigger_discovery ascii_lower board_search board_claude sample_runtime
            sample_env board_prefs fresh_state
          = ((trigger_discovery ascii_lower board_search board_claude
                sample_runtime sample_env board_prefs fresh_state).1.1,
             Ok first_report,
             (trigger_discovery ascii_lower board_search board_claude
                sample_runtime sample_env board_prefs fresh_state).2))
    as Hrun by (vm_compute; reflexivity).
  eexists _, _. split; [exact Hrun|].
  destruct (top_jobs_are_best ascii_lower board_search board_claude
              sample_runtime sample_env board_prefs fresh_state _ _ _ Hrun)
    as (out & Hout & Hlength & _).
  exists out. split; [exact Hout|exact Hlength].
Defined.

Lemma run_returns_exactly_when_witness :
  read_settings ascii_lower board_prefs
  = Returned (list_to_set (ascii_lower <$> ["Office Manager"]),
              list_to_set (ascii_lower <$> ["Onsite"]), percent 80, board_queries)
  ∧ ¬ ∀ c score_data,
        c ∈ surviving ascii_lower (list_to_set (ascii_lower <$> ["Office Manager"]))
              (list_to_set (ascii_lower <$> ["Onsite"]))
              (imap (search_jobs board_search) board_queries) →
        (_score claude_misnamed board_prefs c).2 = Returned (c, score_data) →
        usable (percent 80) score_data.
Proof.
  split; [reflexivity|]. intros Husable.
  apply (run_returns_exactly_when ascii_lower board_search claude_misnamed
           board_prefs _ _ _ _ eq_refl) in Husable as [out Hout].
  vm_compute in Hout. discriminate Hout.
Defined.
